(** * Expeer: the decoder, function discovery, CFG builder and lifter

    A shallow embedding of the analysis pipeline of the Expeer decompiler
    (Go packages [disasm], [cfg] and [decompiler]) together with the
    theorems that settle the properties stated about it.

    Conventions of the embedding:
    - Go [int] and [uint64] values are [Z]; unsigned 64-bit wrap-around is
      written out with [uint64], signed conversions with [int8], [int32]
      and [int64];
    - a [[]byte] is a [list byte]; indexing and slicing outside the
      slice are run-time panics and are modelled as such;
    - pointers to basic blocks are indices into a store of blocks;
    - a function that returns early with [Instruction{}, 0] is written
      in the [result] monad, whose [Fail] is that early return and whose
      [Panic] is a Go run-time panic;
    - loops whose termination is not evident from the code take a fuel
      argument and return [None] when the fuel runs out. *)

From Stdlib Require Import ZArith NArith String Ascii List Lia.
From Stdlib Require Import HexadecimalString DecimalString.
From Stdlib.Strings Require Import Byte.
From stdpp Require Import base option list gmap strings sorting relations.

Local Open Scope Z_scope.

(** ** Machine integers and formatting *)

Definition uint8 (z : Z) : Z := z mod 2 ^ 8.
Definition uint32 (z : Z) : Z := z mod 2 ^ 32.
Definition uint64 (z : Z) : Z := z mod 2 ^ 64.
Definition int8 (z : Z) : Z := (z + 2 ^ 7) mod 2 ^ 8 - 2 ^ 7.
Definition int32 (z : Z) : Z := (z + 2 ^ 31) mod 2 ^ 32 - 2 ^ 31.
Definition int64 (z : Z) : Z := (z + 2 ^ 63) mod 2 ^ 64 - 2 ^ 63.

Definition byteZ (b : byte) : Z := Z.of_N (Byte.to_N b).
Definition len {A} (l : list A) : Z := Z.of_nat (length l).

(** [binary.LittleEndian.Uint16] and [Uint32] on a slice of exactly the
    bytes read. *)
Fixpoint le_uint (bs : list byte) : Z :=
  match bs with
  | [] => 0
  | b :: rest => byteZ b + 256 * le_uint rest
  end.

(** [%x] of a non-negative number, [%x] of a signed one, [%02x], [%d]. *)
Definition hex (z : Z) : string :=
  HexadecimalString.NilZero.string_of_uint (N.to_hex_uint (Z.to_N z)).
Definition hex_signed (z : Z) : string :=
  if z <? 0 then "-" +:+ hex (- z) else hex z.
Definition hex02 (z : Z) : string :=
  let s := hex z in
  if (String.length s <? 2)%nat then "0" +:+ s else s.
Definition dec (z : Z) : string :=
  DecimalString.NilZero.string_of_uint (N.to_uint (Z.to_N z)).

(** [s[n:]] on a string. *)
Definition str_from (n : nat) (s : string) : string :=
  String.substring n (String.length s - n) s.

(** ** Results of partial code *)

Inductive result (A : Type) : Type :=
| Ok (a : A)
| Fail
| Panic.
Arguments Ok {A} a.
Arguments Fail {A}.
Arguments Panic {A}.

#[global] Instance result_ret : MRet result := fun A a => Ok a.
#[global] Instance result_bind : MBind result := fun A B f m =>
  match m with
  | Ok a => f a
  | Fail => Fail
  | Panic => Panic
  end.

(** [data[i]]: panics outside the slice. *)
Definition idx {A} (data : list A) (i : Z) : result A :=
  if (i <? 0) || (len data <=? i) then Panic
  else match data !! Z.to_nat i with
       | Some a => Ok a
       | None => Panic
       end.

(** [data[lo:]] and [data[lo:hi]]. Every two-index slice of the source is
    guarded by a test against [len(data)], so capacity never matters. *)
Definition slice_from {A} (data : list A) (lo : Z) : result (list A) :=
  if (lo <? 0) || (len data <? lo) then Panic
  else Ok (drop (Z.to_nat lo) data).
Definition slice {A} (data : list A) (lo hi : Z) : result (list A) :=
  if (lo <? 0) || (hi <? lo) || (len data <? hi) then Panic
  else Ok (take (Z.to_nat (hi - lo)) (drop (Z.to_nat lo) data)).

(** ** Package disasm: instructions *)

Module Disasm.

Inductive InstructionCategory : Type :=
| CatUnknown
| CatDataTransfer
| CatArithmetic
| CatLogical
| CatCompare
| CatCall
| CatReturn
| CatJump
| CatStack
| CatInterrupt
| CatNop
| CatOther.

#[global] Instance InstructionCategory_eq_dec : EqDecision InstructionCategory.
Proof. solve_decision. Defined.

Record Instruction : Type := mkInstruction {
  Address : Z;
  Bytes : list byte;
  Mnemonic : string;
  Operands : string;
  Size : Z;
  Category : InstructionCategory;
  RegsRead : list string;
  RegsWritten : list string;
  HasMemoryAccess : bool;
  MemoryBase : string;
  MemoryIndex : string;
  MemoryDisp : Z;
  MemoryScale : Z;
  IsConditional : bool;
  IsBranch : bool;
  BranchTarget : Z;
  FallsThrough : bool
}.

(** [Instruction{}] and [Instruction{Address: addr}]. *)
Definition zero_Instruction : Instruction :=
  mkInstruction 0 [] EmptyString EmptyString 0 CatUnknown [] [] false
    EmptyString EmptyString 0 0 false false 0 false.

Definition set_Address (v : Z) (i : Instruction) : Instruction :=
  mkInstruction v (Bytes i) (Mnemonic i) (Operands i) (Size i) (Category i)
    (RegsRead i) (RegsWritten i) (HasMemoryAccess i) (MemoryBase i)
    (MemoryIndex i) (MemoryDisp i) (MemoryScale i) (IsConditional i)
    (IsBranch i) (BranchTarget i) (FallsThrough i).
Definition set_Bytes (v : list byte) (i : Instruction) : Instruction :=
  mkInstruction (Address i) v (Mnemonic i) (Operands i) (Size i) (Category i)
    (RegsRead i) (RegsWritten i) (HasMemoryAccess i) (MemoryBase i)
    (MemoryIndex i) (MemoryDisp i) (MemoryScale i) (IsConditional i)
    (IsBranch i) (BranchTarget i) (FallsThrough i).
Definition set_Mnemonic (v : string) (i : Instruction) : Instruction :=
  mkInstruction (Address i) (Bytes i) v (Operands i) (Size i) (Category i)
    (RegsRead i) (RegsWritten i) (HasMemoryAccess i) (MemoryBase i)
    (MemoryIndex i) (MemoryDisp i) (MemoryScale i) (IsConditional i)
    (IsBranch i) (BranchTarget i) (FallsThrough i).
Definition set_Operands (v : string) (i : Instruction) : Instruction :=
  mkInstruction (Address i) (Bytes i) (Mnemonic i) v (Size i) (Category i)
    (RegsRead i) (RegsWritten i) (HasMemoryAccess i) (MemoryBase i)
    (MemoryIndex i) (MemoryDisp i) (MemoryScale i) (IsConditional i)
    (IsBranch i) (BranchTarget i) (FallsThrough i).
Definition set_Size (v : Z) (i : Instruction) : Instruction :=
  mkInstruction (Address i) (Bytes i) (Mnemonic i) (Operands i) v (Category i)
    (RegsRead i) (RegsWritten i) (HasMemoryAccess i) (MemoryBase i)
    (MemoryIndex i) (MemoryDisp i) (MemoryScale i) (IsConditional i)
    (IsBranch i) (BranchTarget i) (FallsThrough i).
Definition set_Category (v : InstructionCategory) (i : Instruction) : Instruction :=
  mkInstruction (Address i) (Bytes i) (Mnemonic i) (Operands i) (Size i) v
    (RegsRead i) (RegsWritten i) (HasMemoryAccess i) (MemoryBase i)
    (MemoryIndex i) (MemoryDisp i) (MemoryScale i) (IsConditional i)
    (IsBranch i) (BranchTarget i) (FallsThrough i).
Definition set_RegsRead (v : list string) (i : Instruction) : Instruction :=
  mkInstruction (Address i) (Bytes i) (Mnemonic i) (Operands i) (Size i)
    (Category i) v (RegsWritten i) (HasMemoryAccess i) (MemoryBase i)
    (MemoryIndex i) (MemoryDisp i) (MemoryScale i) (IsConditional i)
    (IsBranch i) (BranchTarget i) (FallsThrough i).
Definition set_RegsWritten (v : list string) (i : Instruction) : Instruction :=
  mkInstruction (Address i) (Bytes i) (Mnemonic i) (Operands i) (Size i)
    (Category i) (RegsRead i) v (HasMemoryAccess i) (MemoryBase i)
    (MemoryIndex i) (MemoryDisp i) (MemoryScale i) (IsConditional i)
    (IsBranch i) (BranchTarget i) (FallsThrough i).
Definition set_IsConditional (v : bool) (i : Instruction) : Instruction :=
  mkInstruction (Address i) (Bytes i) (Mnemonic i) (Operands i) (Size i)
    (Category i) (RegsRead i) (RegsWritten i) (HasMemoryAccess i)
    (MemoryBase i) (MemoryIndex i) (MemoryDisp i) (MemoryScale i) v
    (IsBranch i) (BranchTarget i) (FallsThrough i).
Definition set_IsBranch (v : bool) (i : Instruction) : Instruction :=
  mkInstruction (Address i) (Bytes i) (Mnemonic i) (Operands i) (Size i)
    (Category i) (RegsRead i) (RegsWritten i) (HasMemoryAccess i)
    (MemoryBase i) (MemoryIndex i) (MemoryDisp i) (MemoryScale i)
    (IsConditional i) v (BranchTarget i) (FallsThrough i).
Definition set_BranchTarget (v : Z) (i : Instruction) : Instruction :=
  mkInstruction (Address i) (Bytes i) (Mnemonic i) (Operands i) (Size i)
    (Category i) (RegsRead i) (RegsWritten i) (HasMemoryAccess i)
    (MemoryBase i) (MemoryIndex i) (MemoryDisp i) (MemoryScale i)
    (IsConditional i) (IsBranch i) v (FallsThrough i).
Definition set_FallsThrough (v : bool) (i : Instruction) : Instruction :=
  mkInstruction (Address i) (Bytes i) (Mnemonic i) (Operands i) (Size i)
    (Category i) (RegsRead i) (RegsWritten i) (HasMemoryAccess i)
    (MemoryBase i) (MemoryIndex i) (MemoryDisp i) (MemoryScale i)
    (IsConditional i) (IsBranch i) (BranchTarget i) v.

Definition IsControlFlow (i : Instruction) : bool :=
  bool_decide (Category i = CatCall) || bool_decide (Category i = CatReturn)
  || bool_decide (Category i = CatJump).

Definition IsTerminator (i : Instruction) : bool :=
  bool_decide (Category i = CatReturn) || bool_decide (Category i = CatJump)
  || bool_decide (Category i = CatCall).

(** *** Register names, ModR/M and condition codes (patterns.go) *)

Definition regName8 (n : Z) : string :=
  let regs := ["al"; "cl"; "dl"; "bl"; "ah"; "ch"; "dh"; "bh"] in
  if n <? len regs then default EmptyString (regs !! Z.to_nat n)
  else "r" +:+ dec n +:+ "b".

Definition regName64 (n : Z) (is64 : bool) : string :=
  if is64 then
    let regs := ["rax"; "rcx"; "rdx"; "rbx"; "rsp"; "rbp"; "rsi"; "rdi"] in
    if n <? len regs then default EmptyString (regs !! Z.to_nat n)
    else "r" +:+ dec n
  else
    let regs := ["eax"; "ecx"; "edx"; "ebx"; "esp"; "ebp"; "esi"; "edi"] in
    if n <? len regs then default EmptyString (regs !! Z.to_nat n)
    else "r" +:+ dec n +:+ "d".

(** The three fields of a ModR/M byte. *)
Definition modrm_mod (modrm : byte) : Z := Z.land (Z.shiftr (byteZ modrm) 6) 3.
Definition modrm_reg (modrm : byte) : Z := Z.land (Z.shiftr (byteZ modrm) 3) 7.
Definition modrm_rm (modrm : byte) : Z := Z.land (byteZ modrm) 7.

(** [decodeModRMDetailed]: the operand strings [(rm operand, reg operand)].
    With [mod = 1] it reads [data[0]] without a length test. *)
Definition decodeModRMDetailed (modrm : byte) (data : list byte) (is64 : bool)
  : result (string * string) :=
  let regStr := regName64 (modrm_reg modrm) is64 in
  let rmStr := regName64 (modrm_rm modrm) is64 in
  match modrm_mod modrm with
  | 0 => Ok ("[" +:+ rmStr +:+ "]", regStr)
  | 1 =>
      d0 ← idx data 0;
      Ok ("[" +:+ rmStr +:+ "+0x" +:+ hex (byteZ d0) +:+ "]", regStr)
  | 2 =>
      if 4 <=? len data then
        bs ← slice data 0 4;
        Ok ("[" +:+ rmStr +:+ "+0x" +:+ hex (le_uint bs) +:+ "]", regStr)
      else Ok ("[" +:+ rmStr +:+ "+disp32]", regStr)
  | 3 => Ok (rmStr, regStr)
  | _ => Ok ("?", "?")
  end.

Definition jccMnemonic (opcode : Z) : string :=
  let cc := Z.land opcode 15 in
  let mnemonics :=
    ["jo"; "jno"; "jb"; "jae"; "je"; "jne"; "jbe"; "ja";
     "js"; "jns"; "jp"; "jnp"; "jl"; "jge"; "jle"; "jg"] in
  if cc <? len mnemonics then default EmptyString (mnemonics !! Z.to_nat cc)
  else "jcc_" +:+ hex cc.

(** *** The decoder (patterns.go, [EnhancedDecodeInstruction])

    The local variables [inst] and [offset] of the Go function are threaded
    through each arm of the opcode switch; an arm evaluates to the pair
    left when control reaches the end of the switch. *)

Definition DecodeState : Type := Instruction * Z.

(** [inst.Mnemonic = mn; inst.Category = cat]. *)
Definition name_cat (mn : string) (cat : InstructionCategory) (inst : Instruction)
  : Instruction :=
  set_Category cat (set_Mnemonic mn inst).

(** Arms that only name the instruction. *)
Definition arm_plain (mn : string) (cat : InstructionCategory)
    (inst : Instruction) (offset : Z) : result DecodeState :=
  Ok (name_cat mn cat inst, offset).

(** Arms of the two-byte switch that test for one more byte, name the
    instruction and step over that byte. *)
Definition arm_skip1 (mn : string) (cat : InstructionCategory)
    (data : list byte) (inst : Instruction) (offset : Z) : result DecodeState :=
  if len data <=? offset then Fail
  else Ok (name_cat mn cat inst, offset + 1).

(** Arms with a ModR/M byte and two operands: the ModR/M byte is read and
    stepped over, the operands are formatted by [decodeModRMDetailed] from
    [data[offset:]], and [offset] is left just after the ModR/M byte.
    [swap] is the source's choice between ["%s, %s"] of [(dest, src)] and
    of [(src, dest)]. *)
Definition arm_modrm (mn : string) (cat : InstructionCategory) (swap : bool)
    (data : list byte) (rexW : bool) (inst : Instruction) (offset : Z)
  : result DecodeState :=
  if len data <=? offset then Fail
  else
    modrm ← idx data offset;
    let offset := offset + 1 in
    let inst := name_cat mn cat inst in
    tail ← slice_from data offset;
    '(dest, src) ← decodeModRMDetailed modrm tail rexW;
    let ops := if swap then src +:+ ", " +:+ dest else dest +:+ ", " +:+ src in
    Ok (set_Operands ops inst, offset).

(** [opcode&0x02 != 0]. *)
Definition dir_bit (opcode : byte) : bool := Z.testbit (byteZ opcode) 1.

(** Arms with a one-byte immediate printed as [pre 0x%x post]. *)
Definition arm_imm8 (mn : string) (cat : InstructionCategory) (pre post : string)
    (data : list byte) (inst : Instruction) (offset : Z) : result DecodeState :=
  if len data <=? offset then Fail
  else
    b ← idx data offset;
    let inst := set_Mnemonic mn inst in
    let inst := set_Operands (pre +:+ "0x" +:+ hex (byteZ b) +:+ post) inst in
    let inst := set_Category cat inst in
    Ok (inst, offset + 1).

(** Arms with a four-byte little-endian immediate printed as
    [pre 0x%x post]. *)
Definition arm_imm32 (mn : string) (cat : InstructionCategory) (pre post : string)
    (data : list byte) (inst : Instruction) (offset : Z) : result DecodeState :=
  if len data <? offset + 4 then Fail
  else
    bs ← slice data offset (offset + 4);
    let imm := le_uint bs in
    let inst := set_Mnemonic mn inst in
    let inst := set_Operands (pre +:+ "0x" +:+ hex imm +:+ post) inst in
    let inst := set_Category cat inst in
    Ok (inst, offset + 4).

(** Arms with a two-byte immediate ([ret imm16], [retf imm16]). *)
Definition arm_imm16 (mn : string) (cat : InstructionCategory)
    (data : list byte) (inst : Instruction) (offset : Z) : result DecodeState :=
  if len data <? offset + 2 then Fail
  else
    bs ← slice data offset (offset + 2);
    let imm := le_uint bs in
    let inst := set_Mnemonic mn inst in
    let inst := set_Operands ("0x" +:+ hex imm) inst in
    let inst := set_Category cat inst in
    Ok (inst, offset + 2).

(** Far pointer arms ([callf], [jmpf]): [ptr16:32]. *)
Definition arm_far (mn : string) (cat : InstructionCategory)
    (data : list byte) (inst : Instruction) (offset : Z) : result DecodeState :=
  if len data <? offset + 6 then Fail
  else
    bo ← slice data offset (offset + 4);
    bs ← slice data (offset + 4) (offset + 6);
    let offs := le_uint bo in
    let seg := le_uint bs in
    let inst := set_Mnemonic mn inst in
    let inst := set_Operands ("0x" +:+ hex seg +:+ ":0x" +:+ hex offs) inst in
    let inst := set_Category cat inst in
    Ok (inst, offset + 6).

(** x87 arms that print the ModR/M byte as the operand. *)
Definition arm_fpu (mn : string) (data : list byte) (inst : Instruction)
    (offset : Z) : result DecodeState :=
  if len data <=? offset then Fail
  else
    modrm ← idx data offset;
    let offset := offset + 1 in
    let inst := name_cat mn CatOther inst in
    Ok (set_Operands ("0x" +:+ hex02 (byteZ modrm)) inst, offset).

(** Branch targets. [rel8_target] and [rel32_target] are
    [uint64(int64(addr) + int64(offset+n) + int64(rel))]; [loop_target] is
    [addr + uint64(rel) + 2]. *)
Definition rel8_target (addr offset : Z) (b : byte) : Z :=
  uint64 (int64 (int64 (int64 addr + (offset + 1)) + int8 (byteZ b))).
Definition rel32_target (addr offset : Z) (bs : list byte) : Z :=
  uint64 (int64 (int64 (int64 addr + (offset + 4)) + int32 (le_uint bs))).
Definition loop_target (addr : Z) (b : byte) : Z :=
  uint64 (uint64 (addr + uint64 (int8 (byteZ b))) + 2).

(** The loop family [0xE0]-[0xE2]. *)
Definition arm_loop (mn : string) (data : list byte) (addr : Z)
    (inst : Instruction) (offset : Z) : result DecodeState :=
  if len data <=? offset then Fail
  else
    b ← idx data offset;
    let target := loop_target addr b in
    let inst := set_Mnemonic mn inst in
    let inst := set_Operands ("0x" +:+ hex target) inst in
    let inst := set_Category CatJump inst in
    let inst := set_IsBranch true inst in
    let inst := set_BranchTarget target inst in
    Ok (inst, offset + 1).

(** The switch on the second byte after [0x0F]. *)
Definition decode_two_byte (opcode2 : byte) (data : list byte) (addr : Z)
    (rexW : bool) (inst : Instruction) (offset : Z) : result DecodeState :=
  match opcode2 with
  | x80 | x81 | x82 | x83 | x84 | x85 | x86 | x87
  | x88 | x89 | x8a | x8b | x8c | x8d | x8e | x8f =>
      if len data <? offset + 4 then Fail
      else
        bs ← slice data offset (offset + 4);
        let target := rel32_target addr offset bs in
        let inst := set_Mnemonic (jccMnemonic (uint8 (byteZ opcode2 - 16))) inst in
        let inst := set_Operands ("0x" +:+ hex target) inst in
        let inst := set_Category CatJump inst in
        let inst := set_IsConditional true inst in
        let inst := set_IsBranch true inst in
        let inst := set_BranchTarget target inst in
        let inst := set_FallsThrough true inst in
        Ok (inst, offset + 4)
  | x90 | x91 | x92 | x93 | x94 | x95 | x96 | x97
  | x98 | x99 | x9a | x9b | x9c | x9d | x9e | x9f =>
      if len data <=? offset then Fail
      else
        let mn := "set" +:+ str_from 1 (jccMnemonic (uint8 (byteZ opcode2 - 144))) in
        let inst := set_Mnemonic mn inst in
        let inst := set_Category CatDataTransfer inst in
        Ok (inst, offset + 1)
  | x40 | x41 | x42 | x43 | x44 | x45 | x46 | x47
  | x48 | x49 | x4a | x4b | x4c | x4d | x4e | x4f =>
      if len data <=? offset then Fail
      else
        let mn := "cmov" +:+ str_from 1 (jccMnemonic (uint8 (byteZ opcode2 - 64))) in
        let inst := set_Mnemonic mn inst in
        let inst := set_Category CatDataTransfer inst in
        Ok (inst, offset + 1)
  | xb6 | xb7 => arm_skip1 "movzx" CatDataTransfer data inst offset
  | xbe | xbf => arm_skip1 "movsx" CatDataTransfer data inst offset
  | xbc => arm_skip1 "bsf" CatLogical data inst offset
  | xbd => arm_skip1 "bsr" CatLogical data inst offset
  | xa3 => arm_plain "bt" CatLogical inst offset
  | xab => arm_plain "bts" CatLogical inst offset
  | xb3 => arm_plain "btr" CatLogical inst offset
  | xbb => arm_plain "btc" CatLogical inst offset
  | xaf => arm_skip1 "imul" CatArithmetic data inst offset
  | xc0 | xc1 => arm_skip1 "xadd" CatArithmetic data inst offset
  | xb0 | xb1 => arm_skip1 "cmpxchg" CatArithmetic data inst offset
  | xc8 | xc9 | xca | xcb | xcc | xcd | xce | xcf =>
      let inst := set_Mnemonic "bswap" inst in
      let inst := set_Operands (regName64 (uint8 (byteZ opcode2 - 200)) rexW) inst in
      let inst := set_Category CatDataTransfer inst in
      Ok (inst, offset)
  | x6e | x7e => arm_skip1 "movd" CatDataTransfer data inst offset
  | x10 | x11 => arm_skip1 "movups" CatDataTransfer data inst offset
  | x28 | x29 => arm_skip1 "movaps" CatDataTransfer data inst offset
  | x57 => arm_skip1 "xorps" CatLogical data inst offset
  | x58 => arm_skip1 "addps" CatArithmetic data inst offset
  | x59 => arm_skip1 "mulps" CatArithmetic data inst offset
  | x5c => arm_skip1 "subps" CatArithmetic data inst offset
  | x5d => arm_skip1 "minps" CatArithmetic data inst offset
  | x5e => arm_skip1 "divps" CatArithmetic data inst offset
  | x5f => arm_skip1 "maxps" CatArithmetic data inst offset
  | x74 | x75 | x76 => arm_skip1 "pcmpeq" CatCompare data inst offset
  | xc3 => arm_skip1 "movnti" CatDataTransfer data inst offset
  | x18 => arm_skip1 "prefetch" CatOther data inst offset
  | x0b => arm_plain "ud2" CatInterrupt inst offset
  | xae =>
      if len data <=? offset then Fail
      else
        modrm ← idx data offset;
        let mn :=
          match modrm_reg modrm with
          | 5 => "lfence"
          | 6 => "mfence"
          | 7 => "sfence"
          | _ => "0f_ae"
          end in
        Ok (name_cat mn CatOther inst, offset + 1)
  | x1f | x0d =>
      let inst := name_cat "nop" CatNop inst in
      if offset <? len data then Ok (inst, offset + 1) else Ok (inst, offset)
  | _ =>
      Ok (name_cat ("0f_" +:+ hex02 (byteZ opcode2)) CatUnknown inst, offset)
  end.

(** Group 1 ([0x80]-[0x83]): the operation is chosen by the ModR/M [reg]
    field, the category by comparing the chosen mnemonic. *)
Definition group1_mnemonic (reg : Z) : string :=
  match reg with
  | 0 => "add"
  | 1 => "or"
  | 2 => "adc"
  | 3 => "sbb"
  | 4 => "and"
  | 5 => "sub"
  | 6 => "xor"
  | 7 => "cmp"
  | _ => EmptyString
  end.

Definition group1_category (mnemonic : string) : InstructionCategory :=
  if String.eqb mnemonic "cmp" then CatCompare
  else if String.eqb mnemonic "and" || String.eqb mnemonic "or"
          || String.eqb mnemonic "xor" then CatLogical
  else CatArithmetic.

Definition arm_group1 (opcode : byte) (data : list byte) (rexW : bool)
    (inst : Instruction) (offset : Z) : result DecodeState :=
  if len data <=? offset then Fail
  else
    modrm ← idx data offset;
    let offset := offset + 1 in
    let mnemonic := group1_mnemonic (modrm_reg modrm) in
    let inst := set_Mnemonic mnemonic inst in
    let inst := set_Category (group1_category mnemonic) inst in
    tail ← slice_from data offset;
    '(dest, _) ← decodeModRMDetailed modrm tail rexW;
    '(imm, offset) ←
      match opcode with
      | x80 | x82 =>
          if len data <=? offset then Fail
          else b ← idx data offset; Ok (uint32 (byteZ b), offset + 1)
      | x83 =>
          if len data <=? offset then Fail
          else b ← idx data offset; Ok (uint32 (int8 (byteZ b)), offset + 1)
      | _ =>
          if len data <? offset + 4 then Fail
          else bs ← slice data offset (offset + 4); Ok (le_uint bs, offset + 4)
      end;
    Ok (set_Operands (dest +:+ ", 0x" +:+ hex imm) inst, offset).

(** Arms with a ModR/M byte whose only printed operand is the r/m one. *)
Definition arm_modrm_dest (mn : string) (cat : InstructionCategory)
    (modrm : byte) (data : list byte) (rexW : bool) (inst : Instruction)
    (offset : Z) : result DecodeState :=
  let inst := name_cat mn cat inst in
  tail ← slice_from data offset;
  '(dest, _) ← decodeModRMDetailed modrm tail rexW;
  Ok (set_Operands dest inst, offset).

(** Arms that name the instruction and give it fixed operands. *)
Definition arm_fixed (mn ops : string) (cat : InstructionCategory)
    (inst : Instruction) (offset : Z) : result DecodeState :=
  let inst := set_Mnemonic mn inst in
  let inst := set_Operands ops inst in
  Ok (set_Category cat inst, offset).

(** [0xC6]/[0xC7] and [0x69]/[0x6B]: a ModR/M byte followed by an immediate
    of [n] bytes read at the offset just after the ModR/M byte. [fmt] builds
    the operand string from the two ModR/M operands and the immediate. *)
Definition arm_modrm_imm (mn : string) (cat : InstructionCategory) (n : Z)
    (imm_of : list byte -> Z) (fmt : string -> string -> Z -> string)
    (data : list byte) (rexW : bool) (inst : Instruction) (offset : Z)
  : result DecodeState :=
  if len data <=? offset then Fail
  else
    modrm ← idx data offset;
    let offset := offset + 1 in
    let inst := name_cat mn cat inst in
    tail ← slice_from data offset;
    '(dest, src) ← decodeModRMDetailed modrm tail rexW;
    if len data <? offset + n then Fail
    else
      bs ← slice data offset (offset + n);
      let imm := imm_of bs in
      Ok (set_Operands (fmt dest src imm) inst, offset + n).

(** [0xC4]/[0xC5]: a VEX prefix when the next byte is [>= 0xC0] ([skip]
    bytes are stepped over without a length test), [les]/[lds] otherwise, and
    a bare name when nothing follows the opcode. *)
Definition arm_vex (bare vex : string) (skip : Z) (legacy : string)
    (data : list byte) (rexW : bool) (inst : Instruction) (offset : Z)
  : result DecodeState :=
  if len data <=? offset then Ok (name_cat bare CatOther inst, offset)
  else
    b ← idx data offset;
    if 192 <=? byteZ b then Ok (name_cat vex CatOther inst, offset + skip)
    else
      modrm ← idx data offset;
      let offset := offset + 1 in
      let inst := name_cat legacy CatDataTransfer inst in
      tail ← slice_from data offset;
      '(dest, src) ← decodeModRMDetailed modrm tail rexW;
      Ok (set_Operands (dest +:+ ", " +:+ src) inst, offset).

Definition sregs : list string :=
  ["es"; "cs"; "ss"; "ds"; "fs"; "gs"; "seg6"; "seg7"].

(** The switch on the opcode byte. [offset] is already past the opcode. *)
Definition decode_opcode (opcode : byte) (data : list byte) (addr : Z)
    (is64bit rexW : bool) (inst : Instruction) (offset : Z) : result DecodeState :=
  match opcode with
  | x50 | x51 | x52 | x53 | x54 | x55 | x56 | x57 =>
      let inst := set_Mnemonic "push" inst in
      let inst := set_Operands (regName64 (uint8 (byteZ opcode - 80)) rexW) inst in
      let inst := set_Category CatStack inst in
      Ok (set_RegsRead [Operands inst] inst, offset)
  | x58 | x59 | x5a | x5b | x5c | x5d | x5e | x5f =>
      let inst := set_Mnemonic "pop" inst in
      let inst := set_Operands (regName64 (uint8 (byteZ opcode - 88)) rexW) inst in
      let inst := set_Category CatStack inst in
      Ok (set_RegsWritten [Operands inst] inst, offset)
  | x88 | x89 | x8a | x8b =>
      if len data <=? offset then Fail
      else
        modrm ← idx data offset;
        let offset := offset + 1 in
        let inst := set_Mnemonic "mov" inst in
        let inst := set_Category CatDataTransfer inst in
        tail ← slice_from data offset;
        '(dest, src) ← decodeModRMDetailed modrm tail rexW;
        if dir_bit opcode
        then Ok (set_Operands (src +:+ ", " +:+ dest) inst, offset)
        else Ok (set_Operands (dest +:+ ", " +:+ src) inst, offset)
  | xb0 | xb1 | xb2 | xb3 | xb4 | xb5 | xb6 | xb7 =>
      arm_imm8 "mov" CatDataTransfer
        (regName8 (uint8 (byteZ opcode - 176)) +:+ ", ") EmptyString
        data inst offset
  | xb8 | xb9 | xba | xbb | xbc | xbd | xbe | xbf =>
      arm_imm32 "mov" CatDataTransfer
        (regName64 (uint8 (byteZ opcode - 184)) rexW +:+ ", ") EmptyString
        data inst offset
  | x01 | x03 => arm_modrm "add" CatArithmetic (dir_bit opcode) data rexW inst offset
  | x29 | x2b => arm_modrm "sub" CatArithmetic (dir_bit opcode) data rexW inst offset
  | x21 | x23 => arm_modrm "and" CatLogical (dir_bit opcode) data rexW inst offset
  | x09 | x0b => arm_modrm "or" CatLogical (dir_bit opcode) data rexW inst offset
  | x31 | x33 => arm_modrm "xor" CatLogical (dir_bit opcode) data rexW inst offset
  | x39 | x3b => arm_modrm "cmp" CatCompare (dir_bit opcode) data rexW inst offset
  | x85 => arm_modrm "test" CatCompare false data rexW inst offset
  | xe9 =>
      if len data <? offset + 4 then Fail
      else
        bs ← slice data offset (offset + 4);
        let target := rel32_target addr offset bs in
        let inst := set_Mnemonic "jmp" inst in
        let inst := set_Operands ("0x" +:+ hex target) inst in
        let inst := set_Category CatJump inst in
        let inst := set_IsBranch true inst in
        let inst := set_BranchTarget target inst in
        Ok (inst, offset + 4)
  | xeb =>
      if len data <=? offset then Fail
      else
        b ← idx data offset;
        let target := rel8_target addr offset b in
        let inst := set_Mnemonic "jmp" inst in
        let inst := set_Operands ("0x" +:+ hex target) inst in
        let inst := set_Category CatJump inst in
        let inst := set_IsBranch true inst in
        let inst := set_BranchTarget target inst in
        Ok (inst, offset + 1)
  | x70 | x71 | x72 | x73 | x74 | x75 | x76 | x77
  | x78 | x79 | x7a | x7b | x7c | x7d | x7e | x7f =>
      if len data <=? offset then Fail
      else
        b ← idx data offset;
        let target := rel8_target addr offset b in
        let inst := set_Mnemonic (jccMnemonic (byteZ opcode)) inst in
        let inst := set_Operands ("0x" +:+ hex target) inst in
        let inst := set_Category CatJump inst in
        let inst := set_IsConditional true inst in
        let inst := set_IsBranch true inst in
        let inst := set_BranchTarget target inst in
        let inst := set_FallsThrough true inst in
        Ok (inst, offset + 1)
  | x0f =>
      if len data <=? offset then Fail
      else
        opcode2 ← idx data offset;
        decode_two_byte opcode2 data addr rexW inst (offset + 1)
  | xe8 =>
      if len data <? offset + 4 then Fail
      else
        bs ← slice data offset (offset + 4);
        let target := rel32_target addr offset bs in
        let inst := set_Mnemonic "call" inst in
        let inst := set_Operands ("0x" +:+ hex target) inst in
        let inst := set_Category CatCall inst in
        let inst := set_IsBranch true inst in
        let inst := set_BranchTarget target inst in
        let inst := set_FallsThrough true inst in
        Ok (inst, offset + 4)
  | xff =>
      if len data <=? offset then Fail
      else
        modrm ← idx data offset;
        let offset := offset + 1 in
        match modrm_reg modrm with
        | 0 => Ok (name_cat "inc" CatArithmetic inst, offset)
        | 1 => Ok (name_cat "dec" CatArithmetic inst, offset)
        | 2 => Ok (set_FallsThrough true (name_cat "call" CatCall inst), offset)
        | 4 => Ok (set_IsBranch true (name_cat "jmp" CatJump inst), offset)
        | _ => Ok (set_Mnemonic "ff_op" inst, offset)
        end
  | xc3 => arm_plain "ret" CatReturn inst offset
  | xc2 => arm_imm16 "ret" CatReturn data inst offset
  | x8d => arm_modrm "lea" CatDataTransfer false data rexW inst offset
  | x90 => arm_plain "nop" CatNop inst offset
  | xa4 => arm_plain "movsb" CatDataTransfer inst offset
  | xa5 => arm_plain "movs" CatDataTransfer inst offset
  | xa6 => arm_plain "cmpsb" CatCompare inst offset
  | xa7 => arm_plain "cmps" CatCompare inst offset
  | xaa => arm_plain "stosb" CatDataTransfer inst offset
  | xab => arm_plain "stos" CatDataTransfer inst offset
  | xac => arm_plain "lodsb" CatDataTransfer inst offset
  | xad => arm_plain "lods" CatDataTransfer inst offset
  | xae => arm_plain "scasb" CatCompare inst offset
  | xaf => arm_plain "scas" CatCompare inst offset
  | x40 | x41 | x42 | x43 | x44 | x45 | x46 | x47 =>
      if negb is64bit then
        let inst := set_Mnemonic "inc" inst in
        let inst := set_Operands (regName64 (uint8 (byteZ opcode - 64)) false) inst in
        Ok (set_Category CatArithmetic inst, offset)
      else Ok (name_cat "rex" CatOther inst, offset)
  | x48 =>
      if negb is64bit then
        let inst := set_Mnemonic "dec" inst in
        let inst := set_Operands "eax" inst in
        Ok (set_Category CatArithmetic inst, offset)
      else Ok (inst, offset)
  | x86 | x87 => arm_modrm "xchg" CatDataTransfer false data rexW inst offset
  | x91 | x92 | x93 | x94 | x95 | x96 | x97 =>
      let inst := set_Mnemonic "xchg" inst in
      let ops := regName64 0 rexW +:+ ", "
                 +:+ regName64 (uint8 (byteZ opcode - 144)) rexW in
      Ok (set_Category CatDataTransfer (set_Operands ops inst), offset)
  | x9e => arm_plain "sahf" CatDataTransfer inst offset
  | x9f => arm_plain "lahf" CatDataTransfer inst offset
  | x98 => arm_plain (if rexW then "cdqe" else "cwde") CatDataTransfer inst offset
  | x99 => arm_plain (if rexW then "cqo" else "cdq") CatDataTransfer inst offset
  | xc0 | xc1 | xd0 | xd1 | xd2 | xd3 =>
      if len data <=? offset then Fail
      else
        modrm ← idx data offset;
        let offset := offset + 1 in
        let mn :=
          match modrm_reg modrm with
          | 0 => "rol"
          | 1 => "ror"
          | 2 => "rcl"
          | 3 => "rcr"
          | 4 => "shl"
          | 5 => "shr"
          | 7 => "sar"
          | _ => "shift_op"
          end in
        let inst := name_cat mn CatLogical inst in
        match opcode with
        | xc0 | xc1 =>
            if offset <? len data then Ok (inst, offset + 1) else Ok (inst, offset)
        | _ => Ok (inst, offset)
        end
  | xf6 | xf7 =>
      if len data <=? offset then Fail
      else
        modrm ← idx data offset;
        let offset := offset + 1 in
        match modrm_reg modrm with
        | 0 | 1 =>
            let inst := name_cat "test" CatCompare inst in
            match opcode with
            | xf6 => Ok (inst, offset + 1)
            | _ => Ok (inst, offset + 4)
            end
        | 2 => Ok (name_cat "not" CatLogical inst, offset)
        | 3 => Ok (name_cat "neg" CatArithmetic inst, offset)
        | 4 => Ok (name_cat "mul" CatArithmetic inst, offset)
        | 5 => Ok (name_cat "imul" CatArithmetic inst, offset)
        | 6 => Ok (name_cat "div" CatArithmetic inst, offset)
        | 7 => Ok (name_cat "idiv" CatArithmetic inst, offset)
        | _ => Ok (inst, offset)
        end
  | xc8 =>
      if offset + 2 <? len data
      then Ok (name_cat "enter" CatStack inst, offset + 3)
      else Ok (inst, offset)
  | xc9 => arm_plain "leave" CatStack inst offset
  | xf4 => arm_plain "hlt" CatInterrupt inst offset
  | x9b => arm_plain "wait" CatOther inst offset
  | x9c => arm_plain "pushf" CatStack inst offset
  | x9d => arm_plain "popf" CatStack inst offset
  | xf8 => arm_plain "clc" CatOther inst offset
  | xf9 => arm_plain "stc" CatOther inst offset
  | xfa => arm_plain "cli" CatOther inst offset
  | xfb => arm_plain "sti" CatOther inst offset
  | xfc => arm_plain "cld" CatOther inst offset
  | xfd => arm_plain "std" CatOther inst offset
  | xcc =>
      let inst := set_Mnemonic "int" inst in
      Ok (set_Category CatInterrupt (set_Operands "3" inst), offset)
  | xcd => arm_imm8 "int" CatInterrupt EmptyString EmptyString data inst offset
  | xce => arm_plain "into" CatInterrupt inst offset
  | xcf => arm_plain "iret" CatReturn inst offset
  | x00 => arm_modrm "add" CatArithmetic false data rexW inst offset
  | x02 => arm_modrm "add" CatArithmetic true data rexW inst offset
  | x08 => arm_modrm "or" CatLogical false data rexW inst offset
  | x0a => arm_modrm "or" CatLogical true data rexW inst offset
  | x10 | x11 => arm_modrm "adc" CatArithmetic false data rexW inst offset
  | x12 | x13 => arm_modrm "adc" CatArithmetic true data rexW inst offset
  | x18 | x19 => arm_modrm "sbb" CatArithmetic false data rexW inst offset
  | x1a | x1b => arm_modrm "sbb" CatArithmetic true data rexW inst offset
  | x20 => arm_modrm "and" CatLogical false data rexW inst offset
  | x22 => arm_modrm "and" CatLogical true data rexW inst offset
  | x28 => arm_modrm "sub" CatArithmetic false data rexW inst offset
  | x2a => arm_modrm "sub" CatArithmetic true data rexW inst offset
  | x30 => arm_modrm "xor" CatLogical false data rexW inst offset
  | x32 => arm_modrm "xor" CatLogical true data rexW inst offset
  | x38 => arm_modrm "cmp" CatCompare false data rexW inst offset
  | x3a => arm_modrm "cmp" CatCompare true data rexW inst offset
  | x80 | x81 | x82 | x83 => arm_group1 opcode data rexW inst offset
  | x04 => arm_imm8 "add" CatArithmetic "al, " EmptyString data inst offset
  | x0c => arm_imm8 "or" CatLogical "al, " EmptyString data inst offset
  | x14 => arm_imm8 "adc" CatArithmetic "al, " EmptyString data inst offset
  | x1c => arm_imm8 "sbb" CatArithmetic "al, " EmptyString data inst offset
  | x24 => arm_imm8 "and" CatLogical "al, " EmptyString data inst offset
  | x2c => arm_imm8 "sub" CatArithmetic "al, " EmptyString data inst offset
  | x34 => arm_imm8 "xor" CatLogical "al, " EmptyString data inst offset
  | x3c => arm_imm8 "cmp" CatCompare "al, " EmptyString data inst offset
  | x05 => arm_imm32 "add" CatArithmetic "eax, " EmptyString data inst offset
  | x0d => arm_imm32 "or" CatLogical "eax, " EmptyString data inst offset
  | x25 => arm_imm32 "and" CatLogical "eax, " EmptyString data inst offset
  | x2d => arm_imm32 "sub" CatArithmetic "eax, " EmptyString data inst offset
  | x35 => arm_imm32 "xor" CatLogical "eax, " EmptyString data inst offset
  | x3d => arm_imm32 "cmp" CatCompare "eax, " EmptyString data inst offset
  | x15 => arm_imm32 "adc" CatArithmetic "eax, " EmptyString data inst offset
  | x1d => arm_imm32 "sbb" CatArithmetic "eax, " EmptyString data inst offset
  | x84 => arm_modrm "test" CatCompare false data rexW inst offset
  | xc6 =>
      arm_modrm_imm "mov" CatDataTransfer 1 le_uint
        (fun dest _ imm => dest +:+ ", 0x" +:+ hex imm) data rexW inst offset
  | xc7 =>
      arm_modrm_imm "mov" CatDataTransfer 4 le_uint
        (fun dest _ imm => dest +:+ ", 0x" +:+ hex imm) data rexW inst offset
  | x68 => arm_imm32 "push" CatStack EmptyString EmptyString data inst offset
  | x6a =>
      if len data <=? offset then Fail
      else
        b ← idx data offset;
        let inst := set_Mnemonic "push" inst in
        let inst := set_Operands ("0x" +:+ hex_signed (int8 (byteZ b))) inst in
        Ok (set_Category CatStack inst, offset + 1)
  | x06 => arm_fixed "push" "es" CatStack inst offset
  | x07 => arm_fixed "pop" "es" CatStack inst offset
  | x0e => arm_fixed "push" "cs" CatStack inst offset
  | x16 => arm_fixed "push" "ss" CatStack inst offset
  | x17 => arm_fixed "pop" "ss" CatStack inst offset
  | x1e => arm_fixed "push" "ds" CatStack inst offset
  | x1f => arm_fixed "pop" "ds" CatStack inst offset
  | x69 =>
      arm_modrm_imm "imul" CatArithmetic 4 le_uint
        (fun dest src imm => dest +:+ ", " +:+ src +:+ ", 0x" +:+ hex imm)
        data rexW inst offset
  | x6b =>
      arm_modrm_imm "imul" CatArithmetic 1 (fun bs => int8 (le_uint bs))
        (fun dest src imm => dest +:+ ", " +:+ src +:+ ", 0x" +:+ hex_signed imm)
        data rexW inst offset
  | xfe =>
      if len data <=? offset then Fail
      else
        modrm ← idx data offset;
        let offset := offset + 1 in
        let reg := modrm_reg modrm in
        let mn := if reg =? 0 then "inc" else if reg =? 1 then "dec" else "fe_op" in
        arm_modrm_dest mn CatArithmetic modrm data rexW inst offset
  | xe0 => arm_loop "loopne" data addr inst offset
  | xe1 => arm_loop "loope" data addr inst offset
  | xe2 => arm_loop "loop" data addr inst offset
  | xe3 =>
      if len data <=? offset then Fail
      else
        b ← idx data offset;
        let target := loop_target addr b in
        let inst := set_Mnemonic "jrcxz" inst in
        let inst := set_Operands ("0x" +:+ hex target) inst in
        let inst := set_Category CatJump inst in
        let inst := set_IsConditional true inst in
        let inst := set_IsBranch true inst in
        let inst := set_BranchTarget target inst in
        Ok (inst, offset + 1)
  | x60 => arm_plain "pusha" CatStack inst offset
  | x61 => arm_plain "popa" CatStack inst offset
  | x62 => arm_modrm "bound" CatOther false data rexW inst offset
  | x63 =>
      arm_modrm (if rexW then "movsxd" else "arpl") CatDataTransfer false
        data rexW inst offset
  | x6c => arm_plain "insb" CatOther inst offset
  | x6d => arm_plain "insd" CatOther inst offset
  | x6e => arm_plain "outsb" CatOther inst offset
  | x6f => arm_plain "outsd" CatOther inst offset
  | x8c =>
      if len data <=? offset then Fail
      else
        modrm ← idx data offset;
        let offset := offset + 1 in
        let inst := name_cat "mov" CatDataTransfer inst in
        tail ← slice_from data offset;
        '(dest, _) ← decodeModRMDetailed modrm tail rexW;
        sreg ← idx sregs (modrm_reg modrm);
        Ok (set_Operands (dest +:+ ", " +:+ sreg) inst, offset)
  | x8e =>
      if len data <=? offset then Fail
      else
        modrm ← idx data offset;
        let offset := offset + 1 in
        let inst := name_cat "mov" CatDataTransfer inst in
        tail ← slice_from data offset;
        '(_, src) ← decodeModRMDetailed modrm tail rexW;
        sreg ← idx sregs (modrm_reg modrm);
        Ok (set_Operands (sreg +:+ ", " +:+ src) inst, offset)
  | x8f =>
      if len data <=? offset then Fail
      else
        modrm ← idx data offset;
        arm_modrm_dest "pop" CatStack modrm data rexW inst (offset + 1)
  | xa8 => arm_imm8 "test" CatCompare "al, " EmptyString data inst offset
  | xa9 => arm_imm32 "test" CatCompare "eax, " EmptyString data inst offset
  | xa0 => arm_imm32 "mov" CatDataTransfer "al, [" "]" data inst offset
  | xa1 => arm_imm32 "mov" CatDataTransfer "eax, [" "]" data inst offset
  | xa2 => arm_imm32 "mov" CatDataTransfer "[" "], al" data inst offset
  | xa3 => arm_imm32 "mov" CatDataTransfer "[" "], eax" data inst offset
  | xca => arm_imm16 "retf" CatReturn data inst offset
  | xcb => arm_plain "retf" CatReturn inst offset
  | x27 => arm_plain "daa" CatArithmetic inst offset
  | x2f => arm_plain "das" CatArithmetic inst offset
  | x37 => arm_plain "aaa" CatArithmetic inst offset
  | x3f => arm_plain "aas" CatArithmetic inst offset
  | xd4 => arm_imm8 "aam" CatArithmetic EmptyString EmptyString data inst offset
  | xd5 => arm_imm8 "aad" CatArithmetic EmptyString EmptyString data inst offset
  | xd6 => arm_plain "salc" CatOther inst offset
  | xd7 => arm_plain "xlat" CatDataTransfer inst offset
  | x9a => arm_far "callf" CatCall data inst offset
  | xea => arm_far "jmpf" CatJump data inst offset
  | xe4 => arm_imm8 "in" CatOther "al, " EmptyString data inst offset
  | xe5 => arm_imm8 "in" CatOther "eax, " EmptyString data inst offset
  | xe6 => arm_imm8 "out" CatOther EmptyString ", al" data inst offset
  | xe7 => arm_imm8 "out" CatOther EmptyString ", eax" data inst offset
  | xec => arm_fixed "in" "al, dx" CatOther inst offset
  | xed => arm_fixed "in" "eax, dx" CatOther inst offset
  | xee => arm_fixed "out" "dx, al" CatOther inst offset
  | xef => arm_fixed "out" "dx, eax" CatOther inst offset
  | xf1 => arm_plain "int1" CatInterrupt inst offset
  | xf5 => arm_plain "cmc" CatOther inst offset
  | xc4 => arm_vex "vex_c4" "vex3" 2 "les" data rexW inst offset
  | xc5 => arm_vex "vex_c5" "vex2" 1 "lds" data rexW inst offset
  | xd8 => arm_fpu "fpu_d8" data inst offset
  | xd9 =>
      if len data <=? offset then Fail
      else
        modrm ← idx data offset;
        let offset := offset + 1 in
        '(inst, offset) ←
          (if 192 <=? byteZ modrm then
             match modrm with
             | xe0 => Ok (set_Mnemonic "fchs" inst, offset)
             | xe1 => Ok (set_Mnemonic "fabs" inst, offset)
             | xe4 => Ok (set_Mnemonic "ftst" inst, offset)
             | xe8 => Ok (set_Mnemonic "fld1" inst, offset)
             | xe9 => Ok (set_Mnemonic "fldl2t" inst, offset)
             | xea => Ok (set_Mnemonic "fldl2e" inst, offset)
             | xeb => Ok (set_Mnemonic "fldpi" inst, offset)
             | xec => Ok (set_Mnemonic "fldlg2" inst, offset)
             | xed => Ok (set_Mnemonic "fldln2" inst, offset)
             | xee => Ok (set_Mnemonic "fldz" inst, offset)
             | _ =>
                 let inst := set_Mnemonic "fpu_d9" inst in
                 Ok (set_Operands ("0x" +:+ hex02 (byteZ modrm)) inst, offset)
             end
           else
             let inst := set_Mnemonic "fld" inst in
             tail ← slice_from data offset;
             '(dest, _) ← decodeModRMDetailed modrm tail rexW;
             Ok (set_Operands dest inst, offset));
        Ok (set_Category CatOther inst, offset)
  | xda => arm_fpu "fpu_da" data inst offset
  | xdb =>
      if len data <=? offset then Fail
      else
        modrm ← idx data offset;
        let offset := offset + 1 in
        let inst :=
          match modrm with
          | xe3 => set_Mnemonic "fninit" inst
          | _ => set_Operands ("0x" +:+ hex02 (byteZ modrm))
                   (set_Mnemonic "fpu_db" inst)
          end in
        Ok (set_Category CatOther inst, offset)
  | xdc => arm_fpu "fpu_dc" data inst offset
  | xdd => arm_fpu "fpu_dd" data inst offset
  | xde => arm_fpu "fpu_de" data inst offset
  | xdf =>
      if len data <=? offset then Fail
      else
        modrm ← idx data offset;
        let offset := offset + 1 in
        let inst :=
          match modrm with
          | xe0 => set_Operands "ax" (set_Mnemonic "fnstsw" inst)
          | _ => set_Operands ("0x" +:+ hex02 (byteZ modrm))
                   (set_Mnemonic "fpu_df" inst)
          end in
        Ok (set_Category CatOther inst, offset)
  | _ => Ok (name_cat ("unk_" +:+ hex02 (byteZ opcode)) CatUnknown inst, offset)
  end.

(** The prefix loop. Its guard is [offset < len(data) && offset < 4] and
    every iteration that stays in the loop adds one to [offset], which starts
    at 0: four iterations exhaust it. The result is [(offset, rexW)]. *)
Definition is_legacy_prefix (b : byte) : bool :=
  match b with
  | xf0 | xf2 | xf3 | x2e | x36 | x3e | x26 | x64 | x65 | x66 | x67 => true
  | _ => false
  end.

Definition is_rex (is64bit : bool) (b : byte) : bool :=
  is64bit && (64 <=? byteZ b) && (byteZ b <=? 79).

Fixpoint prefix_loop (iterations : nat) (data : list byte) (is64bit : bool)
    (offset : Z) : Z * bool :=
  match iterations with
  | O => (offset, false)
  | S iterations' =>
      if (offset <? len data) && (offset <? 4) then
        match data !! Z.to_nat offset with
        | Some b =>
            if is_legacy_prefix b
            then prefix_loop iterations' data is64bit (offset + 1)
            else if is_rex is64bit b
                 then (offset + 1, Z.testbit (byteZ b) 3)
                 else (offset, false)
        | None => (offset, false)
        end
      else (offset, false)
  end.

(** What a call of the decoder does: it returns [(inst, size)] or panics. *)
Inductive Outcome : Type :=
| Returned (inst : Instruction) (size : Z)
| Panicked.

Definition EnhancedDecodeInstruction (data : list byte) (addr : Z)
    (arch : string) : Outcome :=
  if len data =? 0 then Returned zero_Instruction 0
  else
    let inst := set_Address addr zero_Instruction in
    let is64bit := String.eqb arch "x86_64" in
    let '(offset, rexW) := prefix_loop 4 data is64bit 0 in
    if len data <=? offset then Returned zero_Instruction 0
    else
      match
        opcode ← idx data offset;
        decode_opcode opcode data addr is64bit rexW inst (offset + 1)
      with
      | Panic => Panicked
      | Fail => Returned zero_Instruction 0
      | Ok (inst, offset) =>
          let inst := set_Size offset inst in
          if (0 <? Size inst) && (Size inst <=? len data) then
            match slice data 0 (Size inst) with
            | Ok bs => Returned (set_Bytes bs inst) (Size inst)
            | _ => Panicked
            end
          else Returned inst (Size inst)
      end.

(** *** The fallback decoder and the section sweep (capstone.go) *)

(** [strings.Contains] and [strings.HasPrefix]. *)
Definition str_contains (s sub : string) : bool :=
  match String.index 0 sub s with
  | Some _ => true
  | None => false
  end.
Definition str_has_prefix (s p : string) : bool := String.prefix p s.

Definition regName (n : Z) (arch : string) : string :=
  if String.eqb arch "x86_64" then
    let regs := ["rax"; "rcx"; "rdx"; "rbx"; "rsp"; "rbp"; "rsi"; "rdi"] in
    if n <? len regs then default EmptyString (regs !! Z.to_nat n)
    else "r" +:+ dec n
  else
    let regs := ["eax"; "ecx"; "edx"; "ebx"; "esp"; "ebp"; "esi"; "edi"] in
    if n <? len regs then default EmptyString (regs !! Z.to_nat n)
    else "r" +:+ dec n.

Definition decodeModRM (modrm : byte) : string :=
  let regStr := regName (modrm_reg modrm) "x86_64" in
  let rmStr := regName (modrm_rm modrm) "x86_64" in
  match modrm_mod modrm with
  | 0 => regStr +:+ ", [" +:+ rmStr +:+ "]"
  | 1 => regStr +:+ ", [" +:+ rmStr +:+ "+disp8]"
  | 2 => regStr +:+ ", [" +:+ rmStr +:+ "+disp32]"
  | 3 => regStr +:+ ", " +:+ rmStr
  | _ => "?"
  end.

(** [inst.Mnemonic = mn; inst.Operands = ops; inst.Size = n;
    inst.Bytes = data[:n]]. *)
Definition simple_inst (mn ops : string) (n : Z) (data : list byte)
    (inst : Instruction) : Instruction * Z :=
  let inst := set_Mnemonic mn inst in
  let inst := set_Operands ops inst in
  let inst := set_Size n inst in
  (set_Bytes (take (Z.to_nat n) data) inst, n).

Definition decodeInstruction (data : list byte) (addr : Z) (arch : string)
  : Instruction * Z :=
  let inst := set_Address addr zero_Instruction in
  match data with
  | [] => (zero_Instruction, 0)
  | x55 :: _ => simple_inst "push" "rbp" 1 data inst
  | x48 :: rest =>
      match rest with
      | [] => (zero_Instruction, 0)
      | x89 :: rest2 | x8b :: rest2 =>
          match rest2 with
          | [] => (zero_Instruction, 0)
          | modrm :: _ => simple_inst "mov" (decodeModRM modrm) 3 data inst
          end
      | b1 :: _ =>
          simple_inst ("rex.w+0x" +:+ hex02 (byteZ b1)) EmptyString 2 data inst
      end
  | x89 :: rest | x8b :: rest =>
      match rest with
      | [] => (zero_Instruction, 0)
      | modrm :: _ => simple_inst "mov" (decodeModRM modrm) 2 data inst
      end
  | xc3 :: _ => simple_inst "ret" EmptyString 1 data inst
  | xe8 :: rest =>
      if len data <? 5 then (zero_Instruction, 0)
      else
        let offset := int32 (le_uint (take 4 rest)) in
        let target := uint64 (uint64 (addr + uint64 offset) + 5) in
        simple_inst "call" ("0x" +:+ hex target) 5 data inst
  | xff :: rest =>
      match rest with
      | [] => (zero_Instruction, 0)
      | modrm :: _ =>
          let reg := modrm_reg modrm in
          let mn := if reg =? 2 then "call"
                    else if reg =? 4 then "jmp" else EmptyString in
          simple_inst mn (decodeModRM modrm) 2 data inst
      end
  | (x50 | x51 | x52 | x53 | x54 | x56 | x57) as b :: _ =>
      simple_inst "push" (regName (uint8 (byteZ b - 80)) arch) 1 data inst
  | (x58 | x59 | x5a | x5b | x5c | x5d | x5e | x5f) as b :: _ =>
      simple_inst "pop" (regName (uint8 (byteZ b - 88)) arch) 1 data inst
  | x90 :: _ => simple_inst "nop" EmptyString 1 data inst
  | b :: _ => simple_inst ("db 0x" +:+ hex02 (byteZ b)) EmptyString 1 data inst
  end.

(** What the sweep does: it returns the instruction list, returns the
    unsupported-architecture error, or panics inside the decoder.
    [SweepFuel] marks a run of the model that was given too few iterations;
    every iteration advances [offset] by at least one, so [length data]
    iterations always suffice. *)
Inductive SweepOutcome : Type :=
| Swept (instructions : list Instruction)
| SweepError
| SweepPanicked
| SweepFuel.

Fixpoint sweep_loop (fuel : nat) (data : list byte) (baseAddr : Z)
    (arch : string) (offset : Z) (acc : list Instruction) : SweepOutcome :=
  if offset <? len data then
    match fuel with
    | O => SweepFuel
    | S fuel' =>
        let rest := drop (Z.to_nat offset) data in
        let a := uint64 (baseAddr + uint64 offset) in
        match EnhancedDecodeInstruction rest a arch with
        | Panicked => SweepPanicked
        | Returned inst size =>
            let '(inst, size) :=
              if size =? 0 then decodeInstruction rest a arch else (inst, size) in
            if size =? 0
            then sweep_loop fuel' data baseAddr arch (offset + 1) acc
            else sweep_loop fuel' data baseAddr arch (offset + size) (acc ++ [inst])
        end
    end
  else Swept acc.

(** [DisassembleSection] on the section's bytes and address. The Capstone
    path of the source always reports an error, so the fallback runs. *)
Definition DisassembleSection (data : list byte) (baseAddr : Z) (arch : string)
  : SweepOutcome :=
  if negb (String.eqb arch "x86_64") && negb (String.eqb arch "x86")
  then SweepError
  else sweep_loop (length data) data baseAddr arch 0 [].

(** *** Function discovery (capstone.go, [FindFunctions]) *)

(** [parser.Symbol]. *)
Record Symbol : Type := mkSymbol {
  SymName : string;
  SymAddress : Z;
  SymSize : Z;
  SymType : string
}.

Record Function : Type := mkFunction {
  Name : string;
  StartAddr : Z;
  EndAddr : Z;
  Instructions : list Instruction;
  Calls : list Z
}.

Definition set_EndAddr (v : Z) (f : Function) : Function :=
  mkFunction (Name f) (StartAddr f) v (Instructions f) (Calls f).
Definition set_Instructions (v : list Instruction) (f : Function) : Function :=
  mkFunction (Name f) (StartAddr f) (EndAddr f) v (Calls f).
Definition set_Calls (v : list Z) (f : Function) : Function :=
  mkFunction (Name f) (StartAddr f) (EndAddr f) (Instructions f) v.

(** The number of leading [nop]s of a list: the counting loop of
    [isPaddingOrData], which breaks at the first other mnemonic. *)
Fixpoint nop_run (l : list Instruction) : Z :=
  match l with
  | [] => 0
  | inst :: rest =>
      if String.eqb (Mnemonic inst) "nop" then 1 + nop_run rest else 0
  end.

Definition isPaddingOrData (instructions : list Instruction) (index : Z) : bool :=
  if len instructions <=? index then false
  else
    match instructions !! Z.to_nat index with
    | None => false
    | Some inst =>
        if String.eqb (Mnemonic inst) "int" && String.eqb (Operands inst) "3"
        then true
        else if String.eqb (Mnemonic inst) "nop" then
          (* i ranges over index+1 .. index+9 *)
          let window := take 9 (drop (Z.to_nat (index + 1)) instructions) in
          let nopCount := 1 + nop_run window in
          5 <? nopCount
        else false
    end.

Definition isPaddingSequence (instructions : list Instruction)
    (start count : Z) : bool :=
  let window := take (Z.to_nat count) (drop (Z.to_nat start) instructions) in
  let paddingCount :=
    len (filter (fun inst => String.eqb (Mnemonic inst) "int"
                             || String.eqb (Mnemonic inst) "nop" = true) window) in
  count / 2 <? paddingCount.

(** [instructions[i-1]] for [i > 0]. *)
Definition prev_inst (instructions : list Instruction) (i : Z) : option Instruction :=
  if 0 <? i then instructions !! Z.to_nat (i - 1) else None.

(** The body of the first pass for index [i]: is [inst] marked a start? *)
Definition isStart (instructions : list Instruction) (symbolAddrs : gset Z)
    (i : Z) (inst : Instruction) : bool :=
  let prev := prev_inst instructions i in
  let r1 := bool_decide (Address inst ∈ symbolAddrs) in
  let r2 :=
    match prev with
    | Some p =>
        String.eqb (Mnemonic p) "ret"
        && (negb (String.eqb (Mnemonic inst) "nop")
            && negb (String.eqb (Mnemonic inst) "int")
            && negb (str_has_prefix (Mnemonic inst) "unk_"))
    | None => false
    end in
  let r3 :=
    String.eqb (Mnemonic inst) "push"
    && (String.eqb (Operands inst) "rbp" || String.eqb (Operands inst) "ebp")
    && ((i + 1 <? len instructions) && negb (isPaddingSequence instructions i 5)) in
  let after_return :=
    (i =? 0)
    || match prev with
       | Some p => bool_decide (Category p = CatReturn)
       | None => false
       end in
  let r4 :=
    String.eqb (Mnemonic inst) "sub" && str_contains (Operands inst) "rsp"
    && after_return in
  let r5 :=
    String.eqb (Mnemonic inst) "mov" && str_contains (Operands inst) "rsp"
    && after_return in
  r1 || r2 || r3 || r4 || r5.

Fixpoint pass1 (instructions rest : list Instruction) (symbolAddrs : gset Z)
    (i : Z) (funcStarts : gset Z) : gset Z :=
  match rest with
  | [] => funcStarts
  | inst :: rest' =>
      let funcStarts :=
        if isPaddingOrData instructions i then funcStarts
        else if isStart instructions symbolAddrs i inst
             then {[Address inst]} ∪ funcStarts
             else funcStarts in
      pass1 instructions rest' symbolAddrs (i + 1) funcStarts
  end.

(** [functions = append(functions, *currentFunc)] under its length test. *)
Definition emit (functions : list Function) (f : Function) : list Function :=
  if 0 <? len (Instructions f) then functions ++ [f] else functions.

(** The body of the second pass for index [i]; the state is the list of
    emitted functions and the function that is open, if any. *)
Definition pass2_body (n : Z) (symbolMap : gmap Z string) (funcStarts : gset Z)
    (i : Z) (inst : Instruction)
    (st : list Function * option Function) : list Function * option Function :=
  let '(functions, currentFunc) := st in
  let '(functions, currentFunc) :=
    if bool_decide (Address inst ∈ funcStarts) then
      let functions :=
        match currentFunc with
        | Some cur => emit functions (set_EndAddr (uint64 (Address inst - 1)) cur)
        | None => functions
        end in
      let name := default EmptyString (symbolMap !! Address inst) in
      let name := if String.eqb name EmptyString
                  then "sub_" +:+ hex (Address inst) else name in
      (functions, Some (mkFunction name (Address inst) 0 [] []))
    else (functions, currentFunc) in
  let '(functions, currentFunc) :=
    match currentFunc with
    | Some cur =>
        let cur := set_Instructions (Instructions cur ++ [inst]) cur in
        let cur := if String.eqb (Mnemonic inst) "call"
                   then set_Calls (Calls cur ++ [Address inst]) cur else cur in
        if String.eqb (Mnemonic inst) "ret"
        then (emit functions (set_EndAddr (Address inst) cur), None)
        else (functions, Some cur)
    | None => (functions, None)
    end in
  match currentFunc with
  | Some cur =>
      if i =? n - 1
      then (emit functions (set_EndAddr (Address inst) cur),
            Some (set_EndAddr (Address inst) cur))
      else (functions, Some cur)
  | None => (functions, None)
  end.

Fixpoint pass2 (n : Z) (rest : list Instruction) (symbolMap : gmap Z string)
    (funcStarts : gset Z) (i : Z) (st : list Function * option Function)
  : list Function :=
  match rest with
  | [] => st.1
  | inst :: rest' =>
      pass2 n rest' symbolMap funcStarts (i + 1)
        (pass2_body n symbolMap funcStarts i inst st)
  end.

(** The two maps built from the symbol table; symbols without a name are
    skipped and a later symbol at the same address overwrites the name. *)
Definition symbol_maps (symbols : list Symbol) : gmap Z string * gset Z :=
  foldl (fun '(symbolMap, symbolAddrs) sym =>
           if String.eqb (SymName sym) EmptyString then (symbolMap, symbolAddrs)
           else (<[SymAddress sym := SymName sym]> symbolMap,
                 {[SymAddress sym]} ∪ symbolAddrs))
        (∅, ∅) symbols.

Definition FindFunctions (instructions : list Instruction)
    (symbols : list Symbol) : list Function :=
  let '(symbolMap, symbolAddrs) := symbol_maps symbols in
  let funcStarts := pass1 instructions instructions symbolAddrs 0 ∅ in
  pass2 (len instructions) instructions symbolMap funcStarts 0 ([], None).

End Disasm.

(** ** Package cfg: basic blocks and the control-flow graph *)

Module Cfg.
Import Disasm.

(** A pointer to a [BasicBlock] is an index into the heap of blocks; [nil] is [None]. *)
Abbreviation ptr := nat.

Record BasicBlock : Type := mkBasicBlock {
  ID : Z;
  BStartAddr : Z;
  BEndAddr : Z;
  BInstructions : list Instruction;
  Successors : list ptr;
  Predecessors : list ptr;
  IsEntry : bool;
  IsExit : bool;
  LoopHeader : option ptr;
  DominatedBy : option ptr
}.

Definition zero_BasicBlock : BasicBlock :=
  mkBasicBlock 0 0 0 [] [] [] false false None None.

Definition set_BEndAddr (v : Z) (b : BasicBlock) : BasicBlock :=
  mkBasicBlock (ID b) (BStartAddr b) v (BInstructions b) (Successors b)
    (Predecessors b) (IsEntry b) (IsExit b) (LoopHeader b) (DominatedBy b).
Definition set_BInstructions (v : list Instruction) (b : BasicBlock) : BasicBlock :=
  mkBasicBlock (ID b) (BStartAddr b) (BEndAddr b) v (Successors b)
    (Predecessors b) (IsEntry b) (IsExit b) (LoopHeader b) (DominatedBy b).
Definition set_Successors (v : list ptr) (b : BasicBlock) : BasicBlock :=
  mkBasicBlock (ID b) (BStartAddr b) (BEndAddr b) (BInstructions b) v
    (Predecessors b) (IsEntry b) (IsExit b) (LoopHeader b) (DominatedBy b).
Definition set_Predecessors (v : list ptr) (b : BasicBlock) : BasicBlock :=
  mkBasicBlock (ID b) (BStartAddr b) (BEndAddr b) (BInstructions b)
    (Successors b) v (IsEntry b) (IsExit b) (LoopHeader b) (DominatedBy b).
Definition set_IsEntry (v : bool) (b : BasicBlock) : BasicBlock :=
  mkBasicBlock (ID b) (BStartAddr b) (BEndAddr b) (BInstructions b)
    (Successors b) (Predecessors b) v (IsExit b) (LoopHeader b) (DominatedBy b).
Definition set_IsExit (v : bool) (b : BasicBlock) : BasicBlock :=
  mkBasicBlock (ID b) (BStartAddr b) (BEndAddr b) (BInstructions b)
    (Successors b) (Predecessors b) (IsEntry b) v (LoopHeader b) (DominatedBy b).
Definition set_LoopHeader (v : option ptr) (b : BasicBlock) : BasicBlock :=
  mkBasicBlock (ID b) (BStartAddr b) (BEndAddr b) (BInstructions b)
    (Successors b) (Predecessors b) (IsEntry b) (IsExit b) v (DominatedBy b).
Definition set_DominatedBy (v : option ptr) (b : BasicBlock) : BasicBlock :=
  mkBasicBlock (ID b) (BStartAddr b) (BEndAddr b) (BInstructions b)
    (Successors b) (Predecessors b) (IsEntry b) (IsExit b) (LoopHeader b) v.

(** The heap of blocks. Every pointer the builder follows was obtained from
    the block list, so [deref] never meets a dangling one. *)
Abbreviation Heap := (list BasicBlock).
Definition deref (h : Heap) (p : ptr) : BasicBlock :=
  default zero_BasicBlock (h !! p).
(** Writing through a pointer: the block at [p] becomes [f] of itself. *)
Definition update (h : Heap) (p : ptr) (f : BasicBlock -> BasicBlock) : Heap :=
  <[p := f (deref h p)]> h.

Record ControlFlowGraph : Type := mkCFG {
  heap : Heap;
  Blocks : list ptr;
  EntryBlock : option ptr;
  ExitBlocks : list ptr;
  CfgFunction : Function;
  BlockMap : gmap Z ptr
}.

(** [bb.AddSuccessor(succ)]. The predecessor list of [succ] is read after
    the successor list of [bb] is written: the two are the same block
    when [bb == succ]. *)
Definition AddSuccessor (h : Heap) (bb succ : ptr) : Heap :=
  if bool_decide (succ ∈ Successors (deref h bb)) then h
  else
    let h := update h bb (fun b => set_Successors (Successors b ++ [succ]) b) in
    if bool_decide (bb ∈ Predecessors (deref h succ)) then h
    else update h succ (fun b => set_Predecessors (Predecessors b ++ [bb]) b).

Definition GetLastInstruction (b : BasicBlock) : option Instruction :=
  last (BInstructions b).

Definition EndsWithReturn (b : BasicBlock) : bool :=
  match GetLastInstruction b with
  | None => false
  | Some i => bool_decide (Category i = CatReturn)
  end.

(** [identifyLeaders]: the set of addresses mapped to [true]. *)
Fixpoint leaders_loop (all rest : list Instruction) (i : Z) (leaders : gset Z)
  : gset Z :=
  match rest with
  | [] => leaders
  | inst :: rest' =>
      let leaders :=
        if IsBranch inst && negb (BranchTarget inst =? 0)
        then {[BranchTarget inst]} ∪ leaders else leaders in
      let leaders :=
        if IsControlFlow inst && (i + 1 <? len all) then
          if FallsThrough inst || bool_decide (Category inst = CatCall) then
            match all !! Z.to_nat (i + 1) with
            | Some next => {[Address next]} ∪ leaders
            | None => leaders
            end
          else leaders
        else leaders in
      leaders_loop all rest' (i + 1) leaders
  end.

Definition identifyLeaders (fn : Function) : gset Z :=
  match Instructions fn with
  | [] => ∅
  | first :: _ =>
      leaders_loop (Instructions fn) (Instructions fn) 0 {[Address first]}
  end.

(** [createBasicBlocks]. The state of the loop is the list of finished
    blocks, the block under construction and the next block id. A block is
    never written after it has been appended, so the list of block values
    in append order is the heap and the position of a block is its pointer. *)
Definition create_body (all : list Instruction) (leaders : gset Z) (i : Z)
    (inst : Instruction) (st : list BasicBlock * option BasicBlock * Z)
  : list BasicBlock * option BasicBlock * Z :=
  let '(blocks, currentBlock, blockID) := st in
  let '(blocks, currentBlock, blockID) :=
    if bool_decide (Address inst ∈ leaders) then
      let blocks :=
        match currentBlock with
        | Some cur => blocks ++ [cur]
        | None => blocks
        end in
      (blocks,
       Some (mkBasicBlock blockID (Address inst) 0 [] [] [] false false None None),
       blockID + 1)
    else (blocks, currentBlock, blockID) in
  match currentBlock with
  | Some cur =>
      let cur := set_BInstructions (BInstructions cur ++ [inst]) cur in
      let cur := set_BEndAddr (Address inst) cur in
      if IsTerminator inst && (i + 1 <? len all) then
        match all !! Z.to_nat (i + 1) with
        | Some next =>
            if bool_decide (Address next ∈ leaders)
            then (blocks ++ [cur], None, blockID)
            else (blocks, Some cur, blockID)
        | None => (blocks, Some cur, blockID)
        end
      else (blocks, Some cur, blockID)
  | None => (blocks, None, blockID)
  end.

Fixpoint create_loop (all rest : list Instruction) (leaders : gset Z) (i : Z)
    (st : list BasicBlock * option BasicBlock * Z)
  : list BasicBlock * option BasicBlock * Z :=
  match rest with
  | [] => st
  | inst :: rest' =>
      create_loop all rest' leaders (i + 1) (create_body all leaders i inst st)
  end.

Definition createBasicBlocks (fn : Function) (leaders : gset Z) : list BasicBlock :=
  let '(blocks, currentBlock, _) :=
    create_loop (Instructions fn) (Instructions fn) leaders 0 ([], None, 0) in
  match currentBlock with
  | Some cur => blocks ++ [cur]
  | None => blocks
  end.

(** [connectBlocks]: the body of the loop for the block at position [i]. *)
Definition add_next (n : nat) (h : Heap) (i : nat) : Heap :=
  if (i + 1 <? n)%nat then AddSuccessor h i (i + 1)%nat else h.

Definition add_target (blockMap : gmap Z ptr) (h : Heap) (i : nat)
    (lastInst : Instruction) : Heap :=
  match blockMap !! BranchTarget lastInst with
  | Some target => AddSuccessor h i target
  | None => h
  end.

Definition connect_body (n : nat) (blockMap : gmap Z ptr) (h : Heap) (i : nat)
  : Heap :=
  match GetLastInstruction (deref h i) with
  | None => h
  | Some lastInst =>
      match Category lastInst with
      | CatJump =>
          if IsConditional lastInst
          then add_next n (add_target blockMap h i lastInst) i
          else add_target blockMap h i lastInst
      | CatCall => add_next n h i
      | CatReturn => h
      | _ => add_next n h i
      end
  end.

Definition connectBlocks (blockMap : gmap Z ptr) (h : Heap) : Heap :=
  foldl (connect_body (length h) blockMap) h (seq 0 (length h)).

(** [cfg.BlockMap[block.StartAddr] = block] for every block in order. *)
Definition build_BlockMap (h : Heap) : gmap Z ptr :=
  foldl (fun m i => <[BStartAddr (deref h i) := i]> m) ∅ (seq 0 (length h)).

(** Step 4 of [BuildCFG]: mark and collect the exit blocks. *)
Definition mark_exit_body (st : Heap * list ptr) (i : ptr) : Heap * list ptr :=
  let '(h, exits) := st in
  let b := deref h i in
  if EndsWithReturn b || (len (Successors b) =? 0)
  then (update h i (set_IsExit true), exits ++ [i])
  else (h, exits).

Definition mark_exits (h : Heap) : Heap * list ptr :=
  foldl mark_exit_body (h, []) (seq 0 (length h)).

(** [intersectDominators]. The two inner loops and the outer one of the
    source are run as one loop over the pair of fingers: a step moves the
    finger with the higher id, and the pair with equal ids but different
    blocks is the state in which the outer loop of the source spins. *)
Fixpoint intersectDominators (fuel : nat) (h : Heap) (finger1 finger2 : ptr)
  : option ptr :=
  if bool_decide (finger1 = finger2) then Some finger1
  else
    match fuel with
    | O => None
    | S fuel' =>
        if ID (deref h finger2) <? ID (deref h finger1) then
          match DominatedBy (deref h finger1) with
          | None => Some finger2
          | Some d => intersectDominators fuel' h d finger2
          end
        else if ID (deref h finger1) <? ID (deref h finger2) then
          match DominatedBy (deref h finger2) with
          | None => Some finger1
          | Some d => intersectDominators fuel' h finger1 d
          end
        else intersectDominators fuel' h finger1 finger2
    end.

(** The loop over the predecessors of a block in [computeDominators]; the
    state is [newDom]. *)
Fixpoint newDom_loop (fuel : nat) (h : Heap) (preds : list ptr)
    (newDom : option ptr) : option (option ptr) :=
  match preds with
  | [] => Some newDom
  | pred :: preds' =>
      match DominatedBy (deref h pred) with
      | None => newDom_loop fuel h preds' newDom
      | Some pd =>
          match newDom with
          | None => newDom_loop fuel h preds' (Some pd)
          | Some nd =>
              match intersectDominators fuel h pd nd with
              | None => None
              | Some r => newDom_loop fuel h preds' (Some r)
              end
          end
      end
  end.

(** One sweep over the blocks; the state is the heap and [changed]. *)
Fixpoint dom_sweep (fuel : nat) (entry : ptr) (blocks : list ptr) (h : Heap)
    (changed : bool) : option (Heap * bool) :=
  match blocks with
  | [] => Some (h, changed)
  | block :: blocks' =>
      if bool_decide (block = entry) then dom_sweep fuel entry blocks' h changed
      else
        match newDom_loop fuel h (Predecessors (deref h block)) None with
        | None => None
        | Some newDom =>
            if bool_decide (newDom ≠ None)
               && bool_decide (newDom ≠ DominatedBy (deref h block))
            then dom_sweep fuel entry blocks'
                   (update h block (set_DominatedBy newDom)) true
            else dom_sweep fuel entry blocks' h changed
        end
  end.

(** [for changed && maxIterations > 0]. *)
Fixpoint dom_iterate (fuel : nat) (entry : ptr) (blocks : list ptr)
    (maxIterations : nat) (h : Heap) (changed : bool) : option Heap :=
  if changed then
    match maxIterations with
    | O => Some h
    | S maxIterations' =>
        match dom_sweep fuel entry blocks h false with
        | None => None
        | Some (h, changed) =>
            dom_iterate fuel entry blocks maxIterations' h changed
        end
    end
  else Some h.

Definition computeDominators (fuel : nat) (entry : option ptr)
    (blocks : list ptr) (h : Heap) : option Heap :=
  match entry with
  | None => Some h
  | Some e =>
      if (length blocks =? 0)%nat then Some h
      else
        let h := update h e (set_DominatedBy (Some e)) in
        dom_iterate fuel e blocks (length blocks * length blocks) h true
  end.

(** [BuildCFG]. [fuel] bounds the walks of [intersectDominators] only. *)
Definition BuildCFG (fuel : nat) (fn : Function) : option ControlFlowGraph :=
  match Instructions fn with
  | [] => Some (mkCFG [] [] None [] fn ∅)
  | _ :: _ =>
      let leaders := identifyLeaders fn in
      let h := createBasicBlocks fn leaders in
      let blocks := seq 0 (length h) in
      let blockMap := build_BlockMap h in
      let h := connectBlocks blockMap h in
      let entry := head blocks in
      let h := match entry with
               | Some e => update h e (set_IsEntry true)
               | None => h
               end in
      let '(h, exits) := mark_exits h in
      match computeDominators fuel entry blocks h with
      | None => None
      | Some h => Some (mkCFG h blocks entry exits fn blockMap)
      end
  end.

(** *** Dominance test and loop detection *)

(** [bb.Dominates(target)]: the walk up the [DominatedBy] chain. The model
    returns [None] when [fuel] steps did not end the walk. *)
Fixpoint Dominates_loop (fuel : nat) (h : Heap) (bb : ptr) (current : option ptr)
  : option bool :=
  match current with
  | None => Some false
  | Some c =>
      if bool_decide (c = bb) then Some true
      else
        match fuel with
        | O => None
        | S fuel' => Dominates_loop fuel' h bb (DominatedBy (deref h c))
        end
  end.

Definition Dominates (fuel : nat) (h : Heap) (bb target : ptr) : option bool :=
  Dominates_loop fuel h bb (Some target).

Record BackEdge : Type := mkBackEdge { from : ptr; to : ptr }.

Fixpoint back_edges_of (fuel : nat) (h : Heap) (block : ptr) (succs : list ptr)
    (backEdges : list BackEdge) : option (list BackEdge) :=
  match succs with
  | [] => Some backEdges
  | succ :: succs' =>
      match Dominates fuel h succ block with
      | None => None
      | Some true =>
          back_edges_of fuel h block succs' (backEdges ++ [mkBackEdge block succ])
      | Some false => back_edges_of fuel h block succs' backEdges
      end
  end.

Fixpoint back_edges_loop (fuel : nat) (h : Heap) (blocks : list ptr)
    (backEdges : list BackEdge) : option (list BackEdge) :=
  match blocks with
  | [] => Some backEdges
  | block :: blocks' =>
      match back_edges_of fuel h block (Successors (deref h block)) backEdges with
      | None => None
      | Some backEdges => back_edges_loop fuel h blocks' backEdges
      end
  end.

Definition findBackEdges (fuel : nat) (cfg : ControlFlowGraph)
  : option (list BackEdge) :=
  back_edges_loop fuel (heap cfg) (Blocks cfg) [].

(** A pointer to a [Loop] is its position in the list of loops. *)
Record Loop : Type := mkLoop {
  Header : ptr;
  LBlocks : list ptr;
  Exits : list ptr;
  Parent : option nat;
  Nested : list nat
}.

Definition set_Parent (v : option nat) (l : Loop) : Loop :=
  mkLoop (Header l) (LBlocks l) (Exits l) v (Nested l).
Definition set_Nested (v : list nat) (l : Loop) : Loop :=
  mkLoop (Header l) (LBlocks l) (Exits l) (Parent l) v.

(** The worklist loop of [constructLoop]; the top of the stack is the last
    element of [worklist]. *)
Fixpoint worklist_loop (fuel : nat) (h : Heap) (worklist : list ptr)
    (visited : gset ptr) (blocks : list ptr) : option (list ptr) :=
  match last worklist with
  | None => Some blocks
  | Some block =>
      match fuel with
      | O => None
      | S fuel' =>
          let worklist := take (length worklist - 1) worklist in
          if bool_decide (block ∈ visited)
          then worklist_loop fuel' h worklist visited blocks
          else
            let visited := {[block]} ∪ visited in
            let blocks := blocks ++ [block] in
            let worklist :=
              worklist ++ filter (fun pred => pred ∉ visited)
                                 (Predecessors (deref h block)) in
            worklist_loop fuel' h worklist visited blocks
      end
  end.

Definition constructLoop (fuel : nat) (h : Heap) (tail header : ptr)
  : option Loop :=
  match worklist_loop fuel h [tail] {[header]} [header] with
  | None => None
  | Some blocks =>
      let blockSet : gset ptr := list_to_set blocks in
      let exits :=
        filter (fun block =>
                  existsb (fun succ => bool_decide (succ ∉ blockSet))
                          (Successors (deref h block)) = true) blocks in
      Some (mkLoop header blocks exits None [])
  end.

Definition loopContains (loop1 loop2 : Loop) : bool :=
  let blocks1 : gset ptr := list_to_set (LBlocks loop1) in
  forallb (fun b => bool_decide (b ∈ blocks1)) (LBlocks loop2).

(** [buildLoopHierarchy]: the parents, then the nested lists. *)
Definition parent_body (loops : list Loop) (ij : nat * nat) : list Loop :=
  let '(i, j) := ij in
  if bool_decide (i = j) then loops
  else
    match loops !! i, loops !! j with
    | Some li, Some lj =>
        if loopContains li lj then
          let smaller :=
            match Parent lj with
            | None => true
            | Some p =>
                match loops !! p with
                | Some lp => len (LBlocks li) <? len (LBlocks lp)
                | None => false
                end
            end in
          if smaller then <[j := set_Parent (Some i) lj]> loops else loops
        else loops
    | _, _ => loops
    end.

Definition buildLoopHierarchy (loops : list Loop) : list Loop :=
  let n := length loops in
  let pairs := i ← seq 0 n; j ← seq 0 n; [(i, j)] in
  let loops := foldl parent_body loops pairs in
  foldl (fun loops k =>
           match loops !! k with
           | Some l =>
               match Parent l with
               | Some p =>
                   match loops !! p with
                   | Some lp => <[p := set_Nested (Nested lp ++ [k]) lp]> loops
                   | None => loops
                   end
               | None => loops
               end
           | None => loops
           end)
        loops (seq 0 n).

(** The loop of [DetectLoops] over the back edges; the state is the heap
    (whose blocks get their [LoopHeader]) and the loops found so far. *)
Fixpoint loops_loop (fuel : nat) (edges : list BackEdge) (h : Heap)
    (loops : list Loop) : option (Heap * list Loop) :=
  match edges with
  | [] => Some (h, loops)
  | edge :: edges' =>
      match constructLoop fuel h (from edge) (to edge) with
      | None => None
      | Some loop =>
          let h := foldl (fun h block =>
                            update h block (set_LoopHeader (Some (Header loop))))
                         h (LBlocks loop) in
          loops_loop fuel edges' h (loops ++ [loop])
      end
  end.

Definition DetectLoops (fuel : nat) (cfg : ControlFlowGraph)
  : option (Heap * list Loop) :=
  match findBackEdges fuel cfg with
  | None => None
  | Some backEdges =>
      match loops_loop fuel backEdges (heap cfg) [] with
      | None => None
      | Some (h, loops) => Some (h, buildLoopHierarchy loops)
      end
  end.

End Cfg.

(** ** Package decompiler: the lifter *)

Module Decompiler.
Import Disasm.

(** [strings.Split(s, ",")]. *)
Fixpoint split_comma (s : string) : list string :=
  match s with
  | EmptyString => [EmptyString]
  | String c rest =>
      if Ascii.eqb c ","%char then EmptyString :: split_comma rest
      else match split_comma rest with
           | part :: parts => String c part :: parts
           | [] => [String c EmptyString]
           end
  end.

(** [strings.TrimSpace] removes from both ends of a string, which in Go is
    a sequence of bytes, the UTF-8 encodings of the runes for which
    [unicode.IsSpace] holds. In one byte: U+0009 to U+000D and U+0020. *)
Definition is_space (c : ascii) : bool :=
  let n := nat_of_ascii c in
  (n =? 32)%nat || ((9 <=? n)%nat && (n <=? 13)%nat).

(** In two bytes: U+0085 ([C2 85]) and U+00A0 ([C2 A0]). *)
Definition is_space2 (b0 b1 : ascii) : bool :=
  let n0 := nat_of_ascii b0 in
  let n1 := nat_of_ascii b1 in
  (n0 =? 194)%nat && ((n1 =? 133)%nat || (n1 =? 160)%nat).

(** In three bytes: U+1680 ([E1 9A 80]), U+2000 to U+200A ([E2 80 80] to
    [E2 80 8A]), U+2028, U+2029 and U+202F ([E2 80 A8], [E2 80 A9],
    [E2 80 AF]), U+205F ([E2 81 9F]) and U+3000 ([E3 80 80]). *)
Definition is_space3 (b0 b1 b2 : ascii) : bool :=
  let n0 := nat_of_ascii b0 in
  let n1 := nat_of_ascii b1 in
  let n2 := nat_of_ascii b2 in
  ((n0 =? 225)%nat && (n1 =? 154)%nat && (n2 =? 128)%nat)
  || ((n0 =? 226)%nat && (n1 =? 128)%nat
      && (((128 <=? n2)%nat && (n2 <=? 138)%nat)
          || (n2 =? 168)%nat || (n2 =? 169)%nat || (n2 =? 175)%nat))
  || ((n0 =? 226)%nat && (n1 =? 129)%nat && (n2 =? 159)%nat)
  || ((n0 =? 227)%nat && (n1 =? 128)%nat && (n2 =? 128)%nat).

(** The scan from one end: it steps over white space runes and stops at the
    first byte that does not begin one (a byte of an invalid or incomplete
    encoding decodes to [utf8.RuneError], which is no white space). With
    [back] the string is read from its last byte, so the bytes of a rune
    arrive in reverse order. *)
Fixpoint trim_runes (back : bool) (s : string) : string :=
  match s with
  | EmptyString => EmptyString
  | String c0 s1 =>
      if is_space c0 then trim_runes back s1
      else
        match s1 with
        | EmptyString => s
        | String c1 s2 =>
            if (if back then is_space2 c1 c0 else is_space2 c0 c1)
            then trim_runes back s2
            else
              match s2 with
              | EmptyString => s
              | String c2 s3 =>
                  if (if back then is_space3 c2 c1 c0 else is_space3 c0 c1 c2)
                  then trim_runes back s3
                  else s
              end
        end
  end.

Definition trim_left (s : string) : string := trim_runes false s.

Definition trim_right (s : string) : string :=
  String.rev (trim_runes true (String.rev s)).

Definition TrimSpace (s : string) : string := trim_right (trim_left s).

(** [OpType]; [OpAssign] is the constant [0] of the [iota] block. *)
Inductive OpType : Type :=
| OpAssign
| OpCall
| OpReturn
| OpIf
| OpLoop
| OpCompare
| OpArithmetic
| OpMemoryAccess.

#[global] Instance OpType_eq_dec : EqDecision OpType.
Proof. solve_decision. Defined.

Record Operation : Type := mkOperation {
  Type_ : OpType;
  Dest : string;
  Src1 : string;
  Src2 : string;
  Operator : string;
  OpAddress : Z;
  Comment : string
}.

Record Variable_ : Type := mkVariable {
  VarName : string;
  VarType : string;
  Register : string;
  Offset : Z;
  IsLocal : bool;
  IsParam : bool
}.

Record DecompiledFunction : Type := mkDecompiled {
  DFunction : Function;
  Variables : list Variable_;
  Operations : list Operation;
  LocalVars : Z;
  HasReturn : bool
}.

(** The state of the loop of [Decompile]: the fields of [df] it writes,
    [regMap] and [varCount]. *)
Record LiftState : Type := mkLiftState {
  variables : list Variable_;
  operations : list Operation;
  hasReturn : bool;
  regMap : gmap string string;
  varCount : Z
}.

(** The test at the end of the body: the operation is appended when its
    type is not the constant 0 or its comment is not empty. *)
Definition keep (op : Operation) (st : LiftState) : LiftState :=
  if negb (bool_decide (Type_ op = OpAssign))
     || negb (String.eqb (Comment op) EmptyString)
  then mkLiftState (variables st) (operations st ++ [op]) (hasReturn st)
         (regMap st) (varCount st)
  else st.

Definition is_stack_ref (s : string) : bool :=
  str_contains s "rbp" || str_contains s "rsp".

(** The [mov] arm: the operation and the new state. *)
Definition lift_mov (inst : Instruction) (st : LiftState) : LiftState :=
  let op := mkOperation OpAssign EmptyString EmptyString EmptyString
              EmptyString (Address inst) EmptyString in
  match split_comma (Operands inst) with
  | [p0; p1] =>
      let dest := TrimSpace p0 in
      let src := TrimSpace p1 in
      if is_stack_ref src then
        let varName := "var" +:+ dec (varCount st) in
        let st := mkLiftState
                    (variables st
                     ++ [mkVariable varName EmptyString dest 0 true false])
                    (operations st) (hasReturn st)
                    (<[dest := varName]> (regMap st)) (varCount st + 1) in
        keep (mkOperation OpAssign varName src EmptyString EmptyString
                (Address inst) EmptyString) st
      else if is_stack_ref dest then
        match regMap st !! src with
        | Some varName =>
            keep (mkOperation OpAssign "local" varName EmptyString EmptyString
                    (Address inst) EmptyString) st
        | None => keep op st
        end
      else
        match regMap st !! src with
        | Some srcVar =>
            let st := mkLiftState (variables st) (operations st) (hasReturn st)
                        (<[dest := srcVar]> (regMap st)) (varCount st) in
            keep (mkOperation OpAssign dest srcVar EmptyString EmptyString
                    (Address inst) EmptyString) st
        | None =>
            let varName := "var" +:+ dec (varCount st) in
            let st := mkLiftState (variables st) (operations st) (hasReturn st)
                        (<[dest := varName]> (regMap st)) (varCount st + 1) in
            keep (mkOperation OpAssign varName src EmptyString EmptyString
                    (Address inst) EmptyString) st
        end
  | _ => keep op st
  end.

Definition lift_arith (inst : Instruction) (st : LiftState) : LiftState :=
  match split_comma (Operands inst) with
  | [p0; p1] =>
      let dest := TrimSpace p0 in
      let src := TrimSpace p1 in
      match regMap st !! dest with
      | Some varName =>
          keep (mkOperation OpArithmetic varName varName src (Mnemonic inst)
                  (Address inst) EmptyString) st
      | None =>
          keep (mkOperation OpArithmetic dest dest src (Mnemonic inst)
                  (Address inst) EmptyString) st
      end
  | _ =>
      keep (mkOperation OpArithmetic EmptyString EmptyString EmptyString
              (Mnemonic inst) (Address inst) EmptyString) st
  end.

Definition lift_compare (inst : Instruction) (st : LiftState) : LiftState :=
  match split_comma (Operands inst) with
  | [p0; p1] =>
      keep (mkOperation OpCompare EmptyString (TrimSpace p0) (TrimSpace p1)
              EmptyString (Address inst) EmptyString) st
  | _ =>
      keep (mkOperation OpCompare EmptyString EmptyString EmptyString
              EmptyString (Address inst) EmptyString) st
  end.

(** The body of the loop of [Decompile] for the instruction at index [i]. *)
Definition lift_inst (i : Z) (inst : Instruction) (st : LiftState) : LiftState :=
  let blank c t :=
    mkOperation t EmptyString EmptyString EmptyString EmptyString
      (Address inst) c in
  match Mnemonic inst with
  | "push" =>
      if String.eqb (Operands inst) "rbp" && (i =? 0) then st
      else keep (blank ("save " +:+ Operands inst) OpAssign) st
  | "pop" =>
      if String.eqb (Operands inst) "rbp" then st
      else keep (blank ("restore " +:+ Operands inst) OpAssign) st
  | "mov" => lift_mov inst st
  | "call" =>
      let c := if str_has_prefix (Operands inst) "0x"
               then "call to " +:+ Operands inst else EmptyString in
      keep (mkOperation OpCall "result" (Operands inst) EmptyString EmptyString
              (Address inst) c) st
  | "ret" =>
      let st := mkLiftState (variables st) (operations st) true (regMap st)
                  (varCount st) in
      let src1 := default EmptyString (regMap st !! "rax") in
      keep (mkOperation OpReturn EmptyString src1 EmptyString EmptyString
              (Address inst) EmptyString) st
  | "add" | "sub" | "mul" | "imul" | "div" | "idiv" => lift_arith inst st
  | "cmp" | "test" => lift_compare inst st
  | "jmp" | "je" | "jne" | "jg" | "jge" | "jl" | "jle" | "ja" | "jb" | "jbe"
  | "jae" =>
      keep (mkOperation OpIf EmptyString (Operands inst) EmptyString
              (Mnemonic inst) (Address inst)
              ("conditional jump: " +:+ Mnemonic inst)) st
  | _ => keep (blank (Mnemonic inst +:+ " " +:+ Operands inst) OpAssign) st
  end.

Fixpoint lift_loop (rest : list Instruction) (i : Z) (st : LiftState) : LiftState :=
  match rest with
  | [] => st
  | inst :: rest' => lift_loop rest' (i + 1) (lift_inst i inst st)
  end.

Definition Decompile (fn : Function) : DecompiledFunction :=
  let st := lift_loop (Instructions fn) 0 (mkLiftState [] [] false ∅ 0) in
  mkDecompiled fn (variables st) (operations st) (varCount st) (hasReturn st).

End Decompiler.

(** * Properties of the pipeline *)

Import Disasm Cfg Decompiler.

(** ** Vocabulary of the statements *)

(** The number of prefix bytes the decoder steps over, the opcode byte it
    dispatches on and the byte after it. *)
Definition prefix_len (data : list byte) (arch : string) : Z :=
  (prefix_loop 4 data (String.eqb arch "x86_64") 0).1.
Definition opcode_at (data : list byte) (arch : string) : option byte :=
  data !! Z.to_nat (prefix_len data arch).
Definition opcode2_at (data : list byte) (arch : string) : option byte :=
  data !! Z.to_nat (prefix_len data arch + 1).

(** Families of opcodes: short Jcc [0x70]-[0x7F], after [0x0F] long Jcc
    [0x80]-[0x8F] and SETcc [0x90]-[0x9F], and the loop family
    [0xE0]-[0xE3]. *)
Definition is_jcc_short (b : byte) : bool := (112 <=? byteZ b) && (byteZ b <=? 127).
Definition is_jcc_long (b : byte) : bool := (128 <=? byteZ b) && (byteZ b <=? 143).
Definition is_setcc (b : byte) : bool := (144 <=? byteZ b) && (byteZ b <=? 159).

Definition is_loop_family (b : byte) : bool := (224 <=? byteZ b) && (byteZ b <=? 227).

(** The conditional branches: short and long Jcc and JRCXZ. *)
Definition conditional_branch (opcode : byte) (next : option byte) : bool :=
  is_jcc_short opcode
  || Byte.eqb opcode xe3
  || (Byte.eqb opcode x0f && from_option is_jcc_long false next).

(** Decoding of a section followed by function discovery without symbols. *)
Definition section_functions (data : list byte) (baseAddr : Z) (arch : string)
  : list Function :=
  match DisassembleSection data baseAddr arch with
  | Swept instructions => FindFunctions instructions []
  | _ => []
  end.

(** The edge lists of a block and the invariant on them: [B] is a successor
    of [A] exactly when [A] is a predecessor of [B], and no list repeats a
    block. *)
Definition succs (h : Heap) (a : ptr) : list ptr := Successors (deref h a).
Definition preds (h : Heap) (a : ptr) : list ptr := Predecessors (deref h a).

Record edges_ok (h : Heap) : Prop := mk_edges_ok {
  edges_symmetric : forall a b, b ∈ succs h a <-> a ∈ preds h b;
  succs_nodup : forall a, NoDup (succs h a);
  preds_nodup : forall a, NoDup (preds h a)
}.

(** Two heaps with the same edge lists. *)
Definition same_edges (h h' : Heap) : Prop :=
  forall a, succs h' a = succs h a /\ preds h' a = preds h a.

(** A block as [createBasicBlocks] leaves it. *)
Definition no_edges (b : BasicBlock) : Prop :=
  Successors b = [] /\ Predecessors b = [] /\ DominatedBy b = None.

Definition map_in_range (m : gmap Z ptr) (n : nat) : Prop :=
  forall k v, m !! k = Some v -> (v < n)%nat.

Definition dom_none (h : Heap) : Prop :=
  forall p, DominatedBy (deref h p) = None.

(** Every immediate dominator the fixed point writes is the entry block. *)
Definition idom_inv (e : ptr) (h : Heap) : Prop :=
  forall p, DominatedBy (deref h p) = None \/ DominatedBy (deref h p) = Some e.

Definition create_inv (st : list BasicBlock * option BasicBlock * Z) : Prop :=
  Forall no_edges st.1.1 /\ from_option no_edges True st.1.2.

(** The inputs of the scenarios. *)
Definition prologue_bytes : list byte :=
  [x55; x48; x89; xe5; x48; x83; xec; x10; xc3].
(** [push ebp; jmp 0x1003; jmp 0x1001]: blocks [B0 -> B1 -> B2 -> B1]. *)
Definition back_edge_bytes : list byte := [x55; xeb; x00; xeb; xfc].
(** [push ebp; call 0x2016; ret]. *)
Definition call_bytes : list byte := [x55; xe8; x10; x00; x00; x00; xc3].
(** [push ebp; mov rbp, rsp; push ebp; ret]: the second push opens a
    function right after a three-byte instruction. *)
Definition two_functions_bytes : list byte := [x55; x48; x89; xe5; x55; xc3].

(** ** Vocabulary of the further properties *)

(** The opcodes whose instruction falls through to the next one, those that
    are branches, and the near branches with a 32-bit displacement, as the
    switch sets the fields; [next] is the byte after the opcode. *)
Definition falls_through_form (opcode : byte) (next : option byte) : bool :=
  is_jcc_short opcode
  || Byte.eqb opcode xe8
  || (Byte.eqb opcode x0f && from_option is_jcc_long false next)
  || (Byte.eqb opcode xff && from_option (fun m => modrm_reg m =? 2) false next).

Definition branch_form (opcode : byte) (next : option byte) : bool :=
  is_jcc_short opcode || is_loop_family opcode
  || Byte.eqb opcode xe8 || Byte.eqb opcode xe9 || Byte.eqb opcode xeb
  || (Byte.eqb opcode x0f && from_option is_jcc_long false next)
  || (Byte.eqb opcode xff && from_option (fun m => modrm_reg m =? 4) false next).

Definition is_near_branch (opcode : byte) (next : option byte) : bool :=
  Byte.eqb opcode xe8 || Byte.eqb opcode xe9
  || (Byte.eqb opcode x0f && from_option is_jcc_long false next).

(** The input on which an arm panics: the byte at [k] is a ModR/M byte with
    mod = 1 and it is the last byte of the input. *)
Definition truncated_disp8 (data : list byte) (k : Z) : Prop :=
  exists modrm, data !! Z.to_nat k = Some modrm
                /\ modrm_mod modrm = 1 /\ len data = k + 1.

(** The relation between an instruction of a sweep and a later one: the
    first ends at or before the start of the second. *)
Definition ends_before (i j : Instruction) : Prop :=
  Address i + Size i <= Address j.

(** Function discovery: the addresses marked by the first pass, the name a
    function gets at an address, the addresses of the [call] instructions
    of a list, and the instruction appended to the open function. *)
Definition function_starts (instructions : list Instruction)
    (symbols : list Symbol) : gset Z :=
  pass1 instructions instructions (symbol_maps symbols).2 0 ∅.

Definition name_at (symbolMap : gmap Z string) (a : Z) : string :=
  let name := default EmptyString (symbolMap !! a) in
  if String.eqb name EmptyString then "sub_" +:+ hex a else name.

Definition is_ret (i : Instruction) : bool := String.eqb (Mnemonic i) "ret".
Definition is_call (i : Instruction) : bool := String.eqb (Mnemonic i) "call".

Definition calls_of (l : list Instruction) : list Z :=
  Address <$> filter (fun i => is_call i = true) l.

Definition add_inst (inst : Instruction) (cur : Function) : Function :=
  let cur := set_Instructions (Instructions cur ++ [inst]) cur in
  if String.eqb (Mnemonic inst) "call"
  then set_Calls (Calls cur ++ [Address inst]) cur else cur.

(** A function is a run of the stream [all] that begins at a marked start,
    holds no other marked start and no [ret] before its last instruction. *)
Record run_ok (symbolMap : gmap Z string) (starts : gset Z)
    (all pre : list Instruction) (f : Function) (post : list Instruction)
  : Prop := mk_run_ok {
  run_split : all = pre ++ Instructions f ++ post;
  run_first : exists first rest,
      Instructions f = first :: rest /\ StartAddr f = Address first
      /\ Address first ∈ starts /\ Forall (fun i => Address i ∉ starts) rest;
  run_body : exists body l,
      Instructions f = body ++ [l] /\ Forall (fun i => is_ret i = false) body;
  run_calls : Calls f = calls_of (Instructions f);
  run_name : Name f = name_at symbolMap (StartAddr f)
}.

(** How the end address of a closed function was set: by its [ret], by the
    start that follows it, or ([at_end]) by the end of the stream. *)
Definition end_ok (starts : gset Z) (at_end : bool) (f : Function)
    (post : list Instruction) : Prop :=
  exists l, last (Instructions f) = Some l /\
    ((is_ret l = true /\ EndAddr f = Address l)
     \/ (is_ret l = false
         /\ exists next, head post = Some next /\ Address next ∈ starts
                         /\ EndAddr f = uint64 (Address next - 1))
     \/ (at_end = true /\ is_ret l = false /\ post = []
         /\ EndAddr f = Address l)).

Definition closed_ok (symbolMap : gmap Z string) (starts : gset Z)
    (at_end : bool) (all : list Instruction) (f : Function) : Prop :=
  exists pre post, run_ok symbolMap starts all pre f post
                   /\ end_ok starts at_end f post.

Definition open_ok (symbolMap : gmap Z string) (starts : gset Z)
    (all : list Instruction) (f : Function) : Prop :=
  exists pre, run_ok symbolMap starts all pre f []
              /\ Forall (fun i => is_ret i = false) (Instructions f).

(** The instruction [x] is the first one of a function of the state. *)
Definition opened_by (x : Instruction) (st : list Function * option Function)
  : Prop :=
  (exists f, f ∈ st.1 /\ head (Instructions f) = Some x)
  \/ (exists c, st.2 = Some c /\ head (Instructions c) = Some x).

(** The invariant of the second pass after the instructions [all]. *)
Definition pass2_inv (symbolMap : gmap Z string) (starts : gset Z)
    (all : list Instruction) (st : list Function * option Function) : Prop :=
  Forall (closed_ok symbolMap starts false all) st.1
  /\ from_option (open_ok symbolMap starts all) True st.2
  /\ sublist (concat (Instructions <$> st.1)
              ++ from_option Instructions [] st.2) all
  /\ forall x, x ∈ all -> Address x ∈ starts -> opened_by x st.
(** What holds of the list [FindFunctions] returns. *)
Definition result_ok (symbolMap : gmap Z string) (starts : gset Z)
    (all : list Instruction) (fs : list Function) : Prop :=
  Forall (closed_ok symbolMap starts true all) fs
  /\ sublist (concat (Instructions <$> fs)) all
  /\ forall x, x ∈ all -> Address x ∈ starts ->
       exists f, f ∈ fs /\ head (Instructions f) = Some x.

(** A symbol that names the address [a]: its name is not empty. *)
Definition names_address (a : Z) (sym : Symbol) : bool :=
  negb (String.eqb (SymName sym) EmptyString) && (SymAddress sym =? a).

(** The instruction at index [i] is marked as a function start by the
    first pass. *)
Definition marked (instructions : list Instruction) (symbols : list Symbol)
    (i : Z) (inst : Instruction) : bool :=
  negb (isPaddingOrData instructions i)
  && isStart instructions (symbol_maps symbols).2 i inst.

(** The instructions of a section, or none when the sweep fails. *)
Definition section_instructions (data : list byte) (baseAddr : Z)
    (arch : string) : list Instruction :=
  match DisassembleSection data baseAddr arch with
  | Swept instructions => instructions
  | _ => []
  end.

(** The [ret] arm of the lifter. *)
Definition lift_ret (inst : Instruction) (st : LiftState) : LiftState :=
  let st := mkLiftState (variables st) (operations st) true (regMap st)
              (varCount st) in
  keep (mkOperation OpReturn EmptyString
          (default EmptyString (regMap st !! "rax")) EmptyString EmptyString
          (Address inst) EmptyString) st.

Definition is_mov (i : Instruction) : bool := String.eqb (Mnemonic i) "mov".

(** The test of [keep] on an operation. *)
Definition kept (op : Operation) : bool :=
  negb (bool_decide (Type_ op = OpAssign))
  || negb (String.eqb (Comment op) EmptyString).

(** What one iteration of the lifter adds to the state. *)
Record lift_step (inst : Instruction) (st st' : LiftState) : Prop := mk_lift_step {
  step_ops : exists ops,
      operations st' = operations st ++ ops
      /\ sublist (OpAddress <$> ops)
           (if is_mov inst then [] else [Address inst])
      /\ Forall (fun op => (Type_ op = OpReturn <-> is_ret inst = true)
                           /\ (Type_ op = OpAssign -> Comment op <> EmptyString))
           ops
      /\ (is_ret inst = true -> ops <> []);
  step_ret : hasReturn st' = hasReturn st || is_ret inst;
  step_vars : exists vs,
      variables st' = variables st ++ vs
      /\ varCount st <= varCount st' <= varCount st + 1
      /\ Forall (fun v => VarName v = "var" +:+ dec (varCount st)
                          /\ varCount st' = varCount st + 1
                          /\ IsLocal v = true /\ IsParam v = false) vs
      /\ (length vs <= 1)%nat
}.

(** A block as [createBasicBlocks] builds it at position [k]: its id is its
    position, it is not empty, it starts at a leader, which is its start
    address, holds no other leader, and ends at its last instruction. *)
Definition block_ok (leaders : gset Z) (k : nat) (b : BasicBlock) : Prop :=
  ID b = Z.of_nat k
  /\ exists first rest,
       BInstructions b = first :: rest
       /\ BStartAddr b = Address first
       /\ Address first ∈ leaders
       /\ Forall (fun i => Address i ∉ leaders) rest
       /\ Address <$> last (BInstructions b) = Some (BEndAddr b).

(** The invariant of the loop of [createBasicBlocks] after the
    instructions [done]. *)
Definition create_ok (all : list Instruction) (leaders : gset Z)
    (done : list Instruction)
    (st : list BasicBlock * option BasicBlock * Z) : Prop :=
  let '(blocks, cur, blockID) := st in
  (forall k b, blocks !! k = Some b -> block_ok leaders k b)
  /\ from_option (block_ok leaders (length blocks)) True cur
  /\ blockID = len blocks + from_option (fun _ => 1) 0 cur
  /\ concat (BInstructions <$> blocks) ++ from_option BInstructions [] cur = done
  /\ (cur = None ->
      forall next, all !! length done = Some next -> Address next ∈ leaders).

(** Two heaps of the same length whose blocks agree on a field [g]; the
    code of a block is what [createBasicBlocks] wrote. *)
Definition same_on {A} (g : BasicBlock -> A) (h h' : Heap) : Prop :=
  length h' = length h /\ forall p, g (deref h' p) = g (deref h p).

Definition code_of (b : BasicBlock) : Z * Z * Z * list Instruction :=
  (ID b, BStartAddr b, BEndAddr b, BInstructions b).


(** The successors that [connectBlocks] gives the block [b] at position
    [i] of [n] blocks: the branch target first, then the next block. *)
Definition block_successors (n : nat) (blockMap : gmap Z ptr) (b : BasicBlock)
    (i : nat) : list ptr :=
  match GetLastInstruction b with
  | None => []
  | Some lastInst =>
      let next := if (i + 1 <? n)%nat then [(i + 1)%nat] else [] in
      let target := option_list (blockMap !! BranchTarget lastInst) in
      match Category lastInst with
      | CatJump =>
          if IsConditional lastInst
          then target ++ list_difference next target
          else target
      | CatReturn => []
      | _ => next
      end
  end.

(** The test of step 4 of [BuildCFG] on a block. *)
Definition is_exit_block (b : BasicBlock) : bool :=
  EndsWithReturn b || (len (Successors b) =? 0).

(** The walk of [constructLoop]: from a block other than the header to one
    of its predecessors. *)
Definition loop_step (h : Heap) (header : ptr) (x y : ptr) : Prop :=
  x <> header /\ y ∈ preds h x.

(** What a block not yet visited can add to a worklist, summed over the
    blocks of the heap, and a number of iterations that the worklist loop
    of [constructLoop] never exceeds. *)
Definition block_weight (edges : ptr -> list ptr) (visited : gset ptr)
    (b : ptr) : nat :=
  if bool_decide (b ∈ visited) then 0%nat else S (length (edges b)).

Definition worklist_weight (n : nat) (edges : ptr -> list ptr)
    (worklist : list ptr) (visited : gset ptr) : nat :=
  (length worklist + sum_list (block_weight edges visited <$> seq 0 n))%nat.

Definition loop_fuel (h : Heap) : nat :=
  S (sum_list ((fun b => S (length (Predecessors b))) <$> h)).

(** ** Package cfg: queries on a block and conditional structures *)

(** [GetFirstInstruction], [IsConditionalBranch], [IsUnconditionalBranch],
    [HasSingleSuccessor] and [HasMultipleSuccessors] of a block. *)
Definition GetFirstInstruction (b : BasicBlock) : option Instruction :=
  head (BInstructions b).

Definition IsConditionalBranch (b : BasicBlock) : bool :=
  match GetLastInstruction b with
  | None => false
  | Some l => IsConditional l && IsBranch l
  end.

Definition IsUnconditionalBranch (b : BasicBlock) : bool :=
  match GetLastInstruction b with
  | None => false
  | Some l =>
      negb (IsConditional l) && IsBranch l
      && negb (bool_decide (Category l = CatReturn))
  end.

Definition HasSingleSuccessor (b : BasicBlock) : bool :=
  len (Successors b) =? 1.
Definition HasMultipleSuccessors (b : BasicBlock) : bool :=
  1 <? len (Successors b).

(** [CondType] and [ConditionalStructure] (conditionals.go); [CondIfThen]
    is the constant 0, the type of a structure that was never given one. *)
Inductive CondType : Type :=
| CondIfThen
| CondIfThenElse
| CondSwitch.

Record ConditionalStructure : Type := mkConditional {
  CType : CondType;
  Condition : option ptr;
  ThenBranch : option ptr;
  ElseBranch : option ptr;
  MergePoint : option ptr;
  CaseBlocks : list ptr
}.

Definition GetConditionType (c : ConditionalStructure) : string :=
  match CType c with
  | CondIfThen => "if-then"
  | CondIfThenElse => "if-then-else"
  | CondSwitch => "switch"
  end.

(** [findMergePoint]: the first search collects the blocks reachable from
    [branch1]; the second walks from [branch2] and returns the first block
    it visits that the first search saw and that is neither branch. Both
    take a block from the front of the queue and append its successors;
    they return [None] when [fuel] iterations did not empty the queue. *)
Fixpoint bfs_visit (fuel : nat) (h : Heap) (queue : list ptr)
    (visited1 : gset ptr) : option (gset ptr) :=
  match queue with
  | [] => Some visited1
  | block :: queue =>
      match fuel with
      | O => None
      | S fuel' =>
          if bool_decide (block ∈ visited1)
          then bfs_visit fuel' h queue visited1
          else bfs_visit fuel' h (queue ++ Successors (deref h block))
                 ({[block]} ∪ visited1)
      end
  end.

Fixpoint bfs_find (fuel : nat) (h : Heap) (branch1 branch2 : ptr)
    (visited1 : gset ptr) (queue : list ptr) (visited2 : gset ptr)
  : option (option ptr) :=
  match queue with
  | [] => Some None
  | block :: queue =>
      match fuel with
      | O => None
      | S fuel' =>
          if bool_decide (block ∈ visited2)
          then bfs_find fuel' h branch1 branch2 visited1 queue visited2
          else
            let visited2 := {[block]} ∪ visited2 in
            if bool_decide (block ∈ visited1)
               && negb (bool_decide (block = branch1))
               && negb (bool_decide (block = branch2))
            then Some (Some block)
            else bfs_find fuel' h branch1 branch2 visited1
                   (queue ++ Successors (deref h block)) visited2
      end
  end.

Definition findMergePoint (fuel : nat) (h : Heap) (branch1 branch2 : ptr)
  : option (option ptr) :=
  match bfs_visit fuel h [branch1] ∅ with
  | None => None
  | Some visited1 => bfs_find fuel h branch1 branch2 visited1 [branch2] ∅
  end.

(** [analyzeIfElse]: [None] when the search ran out of fuel, [Some None]
    for Go's [nil]. *)
Definition analyzeIfElse (fuel : nat) (h : Heap) (block : ptr)
  : option (option ConditionalStructure) :=
  match Successors (deref h block) with
  | [then_; els] =>
      match findMergePoint fuel h then_ els with
      | None => None
      | Some (Some mergePoint) =>
          Some (Some (mkConditional CondIfThenElse (Some block) (Some then_)
                        (Some els) (Some mergePoint) []))
      | Some None =>
          let cond := mkConditional CondIfThen (Some block) (Some then_)
                        (Some els) None [] in
          if (len (BInstructions (deref h els)) =? 0)
             && (len (Successors (deref h els)) =? 1)
          then Some (Some (mkConditional CondIfThen (Some block) (Some then_)
                             (Some els) (head (Successors (deref h els))) []))
          else if (len (BInstructions (deref h then_)) =? 0)
                  && (len (Successors (deref h then_)) =? 1)
          then Some (Some (mkConditional CondIfThen (Some block) (Some then_)
                             (Some els) (head (Successors (deref h then_))) []))
          else Some (Some cond)
      end
  | _ => Some None
  end.

Definition isCommonSuccessor (h : Heap) (target : ptr) (blocks : list ptr)
  : bool :=
  forallb (fun block =>
             existsb (fun succ => bool_decide (succ = target))
                     (Successors (deref h block))) blocks.

(** [analyzeSwitch]: the merge point is the only successor of the first
    case block that has exactly one successor which all cases share. *)
Definition analyzeSwitch (h : Heap) (block : ptr) : option ConditionalStructure :=
  let cases := Successors (deref h block) in
  if len cases <=? 2 then None
  else
    let merge :=
      head (omap (fun succ =>
                    match Successors (deref h succ) with
                    | [potentialMerge] =>
                        if isCommonSuccessor h potentialMerge cases
                        then Some potentialMerge else None
                    | _ => None
                    end) cases) in
    Some (mkConditional CondSwitch (Some block) None None merge cases).

(** The loop of [DetectConditionals] over the blocks. *)
Fixpoint conditionals_loop (fuel : nat) (h : Heap) (blocks : list ptr)
    (conditionals : list ConditionalStructure)
  : option (list ConditionalStructure) :=
  match blocks with
  | [] => Some conditionals
  | block :: blocks =>
      if negb (IsConditionalBranch (deref h block))
      then conditionals_loop fuel h blocks conditionals
      else if len (Successors (deref h block)) =? 2 then
        match analyzeIfElse fuel h block with
        | None => None
        | Some (Some cond) =>
            conditionals_loop fuel h blocks (conditionals ++ [cond])
        | Some None => conditionals_loop fuel h blocks conditionals
        end
      else if 2 <? len (Successors (deref h block)) then
        match analyzeSwitch h block with
        | Some cond => conditionals_loop fuel h blocks (conditionals ++ [cond])
        | None => conditionals_loop fuel h blocks conditionals
        end
      else conditionals_loop fuel h blocks conditionals
  end.

Definition DetectConditionals (fuel : nat) (cfg : ControlFlowGraph)
  : option (list ConditionalStructure) :=
  conditionals_loop fuel (heap cfg) (Blocks cfg) [].

(** A step along a successor edge, and a number of iterations that neither
    search of [findMergePoint] exceeds. *)
Definition succ_step (h : Heap) (x y : ptr) : Prop := y ∈ succs h x.

Definition search_fuel (h : Heap) : nat :=
  S (sum_list ((fun b => S (length (Successors b))) <$> h)).

(** An if/else structure as [DetectConditionals] reports it on a built
    graph, for the block [p]. *)
Definition if_else_at (h : Heap) (c : ConditionalStructure) (p : ptr) : Prop :=
  exists t,
    IsConditionalBranch (deref h p) = true
    /\ succs h p = [t; S p]
    /\ Condition c = Some p /\ ThenBranch c = Some t
    /\ ElseBranch c = Some (S p) /\ CaseBlocks c = []
    /\ match MergePoint c with
       | Some m => CType c = CondIfThenElse /\ m <> t /\ m <> S p
                   /\ rtc (succ_step h) t m /\ rtc (succ_step h) (S p) m
       | None => CType c = CondIfThen
       end.

(** The blocks for which [DetectConditionals] calls [analyzeIfElse]. *)
Definition two_way_branch (h : Heap) (p : ptr) : bool :=
  IsConditionalBranch (deref h p) && (len (Successors (deref h p)) =? 2).

(** ** The decoder *)

Lemma bind_Ok {A B} (m : result A) (f : A -> result B) (b : B) :
  m ≫= f = Ok b -> exists a, m = Ok a /\ f a = Ok b.
Proof. destruct m; simpl; intros; try discriminate; eauto. Qed.

Lemma idx_Some {A} (l : list A) i a : idx l i = Ok a -> l !! Z.to_nat i = Some a.
Proof.
  unfold idx. destruct (_ || _); [discriminate|].
  destruct (l !! Z.to_nat i); [|discriminate]. congruence.
Qed.

(** Inversion of an arm that reached the end of the switch. *)
Ltac inv_arm :=
  repeat match goal with
  | H : Ok _ = Ok _ |- _ => injection H as H; subst
  | H : (_, _) = (_, _) |- _ => injection H as H; subst
  | H : Fail = Ok _ |- _ => discriminate H
  | H : Panic = Ok _ |- _ => discriminate H
  | H : _ ≫= _ = Ok _ |- _ =>
      let a := fresh "a" in
      let Ha := fresh "Ha" in
      apply bind_Ok in H; destruct H as (a & Ha & H)
  | H : (let '(_, _) := ?p in _) = Ok _ |- _ => destruct p
  | H : (if ?c then _ else _) = Ok _ |- _ => destruct c eqn:?
  | H : match ?x with _ => _ end = Ok _ |- _ => destruct x eqn:?
  end.

Ltac unfold_arms H :=
  cbv beta iota zeta delta
    [decode_opcode decode_two_byte arm_plain arm_skip1 arm_modrm arm_imm8
     arm_imm32 arm_imm16 arm_far arm_fpu arm_loop arm_group1 arm_modrm_dest
     arm_fixed arm_modrm_imm arm_vex] in H.

Lemma decode_two_byte_conditional opcode2 data addr rexW inst offset inst' offset' :
  decode_two_byte opcode2 data addr rexW inst offset = Ok (inst', offset') ->
  IsConditional inst' = IsConditional inst || is_jcc_long opcode2.
Proof.
  intros H. destruct opcode2; unfold_arms H; inv_arm;
    cbn; rewrite ?orb_false_r, ?orb_true_r; reflexivity.
Qed.

Lemma decode_opcode_conditional opcode data addr is64bit rexW inst offset
    inst' offset' :
  decode_opcode opcode data addr is64bit rexW inst offset = Ok (inst', offset') ->
  IsConditional inst' =
    IsConditional inst || conditional_branch opcode (data !! Z.to_nat offset).
Proof.
  intros H. destruct opcode;
    try (cbv beta iota zeta delta
           [decode_opcode arm_plain arm_skip1 arm_modrm arm_imm8 arm_imm32
            arm_imm16 arm_far arm_fpu arm_loop arm_group1 arm_modrm_dest
            arm_fixed arm_modrm_imm arm_vex] in H;
         inv_arm; cbn; rewrite ?orb_false_r, ?orb_true_r; reflexivity).
  - (* 0x0F: the second byte decides *)
    cbv beta iota zeta delta [decode_opcode] in H. inv_arm.
    apply decode_two_byte_conditional in H. rewrite H.
    apply idx_Some in Ha. rewrite Ha. reflexivity.
  - (* 0xDB *)
    cbv beta iota zeta delta [decode_opcode] in H. inv_arm.
    destruct a; cbn; rewrite ?orb_false_r; reflexivity.
  - (* 0xDF *)
    cbv beta iota zeta delta [decode_opcode] in H. inv_arm.
    destruct a; cbn; rewrite ?orb_false_r; reflexivity.
Qed.

(** What [EnhancedDecodeInstruction] returns on a success, in terms of the
    switch on the opcode. *)
Lemma decode_success data addr arch inst size :
  EnhancedDecodeInstruction data addr arch = Returned inst size ->
  size <> 0 ->
  exists opcode inst1,
    opcode_at data arch = Some opcode /\
    decode_opcode opcode data addr (String.eqb arch "x86_64")
      (prefix_loop 4 data (String.eqb arch "x86_64") 0).2
      (set_Address addr zero_Instruction) (prefix_len data arch + 1)
    = Ok (inst1, size) /\
    (inst = set_Size size inst1 \/
     exists bs, inst = set_Bytes bs (set_Size size inst1)).
Proof.
  unfold EnhancedDecodeInstruction, opcode_at, prefix_len.
  intros H Hsz.
  destruct (len data =? 0); [injection H as _ H; congruence|].
  destruct (prefix_loop 4 data (String.eqb arch "x86_64") 0) as [off rexW] eqn:Hp.
  simpl.
  destruct (len data <=? off); [injection H as _ H; congruence|].
  destruct (idx data off) as [opcode| |] eqn:Hi; simpl in H;
    [|injection H as _ H; congruence|discriminate].
  apply idx_Some in Hi.
  destruct (decode_opcode _ _ _ _ _ _ _) as [[inst1 off1]| |] eqn:Hd;
    [|injection H as _ H; congruence|discriminate].
  exists opcode, inst1. split; [done|].
  destruct (_ && _).
  - destruct (slice _ _ _); try discriminate.
    injection H as H1 H2. cbn in H2. subst. split; [done|]. right. eauto.
  - injection H as H1 H2. cbn in H2. subst. split; [done|]. by left.
Qed.

(** Every arm leaves [offset] at or after the byte that follows the
    opcode. *)
Lemma decode_two_byte_advances opcode2 data addr rexW inst offset inst' offset' :
  decode_two_byte opcode2 data addr rexW inst offset = Ok (inst', offset') ->
  offset <= offset'.
Proof. intros H. destruct opcode2; unfold_arms H; inv_arm; lia. Qed.

Lemma decode_opcode_advances opcode data addr is64bit rexW inst offset
    inst' offset' :
  decode_opcode opcode data addr is64bit rexW inst offset = Ok (inst', offset') ->
  offset <= offset'.
Proof.
  intros H. destruct opcode;
    try (cbv beta iota zeta delta
           [decode_opcode arm_plain arm_skip1 arm_modrm arm_imm8 arm_imm32
            arm_imm16 arm_far arm_fpu arm_loop arm_group1 arm_modrm_dest
            arm_fixed arm_modrm_imm arm_vex] in H;
         inv_arm; lia).
  cbv beta iota zeta delta [decode_opcode] in H. inv_arm.
  apply decode_two_byte_advances in H. lia.
Qed.

Lemma prefix_loop_nonneg n data is64 offset :
  0 <= offset -> 0 <= (prefix_loop n data is64 offset).1.
Proof.
  revert offset. induction n as [|n IH]; intros offset Hoff; simpl; [done|].
  repeat case_match; simpl; try lia. apply IH. lia.
Qed.

(** A success returns a positive size, and the bytes it consumed whenever
    that size fits the input. *)
Lemma decode_size_positive data addr arch inst size :
  EnhancedDecodeInstruction data addr arch = Returned inst size ->
  size <> 0 ->
  0 < size /\ Size inst = size
  /\ (size <= len data -> Bytes inst = take (Z.to_nat size) data
                          /\ len (Bytes inst) = size).
Proof.
  intros H Hsz.
  destruct (decode_success _ _ _ _ _ H Hsz) as (op & inst1 & Hop & Hd & Hi).
  apply decode_opcode_advances in Hd.
  pose proof (prefix_loop_nonneg 4 data (String.eqb arch "x86_64") 0 ltac:(lia)) as Hp.
  fold (prefix_len data arch) in Hp.
  assert (Hpos : 0 < size) by lia.
  split; [done|].
  revert H. unfold EnhancedDecodeInstruction.
  destruct (len data =? 0); [intros [= _ <-]; done|].
  destruct (prefix_loop _ _ _ _) as [off rexW].
  destruct (len data <=? off); [intros [= _ <-]; done|].
  destruct (_ ≫= _) as [[i1 o1]| |]; [|intros [= _ <-]; done|done].
  cbn [Size set_Size].
  destruct (_ && _) eqn:Hb.
  - unfold slice. 
    destruct (_ || _) eqn:Hs; [done|]. intros [= <- <-]. cbn.
    change (drop (Z.to_nat 0) data) with data. rewrite Z.sub_0_r.
    split; [done|]. intros Hle. split; [done|].
    unfold len in *. rewrite length_take. lia.
  - intros [= <- <-]. cbn. split; [done|]. intros Hle.
    apply andb_false_iff in Hb as [Hb|Hb]; lia.
Qed.

(** C1. The decoder is not total on truncated input: on the two bytes
    [0x89 0x45] (a MOV whose ModR/M byte has mod = 1, with no displacement
    byte left) it panics on [data[0]] in [decodeModRMDetailed], at every
    address and for every architecture tag, instead of returning size 0. *)
Theorem decode_truncated_disp8_panics (addr : Z) (arch : string) :
  EnhancedDecodeInstruction [x89; x45] addr arch = Panicked.
Proof.
  unfold EnhancedDecodeInstruction.
  destruct (String.eqb arch "x86_64"); reflexivity.
Qed.

(** C3. A success can return a size that exceeds the input and differs from
    the length of the returned bytes: on the two bytes [0xF6 0x00] (TEST,
    ModR/M reg field 0) the immediate is stepped over without a length test,
    so the decoder returns size 3 for a slice of length 2 and leaves the
    bytes field empty. *)
Theorem decode_test_imm_overruns (addr : Z) (arch : string) :
  exists inst,
    EnhancedDecodeInstruction [xf6; x00] addr arch = Returned inst 3
    /\ Size inst = 3 /\ Bytes inst = [] /\ Mnemonic inst = "test"
    /\ len [xf6; x00] = 2.
Proof.
  unfold EnhancedDecodeInstruction.
  destruct (String.eqb arch "x86_64"); eexists; (split; [reflexivity|done]).
Qed.

(** C4. The displacement of a ModR/M operand is read but never consumed.
    On [0x89 0x45 0xF8] ([mov [ebp+0xf8], eax], mod = 1) and on
    [0x89 0x85 0x78 0x56 0x34 0x12] (mod = 2) the decoder prints the
    displacement in the operand and returns size 2: the displacement bytes
    are not part of the instruction. On [0x83 0x45 0xF8 0x01] the byte
    [0xF8] is read twice, as the displacement and as the immediate, and the
    real immediate [0x01] is left over. So the sweep of
    [0x89 0x45 0xF8 0xC3] resumes on the displacement byte and decodes it as
    the instruction [clc] at the address of the section plus 2. *)
Theorem displacement_read_but_not_consumed (addr : Z) (arch : string) :
  (modrm_mod x45 = 1
   /\ exists inst,
        EnhancedDecodeInstruction [x89; x45; xf8] addr arch = Returned inst 2
        /\ Operands inst = "[ebp+0xf8], eax" /\ Bytes inst = [x89; x45])
  /\ (modrm_mod x85 = 2
      /\ exists inst,
           EnhancedDecodeInstruction [x89; x85; x78; x56; x34; x12] addr arch
           = Returned inst 2
           /\ Operands inst = "[ebp+0x12345678], eax"
           /\ Bytes inst = [x89; x85])
  /\ (exists inst,
        EnhancedDecodeInstruction [x83; x45; xf8; x01] addr arch
        = Returned inst 3
        /\ Mnemonic inst = "add"
        /\ Operands inst = "[ebp+0xf8], 0xfffffff8"
        /\ Bytes inst = [x83; x45; xf8])
  /\ (exists mov clc ret,
        DisassembleSection [x89; x45; xf8; xc3] 4096 "x86_64"
        = Swept [mov; clc; ret]
        /\ (Address mov, Mnemonic mov, Bytes mov) = (4096, "mov", [x89; x45])
        /\ (Address clc, Mnemonic clc, Bytes clc) = (4098, "clc", [xf8])
        /\ (Address ret, Mnemonic ret, Bytes ret) = (4099, "ret", [xc3])).
Proof.
  split_and!; try reflexivity.
  - unfold EnhancedDecodeInstruction.
    destruct (String.eqb arch "x86_64"); eexists; (split; [reflexivity|done]).
  - unfold EnhancedDecodeInstruction.
    destruct (String.eqb arch "x86_64"); eexists; (split; [reflexivity|done]).
  - unfold EnhancedDecodeInstruction.
    destruct (String.eqb arch "x86_64"); eexists; (split; [reflexivity|done]).
  - do 3 eexists. split; [vm_compute; reflexivity|]. split_and!; reflexivity.
Qed.

(** C8, as stated, fails: [0x0F 0x90 0xC0] is decoded as the SETcc
    instruction [seto] of size 3 with [is_conditional] false. *)
Lemma setcc_not_conditional :
  opcode_at [x0f; x90; xc0] "x86_64" = Some x0f
  /\ from_option is_setcc false (opcode2_at [x0f; x90; xc0] "x86_64") = true
  /\ exists inst,
       EnhancedDecodeInstruction [x0f; x90; xc0] 4096 "x86_64" = Returned inst 3
       /\ Mnemonic inst = "seto" /\ IsConditional inst = false.
Proof.
  split; [reflexivity|]. split; [reflexivity|].
  eexists. split; [reflexivity|done].
Qed.

(** C8, amended. For every instruction the decoder returns,
    [is_conditional] is true exactly when the opcode after the prefixes is a
    short Jcc ([0x70]-[0x7F]), JRCXZ ([0xE3]) or, after [0x0F], a long Jcc
    ([0x80]-[0x8F]); it is false for every other decoded instruction, SETcc
    and CMOVcc included. *)
Theorem is_conditional_exactly_branches data addr arch inst size :
  EnhancedDecodeInstruction data addr arch = Returned inst size ->
  size <> 0 ->
  IsConditional inst =
    from_option (fun opcode => conditional_branch opcode (opcode2_at data arch))
      false (opcode_at data arch).
Proof.
  intros H Hsz.
  destruct (decode_success _ _ _ _ _ H Hsz) as (op & inst1 & Hop & Hd & Hi).
  rewrite Hop. simpl.
  apply decode_opcode_conditional in Hd. simpl in Hd.
  unfold opcode2_at. rewrite <- Hd.
  destruct Hi as [-> | (bs & ->)]; reflexivity.
Qed.

Lemma is_conditional_exactly_branches_witness :
  exists inst,
    EnhancedDecodeInstruction [x74; x05] 4096 "x86_64" = Returned inst 2
    /\ IsConditional inst = true.
Proof.
  eexists. split; [reflexivity|].
  rewrite (is_conditional_exactly_branches [x74; x05] 4096 "x86_64" _ 2).
  - reflexivity.
  - reflexivity.
  - lia.
Defined.

(** Branch targets modulo [2^64]. *)
Lemma uint64_int64 z w : uint64 (int64 z + w) = uint64 (z + w).
Proof.
  unfold uint64, int64.
  replace ((z + 2 ^ 63) mod 2 ^ 64 - 2 ^ 63 + w)
    with ((z + 2 ^ 63) mod 2 ^ 64 + (w - 2 ^ 63)) by lia.
  rewrite Z.add_mod_idemp_l by lia. f_equal. lia.
Qed.

Lemma uint64_int64_id z : uint64 (int64 z) = uint64 z.
Proof. rewrite <- (Z.add_0_r (int64 z)), uint64_int64. f_equal. lia. Qed.

Lemma rel8_target_spec addr offset b :
  rel8_target addr offset b = uint64 (addr + (offset + 1) + int8 (byteZ b)).
Proof.
  unfold rel8_target.
  rewrite uint64_int64_id, uint64_int64, <- Z.add_assoc, uint64_int64.
  f_equal. lia.
Qed.

(** The short jumps [0x70]-[0x7F] and [0xEB] record
    [address + size + sign_extend(imm8)] modulo [2^64]. *)
Lemma rel8_jump_target data addr arch inst size opcode imm :
  EnhancedDecodeInstruction data addr arch = Returned inst size ->
  size <> 0 ->
  opcode_at data arch = Some opcode ->
  is_jcc_short opcode || Byte.eqb opcode xeb = true ->
  opcode2_at data arch = Some imm ->
  BranchTarget inst = uint64 (addr + size + int8 (byteZ imm)).
Proof.
  intros H Hsz Hop Hfam Himm.
  destruct (decode_success _ _ _ _ _ H Hsz) as (op & inst1 & Hop' & Hd & Hi).
  assert (op = opcode) as -> by congruence.
  assert (BranchTarget inst = BranchTarget inst1) as ->
    by (destruct Hi as [-> | (bs & ->)]; reflexivity).
  unfold opcode2_at in Himm.
  destruct opcode; try discriminate Hfam;
    cbv beta iota zeta delta [decode_opcode] in Hd; inv_arm;
    apply idx_Some in Ha; rewrite Ha in Himm; injection Himm as ->;
    cbn; rewrite rel8_target_spec; f_equal; lia.
Qed.

Lemma uint64_add_l a b : uint64 (uint64 a + b) = uint64 (a + b).
Proof. unfold uint64. by rewrite Z.add_mod_idemp_l. Qed.

Lemma uint64_add_r a b : uint64 (a + uint64 b) = uint64 (a + b).
Proof. unfold uint64. by rewrite Z.add_mod_idemp_r. Qed.

Lemma loop_target_spec addr b :
  loop_target addr b = uint64 (addr + 2 + int8 (byteZ b)).
Proof.
  unfold loop_target.
  rewrite uint64_add_l, (Z.add_comm addr), <- Z.add_assoc, uint64_add_l.
  f_equal. lia.
Qed.

(** The loop family [0xE0]-[0xE3] records [address + 2 + sign_extend(imm8)]
    whatever the number of prefix bytes, while the size counts them. *)
Lemma loop_family_target data addr arch inst size opcode imm :
  EnhancedDecodeInstruction data addr arch = Returned inst size ->
  size <> 0 ->
  opcode_at data arch = Some opcode ->
  is_loop_family opcode = true ->
  opcode2_at data arch = Some imm ->
  BranchTarget inst = uint64 (addr + 2 + int8 (byteZ imm))
  /\ size = prefix_len data arch + 2.
Proof.
  intros H Hsz Hop Hfam Himm.
  destruct (decode_success _ _ _ _ _ H Hsz) as (op & inst1 & Hop' & Hd & Hi).
  assert (op = opcode) as -> by congruence.
  assert (BranchTarget inst = BranchTarget inst1) as ->
    by (destruct Hi as [-> | (bs & ->)]; reflexivity).
  unfold opcode2_at in Himm.
  destruct opcode; try discriminate Hfam;
    cbv beta iota zeta delta [decode_opcode arm_loop] in Hd; inv_arm;
    apply idx_Some in Ha; rewrite Ha in Himm; injection Himm as ->;
    cbn; rewrite loop_target_spec; (split; [reflexivity|lia]).
Qed.

(** C9. With a prefix in front of a loop-family opcode the recorded target
    is not [address + size + sign_extend(imm8)]: on [0x67 0xE3 0x05] at
    [0x1000] the decoder returns size 3 and branch target [0x1007], while
    [0x1000 + 3 + 5 = 0x1008]. The arms [0xE0]-[0xE3] add the constant 2
    where the arms [0x70]-[0x7F] and [0xEB] add [offset + 1]. *)
Theorem loop_target_ignores_prefix :
  exists inst,
    EnhancedDecodeInstruction [x67; xe3; x05] 4096 "x86_64" = Returned inst 3
    /\ Mnemonic inst = "jrcxz"
    /\ BranchTarget inst = 4103
    /\ uint64 (Address inst + 3 + int8 (byteZ x05)) = 4104.
Proof. eexists. split; [reflexivity|done]. Qed.

(** ** The control-flow graph *)

Lemma deref_update_eq h p f :
  (p < length h)%nat -> deref (update h p f) p = f (deref h p).
Proof.
  intros Hp. unfold deref at 1, update.
  by rewrite list_lookup_insert_eq.
Qed.

Lemma deref_update_ne h p f q :
  q <> p -> deref (update h p f) q = deref h q.
Proof.
  intros Hne. unfold deref at 1, update.
  by rewrite list_lookup_insert_ne.
Qed.

Lemma deref_update_ge h p f q :
  (length h <= p)%nat -> deref (update h p f) q = deref h q.
Proof.
  intros Hp. unfold update. by rewrite list_insert_ge.
Qed.

Lemma length_update h p f : length (update h p f) = length h.
Proof. unfold update. apply length_insert. Qed.

Lemma same_edges_refl h : same_edges h h.
Proof. by intros a. Qed.

Lemma same_edges_trans h1 h2 h3 :
  same_edges h1 h2 -> same_edges h2 h3 -> same_edges h1 h3.
Proof.
  intros H12 H23 a. destruct (H12 a), (H23 a). split; congruence.
Qed.

Lemma same_edges_ok h h' : same_edges h h' -> edges_ok h -> edges_ok h'.
Proof.
  intros Hs [Hsym Hns Hnp]. split.
  - intros a b. destruct (Hs a) as [-> _], (Hs b) as [_ ->]. apply Hsym.
  - intros a. destruct (Hs a) as [-> _]. apply Hns.
  - intros a. destruct (Hs a) as [_ ->]. apply Hnp.
Qed.

Lemma update_same_edges h p f :
  (forall b, Successors (f b) = Successors b /\ Predecessors (f b) = Predecessors b) ->
  same_edges h (update h p f).
Proof.
  intros Hf a. unfold succs, preds.
  destruct (decide (p < length h)%nat) as [Hp|Hp].
  - destruct (decide (a = p)) as [->|Hne].
    + rewrite deref_update_eq by done. apply Hf.
    + by rewrite deref_update_ne.
  - rewrite deref_update_ge by lia. done.
Qed.

(** The edge lists after [AddSuccessor]. *)
Lemma AddSuccessor_edges h bb succ :
  (bb < length h)%nat -> (succ < length h)%nat -> edges_ok h ->
  succ ∉ succs h bb ->
  forall a,
    succs (AddSuccessor h bb succ) a
      = (if decide (a = bb) then succs h bb ++ [succ] else succs h a) /\
    preds (AddSuccessor h bb succ) a
      = (if decide (a = succ) then preds h succ ++ [bb] else preds h a).
Proof.
  intros Hbb Hsucc Hok Hnew a.
  assert (Hnp : bb ∉ preds h succ) by (by rewrite <- (edges_symmetric h Hok)).
  unfold AddSuccessor. fold (succs h bb).
  rewrite bool_decide_eq_false_2 by done.
  set (h1 := update h bb _).
  assert (Hp1 : forall x, preds h1 x = preds h x).
  { intros x. unfold preds, h1. destruct (decide (x = bb)) as [->|Hne].
    - by rewrite deref_update_eq.
    - by rewrite deref_update_ne. }
  assert (Hs1 : forall x, succs h1 x = if decide (x = bb) then succs h bb ++ [succ] else succs h x).
  { intros x. unfold succs, h1. destruct (decide (x = bb)) as [->|Hne].
    - by rewrite deref_update_eq.
    - by rewrite deref_update_ne. }
  fold (preds h1 succ). rewrite Hp1.
  rewrite bool_decide_eq_false_2 by done.
  assert (Hl1 : (succ < length h1)%nat) by (unfold h1; by rewrite length_update).
  split.
  - rewrite <- Hs1. unfold succs. destruct (decide (a = succ)) as [->|Hne].
    + by rewrite deref_update_eq.
    + by rewrite deref_update_ne.
  - unfold preds at 1. destruct (decide (a = succ)) as [->|Hne].
    + rewrite deref_update_eq by done. simpl. fold (preds h1 succ). by rewrite Hp1.
    + rewrite deref_update_ne by done. apply Hp1.
Qed.

Lemma length_AddSuccessor h bb succ : length (AddSuccessor h bb succ) = length h.
Proof.
  unfold AddSuccessor. repeat case_match; rewrite ?length_update; done.
Qed.

Lemma AddSuccessor_ok h bb succ :
  (bb < length h)%nat -> (succ < length h)%nat ->
  edges_ok h -> edges_ok (AddSuccessor h bb succ).
Proof.
  intros Hbb Hsucc Hok.
  destruct (decide (succ ∈ succs h bb)) as [Hin|Hnew].
  { unfold AddSuccessor. fold (succs h bb). by rewrite bool_decide_eq_true_2. }
  assert (Hnp : bb ∉ preds h succ) by (by rewrite <- (edges_symmetric h Hok)).
  pose proof (AddSuccessor_edges h bb succ Hbb Hsucc Hok Hnew) as He.
  destruct Hok as [Hsym Hns Hnp'].
  split.
  - intros a b. destruct (He a) as [-> _], (He b) as [_ ->].
    destruct (decide (a = bb)) as [->|Ha], (decide (b = succ)) as [->|Hb];
      rewrite ?elem_of_app, ?list_elem_of_singleton, ?Hsym;
      intuition congruence.
  - intros a. destruct (He a) as [-> _]. case_decide; subst; [|done].
    apply NoDup_app. split_and!; [done| |apply NoDup_singleton].
    intros x Hx ->%list_elem_of_singleton. done.
  - intros a. destruct (He a) as [_ ->]. case_decide; subst; [|done].
    apply NoDup_app. split_and!; [done| |apply NoDup_singleton].
    intros x Hx ->%list_elem_of_singleton. done.
Qed.

(** ** connectBlocks *)

Lemma add_next_ok n h i :
  (n <= length h)%nat -> (i < length h)%nat -> edges_ok h ->
  edges_ok (add_next n h i) /\ length (add_next n h i) = length h.
Proof.
  intros Hn Hi Hok. unfold add_next.
  destruct (i + 1 <? n)%nat eqn:Hlt; [|done].
  apply Nat.ltb_lt in Hlt.
  split; [apply AddSuccessor_ok; [lia..|done] | apply length_AddSuccessor].
Qed.

Lemma add_target_ok m h i lastInst :
  map_in_range m (length h) -> (i < length h)%nat -> edges_ok h ->
  edges_ok (add_target m h i lastInst)
  /\ length (add_target m h i lastInst) = length h.
Proof.
  intros Hm Hi Hok. unfold add_target.
  destruct (m !! BranchTarget lastInst) as [target|] eqn:Ht; [|done].
  split; [apply AddSuccessor_ok; eauto | apply length_AddSuccessor].
Qed.

Lemma connect_body_ok n m h i :
  (n <= length h)%nat -> map_in_range m (length h) -> (i < length h)%nat ->
  edges_ok h ->
  edges_ok (connect_body n m h i) /\ length (connect_body n m h i) = length h.
Proof.
  intros Hn Hm Hi Hok. unfold connect_body.
  destruct (GetLastInstruction (deref h i)) as [lastInst|]; [|done].
  destruct (Category lastInst); try (by apply add_next_ok); try done.
  destruct (IsConditional lastInst).
  - destruct (add_target_ok m h i lastInst Hm Hi Hok) as [Hok1 Hl1].
    destruct (add_next_ok n (add_target m h i lastInst) i) as [Hok2 Hl2];
      rewrite ?Hl1; try done.
    split; [done|congruence].
  - by apply add_target_ok.
Qed.

Lemma connect_fold_ok n m (ixs : list nat) h :
  (n <= length h)%nat -> map_in_range m (length h) ->
  Forall (fun i => i < length h)%nat ixs -> edges_ok h ->
  edges_ok (foldl (connect_body n m) h ixs)
  /\ length (foldl (connect_body n m) h ixs) = length h.
Proof.
  revert h. induction ixs as [|i ixs IH]; intros h Hn Hm His Hok; simpl; [done|].
  apply Forall_cons in His as [Hi His].
  destruct (connect_body_ok n m h i Hn Hm Hi Hok) as [Hok1 Hl1].
  destruct (IH (connect_body n m h i)) as [Hok2 Hl2]; rewrite ?Hl1; try done.
  split; [done|congruence].
Qed.

Lemma build_BlockMap_in_range h : map_in_range (build_BlockMap h) (length h).
Proof.
  unfold build_BlockMap.
  assert (Hgen : forall (ixs : list nat) (m : gmap Z ptr),
            Forall (fun i => i < length h)%nat ixs ->
            map_in_range m (length h) ->
            map_in_range
              (foldl (fun m i => <[BStartAddr (deref h i) := i]> m) m ixs)
              (length h)).
  { induction ixs as [|i ixs IH]; intros m His Hm; simpl; [done|].
    apply Forall_cons in His as [Hi His]. apply IH; [done|].
    intros k v. rewrite lookup_insert. case_decide; [|by apply Hm].
    intros [= <-]. done. }
  apply Hgen.
  - apply Forall_forall. intros i Hi%elem_of_seq. lia.
  - intros k v. by rewrite lookup_empty.
Qed.

Lemma no_edges_ok h : Forall no_edges h -> edges_ok h.
Proof.
  intros Hall.
  assert (He : forall a, succs h a = [] /\ preds h a = []).
  { intros a. unfold succs, preds, deref.
    destruct (h !! a) as [b|] eqn:Hb; simpl; [|done].
    eapply Forall_lookup_1 in Hall; eauto. destruct Hall as (? & ? & ?). done. }
  split.
  - intros a b. destruct (He a) as [-> _], (He b) as [_ ->].
    split; intros H; inversion H.
  - intros a. destruct (He a) as [-> _]. constructor.
  - intros a. destruct (He a) as [_ ->]. constructor.
Qed.

Lemma connectBlocks_ok m h :
  map_in_range m (length h) -> Forall no_edges h ->
  edges_ok (connectBlocks m h) /\ length (connectBlocks m h) = length h.
Proof.
  intros Hm Hall. unfold connectBlocks.
  apply connect_fold_ok; [done|done| |by apply no_edges_ok].
  apply Forall_forall. intros i Hi%elem_of_seq. lia.
Qed.

(** ** createBasicBlocks *)

Lemma create_body_inv all leaders i inst st :
  create_inv st -> create_inv (create_body all leaders i inst st).
Proof.
  destruct st as [[blocks cur] blockID]. unfold create_inv, create_body. simpl.
  intros [Hb Hc].
  repeat case_match; simplify_eq/=; split;
    rewrite ?Forall_app, ?Forall_singleton; unfold no_edges in *; simpl;
    intuition auto.
Qed.

Lemma create_loop_inv all rest leaders i st :
  create_inv st -> create_inv (create_loop all rest leaders i st).
Proof.
  revert i st. induction rest as [|inst rest IH]; intros i st Hst; simpl; [done|].
  apply IH. by apply create_body_inv.
Qed.

Lemma createBasicBlocks_no_edges fn leaders :
  Forall no_edges (createBasicBlocks fn leaders).
Proof.
  unfold createBasicBlocks.
  pose proof (create_loop_inv (Instructions fn) (Instructions fn) leaders 0
                ([], None, 0%Z)) as H.
  destruct (create_loop _ _ _ _ _) as [[blocks cur] blockID].
  destruct H as [Hb Hc]; [by split|]. simpl in *.
  destruct cur; [|done]. rewrite Forall_app, Forall_singleton. done.
Qed.

(** ** Entry and exit marks, dominators *)

Lemma mark_exit_fold_same ixs st :
  same_edges st.1 (foldl mark_exit_body st ixs).1.
Proof.
  revert st. induction ixs as [|i ixs IH]; intros [h exits]; simpl;
    [apply same_edges_refl|].
  destruct (_ || _); [|apply (IH (h, exits))].
  eapply same_edges_trans; [|apply (IH (_, _))].
  by apply update_same_edges.
Qed.

Lemma mark_exits_same_edges h : same_edges h (mark_exits h).1.
Proof. apply (mark_exit_fold_same _ (h, [])). Qed.

Lemma intersect_same fuel h e : intersectDominators fuel h e e = Some e.
Proof. destruct fuel; simpl; by rewrite bool_decide_eq_true_2. Qed.

Lemma newDom_loop_inv fuel e h preds0 newDom :
  idom_inv e h -> (newDom = None \/ newDom = Some e) ->
  exists r, newDom_loop fuel h preds0 newDom = Some r /\ (r = None \/ r = Some e).
Proof.
  intros Hinv. revert newDom.
  induction preds0 as [|pred preds0 IH]; intros newDom Hnd; simpl; [eauto|].
  destruct (Hinv pred) as [->| ->]; [by apply IH|].
  destruct Hnd as [->| ->]; [apply IH; eauto|].
  rewrite intersect_same. apply IH; eauto.
Qed.

Lemma update_idom_inv e h p v :
  idom_inv e h -> (v = None \/ v = Some e) ->
  idom_inv e (update h p (set_DominatedBy v)).
Proof.
  intros Hinv Hv q.
  destruct (decide (p < length h)%nat) as [Hp|Hp].
  - destruct (decide (q = p)) as [->|Hne].
    + rewrite deref_update_eq by done. done.
    + rewrite deref_update_ne by done. apply Hinv.
  - rewrite deref_update_ge by lia. apply Hinv.
Qed.

Lemma dom_sweep_total fuel e blocks h changed :
  idom_inv e h ->
  exists h' changed',
    dom_sweep fuel e blocks h changed = Some (h', changed')
    /\ idom_inv e h' /\ same_edges h h'.
Proof.
  revert h changed.
  induction blocks as [|block blocks IH]; intros h changed Hinv; simpl.
  { exists h, changed. split_and!; [done|done|apply same_edges_refl]. }
  case_bool_decide; [by apply IH|].
  destruct (newDom_loop_inv fuel e h (Predecessors (deref h block)) None Hinv)
    as (r & -> & Hr); [by left|].
  destruct (_ && _); [|by apply IH].
  destruct (IH (update h block (set_DominatedBy r)) true)
    as (h' & c' & Hs & Hi & He); [by apply update_idom_inv|].
  exists h', c'. split_and!; [done|done|].
  eapply same_edges_trans; [|done]. by apply update_same_edges.
Qed.

Lemma dom_iterate_total fuel e blocks maxIterations h changed :
  idom_inv e h ->
  exists h', dom_iterate fuel e blocks maxIterations h changed = Some h'
             /\ same_edges h h'.
Proof.
  revert h changed.
  induction maxIterations as [|k IH]; intros h changed Hinv; simpl.
  { destruct changed; exists h; split; try done; apply same_edges_refl. }
  destruct changed; [|exists h; split; [done|apply same_edges_refl]].
  destruct (dom_sweep_total fuel e blocks h false Hinv)
    as (h1 & c1 & -> & Hi & He).
  destruct (IH h1 c1 Hi) as (h' & -> & He').
  exists h'. split; [done|]. by eapply same_edges_trans.
Qed.

Lemma computeDominators_total fuel entry blocks h :
  (forall p, DominatedBy (deref h p) = None) ->
  exists h', computeDominators fuel entry blocks h = Some h' /\ same_edges h h'.
Proof.
  intros Hnone. unfold computeDominators.
  destruct entry as [e|]; [|exists h; split; [done|apply same_edges_refl]].
  destruct (length blocks =? 0)%nat;
    [exists h; split; [done|apply same_edges_refl]|].
  destruct (dom_iterate_total fuel e blocks (length blocks * length blocks)
              (update h e (set_DominatedBy (Some e))) true) as (h' & -> & He).
  { apply update_idom_inv; [|by right]. intros p. left. apply Hnone. }
  exists h'. split; [done|].
  eapply same_edges_trans; [|done]. by apply update_same_edges.
Qed.

(** ** BuildCFG *)

Lemma update_dom_none h p f :
  (forall b, DominatedBy (f b) = DominatedBy b) ->
  dom_none h -> dom_none (update h p f).
Proof.
  intros Hf Hn q.
  destruct (decide (p < length h)%nat) as [Hp|Hp].
  - destruct (decide (q = p)) as [->|Hne].
    + rewrite deref_update_eq, Hf by done. apply Hn.
    + rewrite deref_update_ne by done. apply Hn.
  - rewrite deref_update_ge by lia. apply Hn.
Qed.

Lemma AddSuccessor_dom_none h bb succ :
  dom_none h -> dom_none (AddSuccessor h bb succ).
Proof.
  intros Hn. unfold AddSuccessor.
  repeat case_match; repeat apply update_dom_none; done.
Qed.

Lemma connectBlocks_dom_none m h : dom_none h -> dom_none (connectBlocks m h).
Proof.
  unfold connectBlocks. generalize (length h) at 1. intros n.
  generalize (seq 0 (length h)). intros ixs. revert h.
  induction ixs as [|i ixs IH]; intros h Hn; simpl; [done|].
  apply IH. unfold connect_body, add_next, add_target.
  repeat case_match; repeat apply AddSuccessor_dom_none; done.
Qed.

Lemma mark_exit_fold_dom_none ixs st :
  dom_none st.1 -> dom_none (foldl mark_exit_body st ixs).1.
Proof.
  revert st. induction ixs as [|i ixs IH]; intros [h exits] Hn; simpl; [done|].
  destruct (_ || _); [|by apply (IH (h, exits))].
  apply (IH (_, _)). by apply update_dom_none.
Qed.

Lemma mark_exits_dom_none h : dom_none h -> dom_none (mark_exits h).1.
Proof. apply (mark_exit_fold_dom_none _ (h, [])). Qed.

Lemma fresh_dom_none h : Forall no_edges h -> dom_none h.
Proof.
  intros Hall p. unfold deref.
  destruct (h !! p) as [b|] eqn:Hb; simpl; [|done].
  eapply Forall_lookup_1 in Hall; eauto. destruct Hall as (? & ? & ?). done.
Qed.

Lemma BuildCFG_edges fuel fn :
  exists cfg, BuildCFG fuel fn = Some cfg /\ edges_ok (heap cfg).
Proof.
  unfold BuildCFG. destruct (Instructions fn) as [|i0 rest] eqn:Hi.
  { eexists. split; [done|]. simpl. by apply no_edges_ok. }
  set (h0 := createBasicBlocks fn (identifyLeaders fn)).
  pose proof (createBasicBlocks_no_edges fn (identifyLeaders fn)) as Hfresh.
  fold h0 in Hfresh.
  destruct (connectBlocks_ok (build_BlockMap h0) h0) as [Hok1 Hl1];
    [apply build_BlockMap_in_range|done|].
  pose proof (connectBlocks_dom_none (build_BlockMap h0) h0
                (fresh_dom_none h0 Hfresh)) as Hd1.
  set (h1 := connectBlocks (build_BlockMap h0) h0) in *.
  set (h2 := match head (seq 0 (length h0)) with
             | Some e => update h1 e (set_IsEntry true)
             | None => h1
             end).
  assert (He2 : same_edges h1 h2).
  { unfold h2. destruct (head _); [by apply update_same_edges|apply same_edges_refl]. }
  assert (Hd2 : dom_none h2).
  { unfold h2. destruct (head _); [by apply update_dom_none|done]. }
  pose proof (mark_exits_same_edges h2) as He3.
  pose proof (mark_exits_dom_none h2 Hd2) as Hd3.
  destruct (mark_exits h2) as [h3 exits]. simpl in He3, Hd3.
  destruct (computeDominators_total fuel (head (seq 0 (length h0)))
              (seq 0 (length h0)) h3 Hd3) as (h4 & -> & He4).
  eexists. split; [done|]. simpl.
  eapply same_edges_ok; [|exact Hok1].
  eapply same_edges_trans; [exact He2|]. by eapply same_edges_trans.
Qed.

(** C10. For every function, [BuildCFG] returns a graph (whatever fuel the
    model of [intersectDominators] is given) whose edge lists are symmetric
    and free of duplicates: [B] is in the successors of [A] exactly when [A]
    is in the predecessors of [B], and no successor or predecessor list holds
    a block twice. [connectBlocks] establishes this on the blocks it is
    given, and every call of [AddSuccessor] on blocks of the graph
    preserves it. *)
Theorem BuildCFG_edges_symmetric_nodup :
  (forall fuel fn, exists cfg,
      BuildCFG fuel fn = Some cfg /\ edges_ok (heap cfg))
  /\ (forall m h, map_in_range m (length h) -> Forall no_edges h ->
        edges_ok (connectBlocks m h))
  /\ (forall h bb succ, (bb < length h)%nat -> (succ < length h)%nat ->
        edges_ok h -> edges_ok (AddSuccessor h bb succ)).
Proof.
  split_and!.
  - apply BuildCFG_edges.
  - intros m h Hm Hh. by apply connectBlocks_ok.
  - apply AddSuccessor_ok.
Qed.

Lemma BuildCFG_edges_symmetric_nodup_witness :
  edges_ok (AddSuccessor [zero_BasicBlock; zero_BasicBlock] 0 1).
Proof.
  apply (proj2 (proj2 BuildCFG_edges_symmetric_nodup)).
  - simpl. lia.
  - simpl. lia.
  - apply no_edges_ok. repeat constructor.
Defined.

(** ** Loop detection *)

(** Closed facts about the scenario inputs are settled by evaluation,
    conjunct by conjunct. *)
Ltac evaluate :=
  lazymatch goal with
  | |- _ /\ _ => split; [vm_compute; reflexivity | evaluate]
  | _ => vm_compute; reflexivity
  end.

(** A walk that reaches a block which is its own immediate dominator, and is
    not the block looked for, never ends. *)
Lemma Dominates_loop_self h bb c fuel :
  DominatedBy (deref h c) = Some c -> c <> bb ->
  Dominates_loop fuel h bb (Some c) = None.
Proof.
  intros Hc Hne. induction fuel as [|fuel IH]; simpl;
    rewrite bool_decide_eq_false_2 by done; [done|].
  rewrite Hc. exact IH.
Qed.

(** The fixed point never rewrites the immediate dominator of the entry
    block. *)
Lemma dom_sweep_entry fuel e blocks h changed h' changed' :
  dom_sweep fuel e blocks h changed = Some (h', changed') ->
  DominatedBy (deref h' e) = DominatedBy (deref h e).
Proof.
  revert h changed.
  induction blocks as [|block blocks IH]; intros h changed; simpl.
  { by intros [= <- <-]. }
  case_bool_decide as Hne; [by apply IH|].
  destruct (newDom_loop _ _ _ _) as [newDom|]; [|done].
  destruct (_ && _); [|by apply IH].
  intros H. apply IH in H. rewrite H.
  rewrite deref_update_ne; [done|congruence].
Qed.

Lemma dom_iterate_entry fuel e blocks maxIterations h changed h' :
  dom_iterate fuel e blocks maxIterations h changed = Some h' ->
  DominatedBy (deref h' e) = DominatedBy (deref h e).
Proof.
  revert h changed.
  induction maxIterations as [|k IH]; intros h changed; simpl.
  { destruct changed; by intros [= <-]. }
  destruct changed; [|by intros [= <-]].
  destruct (dom_sweep _ _ _ _ _) as [[h1 c1]|] eqn:Hs; [|done].
  intros H. apply IH in H. rewrite H. by eapply dom_sweep_entry.
Qed.

Lemma computeDominators_entry fuel e blocks h h' :
  computeDominators fuel (Some e) blocks h = Some h' ->
  blocks <> [] -> (e < length h)%nat ->
  DominatedBy (deref h' e) = Some e.
Proof.
  unfold computeDominators. intros H Hb He.
  destruct (length blocks =? 0)%nat eqn:Hlen.
  { apply Nat.eqb_eq in Hlen. by destruct blocks. }
  apply dom_iterate_entry in H. rewrite H.
  by rewrite deref_update_eq.
Qed.

Lemma back_edges_of_diverges fuel h block succs0 acc s :
  DominatedBy (deref h block) = Some block ->
  s ∈ succs0 -> s <> block ->
  back_edges_of fuel h block succs0 acc = None.
Proof.
  intros Hself Hin Hne. revert acc.
  induction succs0 as [|succ succs0 IH]; intros acc; [by inversion Hin|].
  simpl. unfold Dominates.
  destruct (decide (block = succ)) as [->|Hbs].
  - assert (Hd : Dominates_loop fuel h succ (Some succ) = Some true).
    { destruct fuel; simpl; by rewrite bool_decide_eq_true_2. }
    rewrite Hd. apply IH.
    apply elem_of_cons in Hin as [?|?]; [congruence|done].
  - by rewrite Dominates_loop_self.
Qed.

Lemma mark_exit_fold_length ixs st :
  length (foldl mark_exit_body st ixs).1 = length st.1.
Proof.
  revert st. induction ixs as [|i ixs IH]; intros [h exits]; simpl; [done|].
  destruct (_ || _); [|apply (IH (h, exits))].
  rewrite (IH (_, _)). simpl. apply length_update.
Qed.

(** [DetectLoops] does not return on any graph whose entry block has a
    successor other than itself. *)
Lemma DetectLoops_diverges fuel fn cfg s :
  BuildCFG fuel fn = Some cfg ->
  s ∈ succs (heap cfg) 0 -> s <> 0%nat ->
  forall fuel', DetectLoops fuel' cfg = None.
Proof.
  unfold BuildCFG. destruct (Instructions fn) as [|i0 rest].
  { intros [= <-] Hin. inversion Hin. }
  set (h0 := createBasicBlocks fn (identifyLeaders fn)).
  set (h1 := connectBlocks (build_BlockMap h0) h0).
  set (h2 := match head (seq 0 (length h0)) with
             | Some e => update h1 e (set_IsEntry true)
             | None => h1
             end).
  pose proof (mark_exit_fold_length (seq 0 (length h2)) (h2, [])) as Hl3.
  fold (mark_exits h2) in Hl3.
  destruct (mark_exits h2) as [h3 exits]. simpl in Hl3.
  destruct (computeDominators _ _ _ h3) as [h4|] eqn:Hc; [|done].
  intros [= <-] Hin Hne fuel'. simpl in Hin.
  assert (Hl0 : (0 < length h0)%nat).
  { destruct (decide (0 < length h0)%nat) as [?|Hz]; [done|].
    assert (length h0 = 0%nat) as Hz' by lia.
    rewrite Hz' in Hc. simpl in Hc. injection Hc as <-.
    assert (length h3 = 0%nat) as Hz3.
    { rewrite Hl3. unfold h2. rewrite Hz'. simpl. unfold h1.
      pose proof (createBasicBlocks_no_edges fn (identifyLeaders fn)) as Hf.
      destruct (connectBlocks_ok (build_BlockMap h0) h0) as [_ ->];
        [apply build_BlockMap_in_range|done|done]. }
    unfold succs, deref in Hin. rewrite lookup_ge_None_2 in Hin by lia.
    inversion Hin. }
  destruct (length h0) as [|n] eqn:Hn; [lia|].
  change (seq 0 (S n)) with (0%nat :: seq 1 n) in *.
  assert (Hself : DominatedBy (deref h4 0) = Some 0%nat).
  { eapply (computeDominators_entry fuel 0%nat (0%nat :: seq 1 n) h3);
      [exact Hc|done|].
    rewrite Hl3. unfold h2. simpl. rewrite length_update. unfold h1.
    pose proof (createBasicBlocks_no_edges fn (identifyLeaders fn)) as Hf.
    destruct (connectBlocks_ok (build_BlockMap h0) h0) as [_ ->];
      [apply build_BlockMap_in_range|done|lia]. }
  unfold DetectLoops, findBackEdges. simpl.
  fold (succs h4 0).
  by rewrite (back_edges_of_diverges fuel' h4 0%nat _ [] s).
Qed.

(** The model does return where the code does: on the graph of C2 the
    entry block dominates [B2] after one step, and on a graph without edges
    ([push ebp; ret]) [DetectLoops] reports no loop. *)
Example Dominates_returns :
  exists fn cfg,
    section_functions back_edge_bytes 4096 "x86_64" = [fn]
    /\ BuildCFG 0 fn = Some cfg
    /\ Dominates 1 (heap cfg) 0 2 = Some true.
Proof. do 2 eexists. evaluate. Qed.

Example DetectLoops_returns :
  exists fn cfg,
    section_functions [x55; xc3] 4096 "x86_64" = [fn]
    /\ BuildCFG 0 fn = Some cfg
    /\ DetectLoops 0 cfg = Some (heap cfg, []).
Proof. do 2 eexists. evaluate. Qed.

(** C2. On the function decoded from [push ebp; jmp 0x1003; jmp 0x1001],
    whose graph is [B0 -> B1 -> B2 -> B1] with entry [B0], [BuildCFG]
    returns and [DetectLoops] does not: the first dominance test,
    [B1.Dominates(B0)], walks from the entry block to its immediate
    dominator, which is the entry block itself, for ever. No amount of fuel
    makes the model return, so no loop is reported. *)
Theorem DetectLoops_back_edge_diverges :
  exists fn,
    section_functions back_edge_bytes 4096 "x86_64" = [fn]
    /\ forall fuel, exists cfg,
         BuildCFG fuel fn = Some cfg
         /\ Blocks cfg = [0; 1; 2]%nat
         /\ EntryBlock cfg = Some 0%nat
         /\ succs (heap cfg) 0 = [1]%nat
         /\ succs (heap cfg) 1 = [2]%nat
         /\ succs (heap cfg) 2 = [1]%nat
         /\ DominatedBy (deref (heap cfg) 0) = Some 0%nat
         /\ forall fuel', DetectLoops fuel' cfg = None.
Proof.
  eexists. split; [vm_compute; reflexivity|].
  match goal with
  | |- forall fuel, exists cfg, BuildCFG fuel ?f = _ /\ _ => set (fn := f)
  end.
  intros fuel.
  destruct fuel as [|fuel];
    (eexists; split; [vm_compute; reflexivity|]);
    (repeat (split; [reflexivity|])).
  - apply (DetectLoops_diverges 0 fn _ 1%nat);
      [vm_compute; reflexivity|apply list_elem_of_here|lia].
  - apply (DetectLoops_diverges (S fuel) fn _ 1%nat);
      [vm_compute; reflexivity|apply list_elem_of_here|lia].
Qed.

(** ** Function discovery and lifting *)

(** C5. On [55 48 89 E5 48 83 EC 10 C3] at [0x3000] the pipeline yields one
    function with a single block and [has_return], but three operations, not
    four: the [Assign] that the [mov] arm builds for [mov rbp, rsp] (type 0,
    empty comment) fails the test that guards the append, so no operation
    carries the address [0x3001] of the [mov]. The three operations are the
    [Assign] of the push, the [Arithmetic] of [sub rsp, 0x10] and the
    [Return]. *)
Theorem prologue_drops_mov_assign :
  exists fn,
    section_functions prologue_bytes 12288 "x86_64" = [fn]
    /\ (Mnemonic <$> Instructions fn = ["push"; "mov"; "sub"; "ret"])
    /\ (Operands <$> Instructions fn
        = ["ebp"; "rbp, rsp"; "rsp, 0x10"; EmptyString])
    /\ (Address <$> Instructions fn = [12288; 12289; 12292; 12296])
    /\ (forall fuel, exists cfg,
          BuildCFG fuel fn = Some cfg /\ Blocks cfg = [0%nat])
    /\ HasReturn (Decompile fn) = true
    /\ Operations (Decompile fn)
       = [mkOperation OpAssign EmptyString EmptyString EmptyString EmptyString
            12288 "save ebp";
          mkOperation OpArithmetic "rsp" "rsp" "0x10" "sub" 12292 EmptyString;
          mkOperation OpReturn EmptyString EmptyString EmptyString EmptyString
            12296 EmptyString].
Proof.
  eexists. do 4 (split; [vm_compute; reflexivity|]).
  split; [|evaluate].
  intros fuel. destruct fuel; eexists; evaluate.
Qed.

(** C6. The [calls] list records the address of the call instruction, not
    of the callee: on [push ebp; call 0x2016; ret] at [0x2000] the function
    has [calls = [0x2001]] while the branch target of its call is
    [0x2016]. *)
Theorem calls_record_call_sites :
  exists fn call,
    section_functions call_bytes 8192 "x86_64" = [fn]
    /\ Instructions fn !! 1%nat = Some call
    /\ Mnemonic call = "call"
    /\ Address call = 8193
    /\ BranchTarget call = 8214
    /\ Calls fn = [8193].
Proof. do 2 eexists. evaluate. Qed.

(** C7. A function closed by the next marked start gets the address of that
    start minus one, not the address of its last instruction: on
    [push ebp; mov rbp, rsp; push ebp; ret] at [0x1000] the first function
    ends with the three-byte [mov] at [0x1001] and is closed by the start at
    [0x1004] with [end_addr = 0x1003]. *)
Theorem end_addr_is_next_start_minus_one :
  exists f1 f2 lastInst,
    section_functions two_functions_bytes 4096 "x86_64" = [f1; f2]
    /\ last (Instructions f1) = Some lastInst
    /\ Address lastInst = 4097
    /\ Size lastInst = 3
    /\ StartAddr f2 = 4100
    /\ EndAddr f1 = 4099.
Proof. do 3 eexists. evaluate. Qed.

(** * Further properties of the pipeline *)

(** ** Further properties of the decoder *)

Ltac unfold_all H :=
  cbv beta iota zeta delta
    [decode_opcode arm_plain arm_skip1 arm_modrm arm_imm8 arm_imm32
     arm_imm16 arm_far arm_fpu arm_loop arm_group1 arm_modrm_dest
     arm_fixed arm_modrm_imm arm_vex] in H.

Lemma decode_two_byte_address opcode2 data addr rexW inst offset inst' offset' :
  decode_two_byte opcode2 data addr rexW inst offset = Ok (inst', offset') ->
  Address inst' = Address inst.
Proof. intros H. destruct opcode2; unfold_arms H; inv_arm; reflexivity. Qed.

Lemma decode_opcode_address opcode data addr is64bit rexW inst offset
    inst' offset' :
  decode_opcode opcode data addr is64bit rexW inst offset = Ok (inst', offset') ->
  Address inst' = Address inst.
Proof.
  intros H. destruct opcode;
    try (unfold_all H; inv_arm; reflexivity).
  - cbv beta iota zeta delta [decode_opcode] in H. inv_arm.
    by apply decode_two_byte_address in H.
  - cbv beta iota zeta delta [decode_opcode] in H. inv_arm.
    destruct a; reflexivity.
  - cbv beta iota zeta delta [decode_opcode] in H. inv_arm.
    destruct a; reflexivity.
Qed.

Lemma decode_address data addr arch inst size :
  EnhancedDecodeInstruction data addr arch = Returned inst size ->
  size <> 0 -> Address inst = addr.
Proof.
  intros H Hsz.
  destruct (decode_success _ _ _ _ _ H Hsz) as (op & inst1 & _ & Hd & Hi).
  apply decode_opcode_address in Hd.
  destruct Hi as [-> | (bs & ->)]; exact Hd.
Qed.

(** X1. A success of the decoder returns a positive size, an instruction
    that records that size and the address it was given, and, whenever the
    size fits the input, exactly the bytes it consumed. *)
Theorem decode_success_records_input data addr arch inst size :
  EnhancedDecodeInstruction data addr arch = Returned inst size ->
  size <> 0 ->
  prefix_len data arch < size /\ Size inst = size /\ Address inst = addr
  /\ (size <= len data -> Bytes inst = take (Z.to_nat size) data
                          /\ len (Bytes inst) = size).
Proof.
  intros H Hsz.
  destruct (decode_size_positive _ _ _ _ _ H Hsz) as (_ & Hs & Hb).
  split; [|split; [done|split; [by eapply decode_address|done]]].
  destruct (decode_success _ _ _ _ _ H Hsz) as (op & inst1 & _ & Hd & _).
  apply decode_opcode_advances in Hd. lia.
Qed.

Lemma decode_success_records_input_witness :
  exists inst,
    EnhancedDecodeInstruction [x48; x83; xec; x10] 4096 "x86_64" = Returned inst 4
    /\ Size inst = 4 /\ Address inst = 4096
    /\ Bytes inst = [x48; x83; xec; x10].
Proof.
  eexists. split; [vm_compute; reflexivity|].
  destruct (decode_success_records_input [x48; x83; xec; x10] 4096 "x86_64" _ 4
              eq_refl ltac:(lia)) as (_ & Hs & Ha & Hb).
  split; [exact Hs|]. split; [exact Ha|].
  exact (proj1 (Hb ltac:(vm_compute; congruence))).
Defined.

(** X2. Whenever the decoder reports failure (size 0) the instruction it
    returns is the zero value: no field of a partly decoded instruction
    leaks out. *)
Theorem decode_failure_is_zero data addr arch inst :
  EnhancedDecodeInstruction data addr arch = Returned inst 0 ->
  inst = zero_Instruction.
Proof.
  unfold EnhancedDecodeInstruction. intros H.
  destruct (len data =? 0); [congruence|].
  pose proof (prefix_loop_nonneg 4 data (String.eqb arch "x86_64") 0 ltac:(lia)) as Hp.
  destruct (prefix_loop 4 data (String.eqb arch "x86_64") 0) as [off rexW].
  simpl in Hp.
  destruct (len data <=? off); [congruence|].
  destruct (idx data off) as [opcode| |]; simpl in H; [|congruence|discriminate].
  destruct (decode_opcode _ _ _ _ _ _ _) as [[inst1 off1]| |] eqn:Hd;
    [|congruence|discriminate].
  apply decode_opcode_advances in Hd. exfalso.
  destruct (_ && _); [destruct (slice _ _ _); try discriminate|];
    injection H as _ H; cbn in H; lia.
Qed.

Lemma decode_failure_is_zero_witness :
  EnhancedDecodeInstruction [xe8; x01] 4096 "x86_64" = Returned zero_Instruction 0
  /\ zero_Instruction = zero_Instruction.
Proof.
  split; [vm_compute; reflexivity|].
  apply (decode_failure_is_zero [xe8; x01] 4096 "x86_64").
  vm_compute. reflexivity.
Defined.

(** *** Where the decoder panics *)

Lemma bind_Panic {A B} (m : result A) (f : A -> result B) :
  m ≫= f = Panic -> m = Panic \/ exists a, m = Ok a /\ f a = Panic.
Proof. destruct m; simpl; intros; try discriminate; eauto. Qed.

Lemma idx_Panic {A} (l : list A) i : idx l i = Panic -> i < 0 \/ len l <= i.
Proof.
  unfold idx, len. destruct (_ || _) eqn:Hb.
  - intros _. apply orb_true_iff in Hb as [Hb|Hb]; lia.
  - apply orb_false_iff in Hb as [H1 H2]. intros H.
    destruct (l !! Z.to_nat i) eqn:Hl; [discriminate|].
    apply lookup_ge_None in Hl. lia.
Qed.

Lemma slice_from_Panic {A} (l : list A) lo :
  slice_from l lo = Panic -> lo < 0 \/ len l < lo.
Proof.
  unfold slice_from. destruct (_ || _) eqn:Hb; [|discriminate].
  intros _. apply orb_true_iff in Hb as [Hb|Hb]; lia.
Qed.

Lemma slice_from_Ok {A} (l t : list A) lo :
  slice_from l lo = Ok t -> t = drop (Z.to_nat lo) l /\ 0 <= lo <= len l.
Proof.
  unfold slice_from. destruct (_ || _) eqn:Hb; [discriminate|].
  apply orb_false_iff in Hb as [H1 H2]. intros [= <-]. split; [done|lia].
Qed.

Lemma slice_Panic {A} (l : list A) lo hi :
  slice l lo hi = Panic -> lo < 0 \/ hi < lo \/ len l < hi.
Proof.
  unfold slice. destruct (_ || _) eqn:Hb; [|discriminate].
  intros _. apply orb_true_iff in Hb as [Hb|Hb];
    [apply orb_true_iff in Hb as [Hb|Hb]|]; lia.
Qed.

Lemma slice_Ok {A} (l t : list A) lo hi :
  slice l lo hi = Ok t -> t = take (Z.to_nat (hi - lo)) (drop (Z.to_nat lo) l).
Proof. unfold slice. destruct (_ || _); [discriminate|]. congruence. Qed.

Lemma decodeModRMDetailed_Panic modrm data is64 :
  decodeModRMDetailed modrm data is64 = Panic ->
  modrm_mod modrm = 1 /\ data = [].
Proof.
  unfold decodeModRMDetailed. intros H.
  destruct (modrm_mod modrm) as [|[[]|[]|]|] eqn:Hm; try discriminate.
  - destruct (4 <=? len data) eqn:Hl; [|discriminate].
    apply bind_Panic in H as [H|(a & _ & H)]; [|discriminate].
    apply slice_Panic in H. lia.
  - split; [done|].
    apply bind_Panic in H as [H|(a & _ & H)]; [|discriminate].
    apply idx_Panic in H. destruct data; [done|]. unfold len in H. simpl in H. lia.
Qed.

Lemma modrm_reg_range m : 0 <= modrm_reg m < 8.
Proof. destruct m; vm_compute; split; congruence. Qed.

Ltac inv_panic :=
  repeat match goal with
  | H : Ok _ = Panic |- _ => discriminate H
  | H : Fail = Panic |- _ => discriminate H
  | H : _ ≫= _ = Panic |- _ =>
      let a := fresh "a" in
      let Ha := fresh "Ha" in
      apply bind_Panic in H; destruct H as [H | (a & Ha & H)]
  | H : (let '(_, _) := ?p in _) = Panic |- _ => destruct p
  | H : (if ?c then _ else _) = Panic |- _ => destruct c eqn:?
  | H : match ?x with _ => _ end = Panic |- _ => destruct x eqn:?
  end.

Ltac guards :=
  repeat match goal with
         | H : (_ <=? _) = false |- _ => apply Z.leb_gt in H
         | H : (_ <? _) = false |- _ => apply Z.ltb_ge in H
         end.

(** The access that went outside its slice: every guarded one is
    impossible, which leaves [data[0]] in [decodeModRMDetailed]. *)
Ltac panic_site :=
  match goal with
  | H : idx sregs (modrm_reg ?m) = Panic |- _ =>
      apply idx_Panic in H; pose proof (modrm_reg_range m);
      change (len sregs) with 8 in H; lia
  | H : idx _ _ = Panic |- _ => apply idx_Panic in H; lia
  | H : slice_from _ _ = Panic |- _ => apply slice_from_Panic in H; lia
  | H : slice _ _ _ = Panic |- _ => apply slice_Panic in H; lia
  | Hd : decodeModRMDetailed ?m ?t _ = Panic,
    Hi : idx ?data ?k = Ok ?m, Hs : slice_from ?data _ = Ok ?t |- _ =>
      apply decodeModRMDetailed_Panic in Hd as [? ->];
      apply slice_from_Ok in Hs as [Hs ?]; apply idx_Some in Hi;
      apply (f_equal length) in Hs; rewrite length_drop in Hs; simpl in Hs;
      apply lookup_lt_Some in Hi as Hlt;
      exists m; unfold len in *; split_and!; [done|done|lia]
  end.

Lemma decode_two_byte_no_panic opcode2 data addr rexW inst offset :
  0 <= offset ->
  decode_two_byte opcode2 data addr rexW inst offset <> Panic.
Proof.
  intros Hoff H.
  destruct opcode2; unfold_arms H; inv_panic; guards; panic_site.
Qed.

Lemma decode_opcode_panic opcode data addr is64bit rexW inst offset :
  0 <= offset ->
  decode_opcode opcode data addr is64bit rexW inst offset = Panic ->
  truncated_disp8 data offset.
Proof.
  intros Hoff H. unfold truncated_disp8.
  destruct opcode;
    try (unfold_all H; inv_panic; guards; panic_site).
  cbv beta iota zeta delta [decode_opcode] in H. inv_panic; guards;
    try panic_site.
  by apply decode_two_byte_no_panic in H; [|lia].
Qed.

Lemma decode_panic_site data addr arch :
  EnhancedDecodeInstruction data addr arch = Panicked ->
  exists modrm,
    opcode2_at data arch = Some modrm /\ last data = Some modrm
    /\ modrm_mod modrm = 1 /\ len data = prefix_len data arch + 2.
Proof.
  unfold EnhancedDecodeInstruction, opcode2_at, prefix_len. intros H.
  destruct (len data =? 0); [discriminate|].
  pose proof (prefix_loop_nonneg 4 data (String.eqb arch "x86_64") 0 ltac:(lia)) as Hp.
  destruct (prefix_loop 4 data (String.eqb arch "x86_64") 0) as [off rexW].
  simpl in *.
  destruct (len data <=? off) eqn:Hl; [discriminate|]. guards.
  destruct (idx data off) as [opcode| |] eqn:Hi; simpl in H.
  - destruct (decode_opcode _ _ _ _ _ _ _) as [[inst1 off1]| |] eqn:Hd;
      [|discriminate|].
    + destruct (_ && _) eqn:Hb; [|discriminate].
      apply andb_true_iff in Hb as [H1 H2].
      destruct (slice _ _ _) eqn:Hs; [discriminate| |].
      * unfold slice in Hs. destruct (_ || _); discriminate.
      * apply slice_Panic in Hs. cbn in *. lia.
    + apply decode_opcode_panic in Hd as (m & Hm & Hmod & Hlen); [|lia].
      exists m. split_and!; [done| |done|lia].
      rewrite last_lookup. rewrite <- Hm. f_equal. unfold len in Hlen. lia.
  - discriminate.
  - apply idx_Panic in Hi. lia.
Qed.

(** X3. The decoder panics on one kind of input only: the byte after the
    opcode is a ModR/M byte with mod = 1 and nothing follows it, so the
    8-bit displacement that [decodeModRMDetailed] reads is missing. *)
Theorem decode_panics_only_on_missing_disp8 data addr arch :
  EnhancedDecodeInstruction data addr arch = Panicked ->
  exists modrm,
    opcode2_at data arch = Some modrm /\ last data = Some modrm
    /\ modrm_mod modrm = 1 /\ len data = prefix_len data arch + 2.
Proof. apply decode_panic_site. Qed.

Lemma decode_panics_only_on_missing_disp8_witness :
  exists modrm,
    opcode2_at [x66; x01; x40] "x86" = Some modrm
    /\ last [x66; x01; x40] = Some modrm
    /\ modrm_mod modrm = 1 /\ len [x66; x01; x40] = prefix_len [x66; x01; x40] "x86" + 2.
Proof.
  apply (decode_panics_only_on_missing_disp8 [x66; x01; x40] 0 "x86").
  vm_compute. reflexivity.
Defined.

(** *** Branch flags and targets *)

Lemma decode_two_byte_flags opcode2 data addr rexW inst offset inst' offset' :
  decode_two_byte opcode2 data addr rexW inst offset = Ok (inst', offset') ->
  FallsThrough inst' = FallsThrough inst || is_jcc_long opcode2
  /\ IsBranch inst' = IsBranch inst || is_jcc_long opcode2.
Proof.
  intros H. destruct opcode2; unfold_arms H; inv_arm;
    cbn; rewrite ?orb_false_r, ?orb_true_r; split; reflexivity.
Qed.

Lemma decode_opcode_flags opcode data addr is64bit rexW inst offset
    inst' offset' :
  decode_opcode opcode data addr is64bit rexW inst offset = Ok (inst', offset') ->
  FallsThrough inst' =
    FallsThrough inst || falls_through_form opcode (data !! Z.to_nat offset)
  /\ IsBranch inst' =
    IsBranch inst || branch_form opcode (data !! Z.to_nat offset).
Proof.
  intros H. destruct opcode;
    try (unfold_all H; inv_arm; cbn; rewrite ?orb_false_r, ?orb_true_r;
         split; reflexivity).
  - cbv beta iota zeta delta [decode_opcode] in H. inv_arm.
    apply decode_two_byte_flags in H. destruct H as [-> ->].
    apply idx_Some in Ha. rewrite Ha.
    destruct (FallsThrough inst), (IsBranch inst), a; split; reflexivity.
  - cbv beta iota zeta delta [decode_opcode] in H. inv_arm.
    destruct a; cbn; rewrite ?orb_false_r; split; reflexivity.
  - cbv beta iota zeta delta [decode_opcode] in H. inv_arm.
    destruct a; cbn; rewrite ?orb_false_r; split; reflexivity.
  - cbv beta iota zeta delta [decode_opcode] in H.
    destruct (len data <=? offset); [discriminate|].
    apply bind_Ok in H as (m & Ha & H). apply idx_Some in Ha. rewrite Ha.
    destruct m; cbn in H; injection H as <- <-; cbn;
      rewrite ?orb_false_r, ?orb_true_r; split; reflexivity.
Qed.

(** X4. For every instruction the decoder returns, [falls_through] is true
    exactly for the short and long Jcc, [call rel32] and the indirect call
    [FF /2], and [is_branch] is true exactly for the short and long Jcc, the
    loop family, [call rel32], [jmp rel32], [jmp rel8] and the indirect jump
    [FF /4]. In particular JRCXZ and the loops never fall through, and an
    indirect call is no branch. *)
Theorem branch_flags_by_opcode data addr arch inst size opcode :
  EnhancedDecodeInstruction data addr arch = Returned inst size ->
  size <> 0 ->
  opcode_at data arch = Some opcode ->
  FallsThrough inst = falls_through_form opcode (opcode2_at data arch)
  /\ IsBranch inst = branch_form opcode (opcode2_at data arch).
Proof.
  intros H Hsz Hop.
  destruct (decode_success _ _ _ _ _ H Hsz) as (op & inst1 & Hop' & Hd & Hi).
  assert (op = opcode) as -> by congruence.
  apply decode_opcode_flags in Hd. simpl in Hd. unfold opcode2_at.
  destruct Hd as [<- <-].
  destruct Hi as [-> | (bs & ->)]; split; reflexivity.
Qed.

Lemma branch_flags_by_opcode_witness :
  exists inst,
    EnhancedDecodeInstruction [xe3; x05] 4096 "x86_64" = Returned inst 2
    /\ FallsThrough inst = false /\ IsBranch inst = true.
Proof.
  eexists. split; [vm_compute; reflexivity|].
  apply (branch_flags_by_opcode [xe3; x05] 4096 "x86_64" _ 2 xe3).
  - vm_compute. reflexivity.
  - lia.
  - vm_compute. reflexivity.
Defined.

(** X5. The short jumps [0x70]-[0x7F] and [0xEB] record the target
    [address + size + sign_extend(imm8)] modulo [2^64], whatever prefixes
    precede the opcode. *)
Theorem short_jump_target data addr arch inst size opcode imm :
  EnhancedDecodeInstruction data addr arch = Returned inst size ->
  size <> 0 ->
  opcode_at data arch = Some opcode ->
  is_jcc_short opcode || Byte.eqb opcode xeb = true ->
  opcode2_at data arch = Some imm ->
  BranchTarget inst = uint64 (addr + size + int8 (byteZ imm)).
Proof. apply rel8_jump_target. Qed.

Lemma short_jump_target_witness :
  exists inst,
    EnhancedDecodeInstruction [x66; xeb; xfc] 4096 "x86_64" = Returned inst 3
    /\ BranchTarget inst = uint64 (4096 + 3 + int8 (byteZ xfc)).
Proof.
  eexists. split; [vm_compute; reflexivity|].
  apply (short_jump_target [x66; xeb; xfc] 4096 "x86_64" _ 3 xeb xfc).
  - vm_compute. reflexivity.
  - lia.
  - vm_compute. reflexivity.
  - vm_compute. reflexivity.
  - vm_compute. reflexivity.
Defined.

Lemma rel32_target_spec addr offset bs :
  rel32_target addr offset bs = uint64 (addr + (offset + 4) + int32 (le_uint bs)).
Proof.
  unfold rel32_target.
  rewrite uint64_int64_id, uint64_int64, <- Z.add_assoc, uint64_int64.
  f_equal. lia.
Qed.

Lemma decode_two_byte_rel32 opcode2 data addr rexW inst offset inst' offset' :
  is_jcc_long opcode2 = true ->
  decode_two_byte opcode2 data addr rexW inst offset = Ok (inst', offset') ->
  BranchTarget inst' =
    uint64 (addr + offset'
            + int32 (le_uint (take 4 (drop (Z.to_nat (offset' - 4)) data)))).
Proof.
  intros Hf H. destruct opcode2; try discriminate Hf;
    unfold_arms H; inv_arm; apply slice_Ok in Ha; subst a;
    cbn; rewrite rel32_target_spec;
    replace (offset + 4 - offset) with 4 by lia;
    replace (offset + 4 - 4) with offset by lia; reflexivity.
Qed.

(** X6. The near branches [call rel32] ([0xE8]), [jmp rel32] ([0xE9]) and
    the long Jcc ([0x0F 0x80]-[0x0F 0x8F]) record the target
    [address + size + sign_extend(imm32)] modulo [2^64], where the
    displacement is the little-endian value of the last four bytes of the
    instruction. *)
Theorem near_branch_target data addr arch inst size opcode :
  EnhancedDecodeInstruction data addr arch = Returned inst size ->
  size <> 0 ->
  opcode_at data arch = Some opcode ->
  is_near_branch opcode (opcode2_at data arch) = true ->
  BranchTarget inst =
    uint64 (addr + size
            + int32 (le_uint (take 4 (drop (Z.to_nat (size - 4)) data)))).
Proof.
  intros H Hsz Hop Hfam.
  destruct (decode_success _ _ _ _ _ H Hsz) as (op & inst1 & Hop' & Hd & Hi).
  assert (op = opcode) as -> by congruence.
  assert (BranchTarget inst = BranchTarget inst1) as ->
    by (destruct Hi as [-> | (bs & ->)]; reflexivity).
  unfold opcode2_at in Hfam.
  destruct opcode; try discriminate Hfam;
    cbv beta iota zeta delta [decode_opcode] in Hd; inv_arm.
  - apply idx_Some in Ha. rewrite Ha in Hfam. simpl in Hfam.
    by apply decode_two_byte_rel32 in Hd.
  - apply slice_Ok in Ha; subst a. cbn. rewrite rel32_target_spec.
    replace (prefix_len data arch + 1 + 4 - (prefix_len data arch + 1)) with 4 by lia.
    replace (prefix_len data arch + 1 + 4 - 4) with (prefix_len data arch + 1) by lia.
    reflexivity.
  - apply slice_Ok in Ha; subst a. cbn. rewrite rel32_target_spec.
    replace (prefix_len data arch + 1 + 4 - (prefix_len data arch + 1)) with 4 by lia.
    replace (prefix_len data arch + 1 + 4 - 4) with (prefix_len data arch + 1) by lia.
    reflexivity.
Qed.

Lemma near_branch_target_witness :
  exists inst,
    EnhancedDecodeInstruction [x0f; x84; xf0; xff; xff; xff] 4096 "x86_64"
      = Returned inst 6
    /\ BranchTarget inst = 4086.
Proof.
  eexists. split; [vm_compute; reflexivity|].
  rewrite (near_branch_target [x0f; x84; xf0; xff; xff; xff] 4096 "x86_64" _ 6 x0f).
  - vm_compute. reflexivity.
  - vm_compute. reflexivity.
  - lia.
  - vm_compute. reflexivity.
  - vm_compute. reflexivity.
Defined.

(** X7. The loop family [0xE0]-[0xE3] records the target
    [address + 2 + sign_extend(imm8)] modulo [2^64] and returns the size
    [prefixes + 2]: the target counts from the end of the instruction only
    when no prefix precedes the opcode. *)
Theorem loop_family_target_and_size data addr arch inst size opcode imm :
  EnhancedDecodeInstruction data addr arch = Returned inst size ->
  size <> 0 ->
  opcode_at data arch = Some opcode ->
  is_loop_family opcode = true ->
  opcode2_at data arch = Some imm ->
  BranchTarget inst = uint64 (addr + 2 + int8 (byteZ imm))
  /\ size = prefix_len data arch + 2.
Proof. apply loop_family_target. Qed.

Lemma loop_family_target_and_size_witness :
  exists inst,
    EnhancedDecodeInstruction [xe2; xfe] 4096 "x86_64" = Returned inst 2
    /\ BranchTarget inst = uint64 (4096 + 2 + int8 (byteZ xfe))
    /\ 2 = prefix_len [xe2; xfe] "x86_64" + 2.
Proof.
  eexists. split; [vm_compute; reflexivity|].
  apply (loop_family_target_and_size [xe2; xfe] 4096 "x86_64" _ 2 xe2 xfe).
  - vm_compute. reflexivity.
  - lia.
  - vm_compute. reflexivity.
  - vm_compute. reflexivity.
  - vm_compute. reflexivity.
Defined.

(** ** The fallback decoder and the sweep *)

Lemma simple_inst_spec mn ops n data addr inst size :
  0 < n <= len data ->
  simple_inst mn ops n data (set_Address addr zero_Instruction) = (inst, size) ->
  0 < size <= len data /\ Size inst = size /\ Address inst = addr
  /\ Bytes inst = take (Z.to_nat size) data /\ len (Bytes inst) = size.
Proof.
  unfold simple_inst. intros Hn [= <- <-]. cbn.
  split_and!; try done; try lia. unfold len in *. rewrite length_take. lia.
Qed.

Lemma decodeInstruction_spec data addr arch inst size :
  decodeInstruction data addr arch = (inst, size) ->
  (size = 0 /\ inst = zero_Instruction)
  \/ (0 < size <= len data /\ Size inst = size /\ Address inst = addr
      /\ Bytes inst = take (Z.to_nat size) data /\ len (Bytes inst) = size).
Proof.
  unfold decodeInstruction. intros H.
  repeat case_match; subst;
    try (left; injection H as <- <-; done);
    right; (eapply simple_inst_spec; [|exact H]);
    guards; unfold len in *; simpl in *; lia.
Qed.

(** X8. The fallback decoder never reads outside its input: it returns
    either size 0 with the zero instruction, or a size between 1 and the
    length of the input together with an instruction that records that
    size, the address and exactly the bytes consumed. *)
Theorem decodeInstruction_consumes_its_bytes data addr arch inst size :
  decodeInstruction data addr arch = (inst, size) ->
  (size = 0 /\ inst = zero_Instruction)
  \/ (0 < size <= len data /\ Size inst = size /\ Address inst = addr
      /\ Bytes inst = take (Z.to_nat size) data /\ len (Bytes inst) = size).
Proof. apply decodeInstruction_spec. Qed.

Lemma decodeInstruction_consumes_its_bytes_witness :
  exists inst,
    decodeInstruction [x48; x89; xe5; xc3] 4096 "x86_64" = (inst, 3)
    /\ Bytes inst = [x48; x89; xe5].
Proof.
  eexists. split; [vm_compute; reflexivity|].
  destruct (decodeInstruction_consumes_its_bytes
              [x48; x89; xe5; xc3] 4096 "x86_64" _ 3 eq_refl)
    as [[H _]|(_ & _ & _ & H & _)]; [discriminate H|exact H].
Defined.

(** One iteration of the sweep at an offset inside the section. *)
Lemma sweep_step f data baseAddr arch offset acc :
  0 <= offset < len data ->
  (sweep_loop (S f) data baseAddr arch offset acc = SweepPanicked
   /\ EnhancedDecodeInstruction (drop (Z.to_nat offset) data)
        (uint64 (baseAddr + uint64 offset)) arch = Panicked)
  \/ sweep_loop (S f) data baseAddr arch offset acc
     = sweep_loop f data baseAddr arch (offset + 1) acc
  \/ exists inst size,
       0 < size /\ Size inst = size
       /\ Address inst = uint64 (baseAddr + uint64 offset)
       /\ sweep_loop (S f) data baseAddr arch offset acc
          = sweep_loop f data baseAddr arch (offset + size) (acc ++ [inst]).
Proof.
  intros Hoff. simpl.
  destruct (offset <? len data) eqn:Hlt; [|lia].
  destruct (EnhancedDecodeInstruction _ _ _) as [inst size|] eqn:He;
    [|left; done].
  right. destruct (size =? 0) eqn:Hz.
  - destruct (decodeInstruction _ _ _) as [inst' size'] eqn:Hd.
    apply decodeInstruction_spec in Hd as [[-> ->]|(Hs & Hsz & Ha & _)].
    + left. reflexivity.
    + destruct (size' =? 0) eqn:Hz'; [lia|].
      right. exists inst', size'. split_and!; try done; lia.
  - right. exists inst, size.
    assert (size <> 0) as Hne by lia.
    destruct (decode_size_positive _ _ _ _ _ He Hne) as (Hp & Hs & _).
    split_and!; try done; [by eapply decode_address|by rewrite Hz].
Qed.

Lemma sweep_loop_done f data baseAddr arch offset acc :
  len data <= offset -> sweep_loop f data baseAddr arch offset acc = Swept acc.
Proof.
  intros H. destruct f; simpl; destruct (offset <? len data) eqn:Hlt; try done; lia.
Qed.

Lemma sweep_loop_fuel f data baseAddr arch offset acc :
  0 <= offset -> len data - offset <= Z.of_nat f ->
  sweep_loop f data baseAddr arch offset acc <> SweepFuel.
Proof.
  revert offset acc. induction f as [|f IH]; intros offset acc Hoff Hf.
  - rewrite sweep_loop_done by lia. done.
  - destruct (decide (offset < len data)) as [Hlt|Hge];
      [|rewrite sweep_loop_done by lia; done].
    destruct (sweep_step f data baseAddr arch offset acc ltac:(lia))
      as [[-> _]|[->|(inst & size & Hs & _ & _ & ->)]]; [done| |];
      apply IH; lia.
Qed.

Lemma sweep_loop_no_error f data baseAddr arch offset acc :
  0 <= offset -> sweep_loop f data baseAddr arch offset acc <> SweepError.
Proof.
  revert offset acc. induction f as [|f IH]; intros offset acc Hoff.
  - simpl. destruct (offset <? len data); done.
  - destruct (decide (offset < len data)) as [Hlt|Hge];
      [|rewrite sweep_loop_done by lia; done].
    destruct (sweep_step f data baseAddr arch offset acc ltac:(lia))
      as [[-> _]|[->|(inst & size & Hs & _ & _ & ->)]]; [done| |];
      apply IH; lia.
Qed.

Lemma last_drop {A} (l : list A) n : (n < length l)%nat -> last (drop n l) = last l.
Proof.
  intros H. rewrite !last_lookup, lookup_drop, length_drop. f_equal. lia.
Qed.

Lemma sweep_loop_panic f data baseAddr arch offset acc :
  0 <= offset ->
  sweep_loop f data baseAddr arch offset acc = SweepPanicked ->
  exists modrm, last data = Some modrm /\ modrm_mod modrm = 1.
Proof.
  revert offset acc. induction f as [|f IH]; intros offset acc Hoff H.
  - simpl in H. destruct (offset <? len data); discriminate.
  - destruct (decide (offset < len data)) as [Hlt|Hge];
      [|rewrite sweep_loop_done in H by lia; discriminate].
    destruct (sweep_step f data baseAddr arch offset acc ltac:(lia))
      as [[_ Hp]|[Hs|(inst & size & Hs & _ & _ & Hr)]].
    + apply decode_panic_site in Hp as (m & _ & Hl & Hm & _).
      exists m. split; [|done]. rewrite <- Hl. symmetry. apply last_drop.
      unfold len in *. lia.
    + rewrite Hs in H. eapply IH; [|exact H]. lia.
    + rewrite Hr in H. eapply IH; [|exact H]. lia.
Qed.


Lemma sweep_loop_disjoint f data baseAddr arch offset acc insts :
  0 <= baseAddr -> baseAddr + len data <= 2 ^ 64 ->
  0 <= offset ->
  StronglySorted ends_before acc ->
  Forall (fun i => 0 < Size i /\ baseAddr <= Address i < baseAddr + len data
                   /\ Address i + Size i <= baseAddr + offset) acc ->
  sweep_loop f data baseAddr arch offset acc = Swept insts ->
  StronglySorted ends_before insts
  /\ Forall (fun i => 0 < Size i /\ baseAddr <= Address i < baseAddr + len data)
       insts.
Proof.
  intros Hb Hw. revert offset acc.
  induction f as [|f IH]; intros offset acc Hoff Hs Ha H.
  - simpl in H. destruct (offset <? len data); [discriminate|].
    injection H as <-. split; [done|].
    eapply Forall_impl; [exact Ha|]. simpl. intros i Hi. tauto.
  - destruct (decide (offset < len data)) as [Hlt|Hge].
    2:{ rewrite sweep_loop_done in H by lia. injection H as <-. split; [done|].
        eapply Forall_impl; [exact Ha|]. simpl. intros i Hi. tauto. }
    destruct (sweep_step f data baseAddr arch offset acc ltac:(lia))
      as [[Hp _]|[Hr|(inst & size & Hsz & HS & HA & Hr)]].
    + congruence.
    + rewrite Hr in H. eapply IH; [| |  |exact H]; [lia|done|].
      eapply Forall_impl; [exact Ha|]. simpl. intros i Hi. lia.
    + rewrite Hr in H.
      assert (Address inst = baseAddr + offset) as HA'.
      { rewrite HA. unfold uint64.
        rewrite (Z.mod_small offset) by lia. apply Z.mod_small. lia. }
      eapply IH; [| | |exact H]; [lia| |].
      * apply StronglySorted_app_2; [|done|repeat constructor].
        intros i j Hi Hj. apply list_elem_of_singleton in Hj as ->.
        rewrite Forall_forall in Ha. specialize (Ha i Hi).
        unfold ends_before. lia.
      * apply Forall_app. split.
        -- eapply Forall_impl; [exact Ha|]. simpl. intros i Hi. lia.
        -- repeat constructor; lia.
Qed.

(** X9. The sweep terminates on every section: for a supported
    architecture it returns the instruction list or panics inside the
    decoder, and for any other architecture tag it returns the error; the
    number of iterations never exceeds the number of bytes. *)
Theorem DisassembleSection_terminates data baseAddr arch :
  if String.eqb arch "x86_64" || String.eqb arch "x86"
  then (exists instructions,
          DisassembleSection data baseAddr arch = Swept instructions)
       \/ DisassembleSection data baseAddr arch = SweepPanicked
  else DisassembleSection data baseAddr arch = SweepError.
Proof.
  unfold DisassembleSection.
  destruct (String.eqb arch "x86_64"), (String.eqb arch "x86"); simpl; try done;
    (destruct (sweep_loop _ _ _ _ _ _) eqn:H; [left; eauto| |by right|];
     [apply sweep_loop_no_error in H; [done|lia]
     |apply sweep_loop_fuel in H; [done|lia|unfold len; lia]]).
Qed.

(** X10. The sweep panics only on a section whose last byte is a ModR/M
    byte with mod = 1 (a byte in [0x40]-[0x7F]): the instruction that needs
    the missing displacement is the last one of the section. *)
Theorem sweep_panics_only_on_missing_disp8 data baseAddr arch :
  DisassembleSection data baseAddr arch = SweepPanicked ->
  exists modrm, last data = Some modrm /\ modrm_mod modrm = 1.
Proof.
  unfold DisassembleSection. destruct (_ && _); [discriminate|].
  apply sweep_loop_panic. lia.
Qed.

Lemma sweep_panics_only_on_missing_disp8_witness :
  exists modrm, last [x90; x8b; x45] = Some modrm /\ modrm_mod modrm = 1.
Proof.
  apply (sweep_panics_only_on_missing_disp8 [x90; x8b; x45] 4096 "x86_64").
  vm_compute. reflexivity.
Defined.

(** X11. In a section that does not wrap around the address space, the
    instructions of a sweep are in address order and do not overlap: each
    has a positive size, lies at an address of the section, and ends at or
    before the address of every later instruction. *)
Theorem swept_instructions_do_not_overlap data baseAddr arch instructions :
  0 <= baseAddr -> baseAddr + len data <= 2 ^ 64 ->
  DisassembleSection data baseAddr arch = Swept instructions ->
  StronglySorted ends_before instructions
  /\ Forall (fun i => 0 < Size i /\ baseAddr <= Address i < baseAddr + len data)
       instructions.
Proof.
  intros Hb Hw. unfold DisassembleSection. destruct (_ && _); [discriminate|].
  apply sweep_loop_disjoint; try done; constructor.
Qed.

Lemma swept_instructions_do_not_overlap_witness :
  exists instructions,
    DisassembleSection prologue_bytes 4096 "x86_64" = Swept instructions
    /\ StronglySorted ends_before instructions.
Proof.
  eexists. split; [vm_compute; reflexivity|].
  apply (swept_instructions_do_not_overlap prologue_bytes 4096 "x86_64").
  - lia.
  - vm_compute. congruence.
  - vm_compute. reflexivity.
Defined.

(** ** Function discovery *)

Section pass2.
Variables (symbolMap : gmap Z string) (starts : gset Z).

Lemma closed_grows all f x :
  closed_ok symbolMap starts false all f ->
  closed_ok symbolMap starts false (all ++ [x]) f.
Proof.
  intros (pre & post & [Hs Hf Hb Hc Hn] & l & Hl & He).
  exists pre, (post ++ [x]). split.
  - split; try done. rewrite Hs at 1. by rewrite <- !app_assoc.
  - exists l. split; [done|].
    destruct He as [He|[(Hr & next & Hh & He)|(? & _)]]; [by left| |done].
    right. left. split; [done|]. exists next. split; [|done].
    destruct post; [done|]. exact Hh.
Qed.

Lemma calls_of_app l x :
  calls_of (l ++ [x])
  = calls_of l ++ (if is_call x then [Address x] else []).
Proof.
  unfold calls_of. rewrite filter_app, fmap_app. f_equal.
  rewrite filter_cons, filter_nil. destruct (is_call x) eqn:E.
  - rewrite decide_True by done. done.
  - rewrite decide_False by congruence. done.
Qed.

Lemma add_inst_Instructions inst cur :
  Instructions (add_inst inst cur) = Instructions cur ++ [inst].
Proof. unfold add_inst. by destruct (String.eqb _ _). Qed.

Lemma add_inst_fields inst cur :
  StartAddr (add_inst inst cur) = StartAddr cur
  /\ Name (add_inst inst cur) = Name cur
  /\ Calls (add_inst inst cur)
     = Calls cur ++ (if is_call inst then [Address inst] else []).
Proof.
  unfold add_inst, is_call. destruct (String.eqb _ _); cbn;
    rewrite ?app_nil_r; done.
Qed.

(** Appending to the open function, or to the function just opened. *)
Lemma run_add all pre cur inst :
  run_ok symbolMap starts all pre cur [] ->
  Forall (fun i => is_ret i = false) (Instructions cur) ->
  Address inst ∉ starts ->
  run_ok symbolMap starts (all ++ [inst]) pre (add_inst inst cur) [].
Proof.
  intros [Hs (first & rest & Hi & Ha & Hin & Hr) Hb Hc Hn] Hnr Hni.
  destruct (add_inst_fields inst cur) as (HS & HN & HC).
  split.
  - rewrite add_inst_Instructions, Hs, !app_nil_r. by rewrite <- app_assoc.
  - exists first, (rest ++ [inst]). rewrite add_inst_Instructions, Hi, HS.
    split_and!; try done. apply Forall_app. split; [done|]. by constructor.
  - exists (Instructions cur), inst. by rewrite add_inst_Instructions.
  - by rewrite HC, add_inst_Instructions, calls_of_app, Hc.
  - by rewrite HN, HS.
Qed.

Lemma run_fresh all inst :
  Address inst ∈ starts ->
  run_ok symbolMap starts (all ++ [inst]) all
    (add_inst inst
       (mkFunction (name_at symbolMap (Address inst)) (Address inst) 0 [] []))
    [].
Proof.
  intros Hin. set (f := mkFunction _ _ _ _ _).
  destruct (add_inst_fields inst f) as (HS & HN & HC).
  split.
  - by rewrite add_inst_Instructions, app_nil_r.
  - exists inst, []. rewrite add_inst_Instructions, HS.
    split_and!; try done.
  - exists [], inst. by rewrite add_inst_Instructions.
  - by rewrite HC, add_inst_Instructions, calls_of_app.
  - by rewrite HN, HS.
Qed.

Lemma run_set_EndAddr all pre f post e :
  run_ok symbolMap starts all pre f post ->
  run_ok symbolMap starts all pre (set_EndAddr e f) post.
Proof. intros [Hs Hf Hb Hc Hn]. by split. Qed.

Lemma run_last all pre f inst :
  run_ok symbolMap starts (all ++ [inst]) pre f [] ->
  last (Instructions f) = Some inst.
Proof.
  intros [Hs _ (body & l & Hb) _ _].
  rewrite app_nil_r, (proj1 Hb), app_assoc in Hs.
  apply app_inj_tail in Hs as [_ ->]. rewrite (proj1 Hb). apply last_snoc.
Qed.

Lemma emit_run functions all pre f post :
  run_ok symbolMap starts all pre f post -> emit functions f = functions ++ [f].
Proof.
  intros [_ (first & rest & Hi & _) _ _ _]. unfold emit. by rewrite Hi.
Qed.

Lemma close_by_start all c inst :
  open_ok symbolMap starts all c -> Address inst ∈ starts ->
  closed_ok symbolMap starts false (all ++ [inst])
    (set_EndAddr (uint64 (Address inst - 1)) c).
Proof.
  intros (pre & Hr & Hnr) Hin. exists pre, [inst]. split.
  - apply run_set_EndAddr. destruct Hr as [Hs Hf Hb Hc Hn]. split; try done.
    rewrite Hs at 1. by rewrite app_nil_r, <- app_assoc.
  - destruct Hr as [_ _ (body & l & Hb & _) _ _]. exists l. cbn.
    split; [rewrite Hb; apply last_snoc|]. right. left. split.
    + rewrite Hb in Hnr. apply Forall_app in Hnr as [_ Hl]. by inv Hl.
    + by exists inst.
Qed.

Lemma close_by_ret all pre c inst :
  run_ok symbolMap starts (all ++ [inst]) pre c [] -> is_ret inst = true ->
  closed_ok symbolMap starts false (all ++ [inst])
    (set_EndAddr (Address inst) c).
Proof.
  intros Hr Hret. exists pre, []. split; [by apply run_set_EndAddr|].
  exists inst. split; [cbn; by eapply run_last|]. by left.
Qed.

Lemma close_at_end all pre c inst :
  run_ok symbolMap starts (all ++ [inst]) pre c [] -> is_ret inst = false ->
  closed_ok symbolMap starts true (all ++ [inst])
    (set_EndAddr (Address inst) c).
Proof.
  intros Hr Hret. exists pre, []. split; [by apply run_set_EndAddr|].
  exists inst. split; [cbn; by eapply run_last|]. right. right. done.
Qed.

Lemma closed_at_end all f :
  closed_ok symbolMap starts false all f -> closed_ok symbolMap starts true all f.
Proof.
  intros (pre & post & Hr & l & Hl & He). exists pre, post. split; [done|].
  exists l. split; [done|]. destruct He as [?|[?|(? & _)]]; auto. done.
Qed.

(** The body of the second pass, stage by stage. *)
Lemma pass2_body_eq n i inst functions currentFunc :
  pass2_body n symbolMap starts i inst (functions, currentFunc) =
  let '(functions, currentFunc) :=
    if bool_decide (Address inst ∈ starts) then
      (match currentFunc with
       | Some cur => emit functions (set_EndAddr (uint64 (Address inst - 1)) cur)
       | None => functions
       end,
       Some (mkFunction (name_at symbolMap (Address inst)) (Address inst) 0 [] []))
    else (functions, currentFunc) in
  match currentFunc with
  | Some cur =>
      let cur := add_inst inst cur in
      if is_ret inst
      then (emit functions (set_EndAddr (Address inst) cur), None)
      else if i =? n - 1
           then (emit functions (set_EndAddr (Address inst) cur),
                 Some (set_EndAddr (Address inst) cur))
           else (functions, Some cur)
  | None => (functions, None)
  end.
Proof.
  cbv beta iota zeta delta [pass2_body add_inst is_ret name_at].
  destruct (bool_decide _), currentFunc; try reflexivity;
    destruct (String.eqb (Mnemonic inst) "call");
    destruct (String.eqb (Mnemonic inst) "ret"); try reflexivity;
    destruct (i =? n - 1); reflexivity.
Qed.

Lemma head_add_inst inst c x :
  head (Instructions c) = Some x ->
  head (Instructions (add_inst inst c)) = Some x.
Proof.
  rewrite add_inst_Instructions. by destruct (Instructions c).
Qed.

(** An iteration of the second pass before the last one keeps the
    invariant. *)
Lemma pass2_body_inv n all i inst st :
  pass2_inv symbolMap starts all st ->
  (i =? n - 1) = false ->
  pass2_inv symbolMap starts (all ++ [inst])
    (pass2_body n symbolMap starts i inst st).
Proof.
  destruct st as [fs cur]. intros (Hfs & Hcur & Hsub & Hcov) Hi.
  unfold opened_by in Hcov. cbn [fst snd] in Hfs, Hcur, Hsub, Hcov.
  rewrite pass2_body_eq, Hi.
  assert (Hfs' : Forall (closed_ok symbolMap starts false (all ++ [inst])) fs).
  { eapply Forall_impl; [exact Hfs|]. intros f. apply closed_grows. }
  destruct (bool_decide (Address inst ∈ starts)) eqn:Hst.
  - apply bool_decide_eq_true in Hst.
    pose proof (run_fresh all inst Hst) as Hfresh.
    set (fs1 := match cur with Some c => _ | None => fs end).
    assert (Hfs1 : Forall (closed_ok symbolMap starts false (all ++ [inst])) fs1
                   /\ sublist (concat (Instructions <$> fs1)) all
                   /\ forall x, x ∈ all -> Address x ∈ starts ->
                        exists f, f ∈ fs1 /\ head (Instructions f) = Some x).
    { unfold fs1. destruct cur as [c|]; simpl in *.
      - destruct Hcur as (pre & Hr & Hnr).
        rewrite (emit_run _ all pre _ []) by (by apply run_set_EndAddr).
        split_and!.
        + apply Forall_app. split; [done|]. constructor; [|done].
          apply close_by_start; [|done]. by exists pre.
        + by rewrite fmap_app, concat_app; simpl; rewrite app_nil_r.
        + intros x Hx Hsx.
          destruct (Hcov x Hx Hsx) as [(f & Hf & Hh)|(c0 & [= <-] & Hh)].
          * exists f. split; [|done]. apply elem_of_app. by left.
          * eexists. split; [apply elem_of_app; right; by left|done].
      - rewrite app_nil_r in Hsub. split_and!; [done|done|].
        intros x Hx Hsx.
        destruct (Hcov x Hx Hsx) as [?|(c0 & [=] & _)]; done. }
    clearbody fs1. destruct Hfs1 as (Hc1 & Hs1 & Hv1). cbv zeta.
    destruct (is_ret inst) eqn:Hret.
    + rewrite (emit_run _ (all ++ [inst]) all _ []) by (by apply run_set_EndAddr).
      unfold pass2_inv, opened_by. cbn [fst snd from_option].
      split_and!.
      * apply Forall_app. split; [done|]. constructor; [|done].
        by eapply close_by_ret.
      * done.
      * rewrite app_nil_r, fmap_app, concat_app. simpl.
        rewrite add_inst_Instructions, app_nil_r. simpl.
        by apply sublist_app.
      * intros x Hx Hsx. left.
        apply elem_of_app in Hx as [Hx| ->%list_elem_of_singleton].
        -- destruct (Hv1 x Hx Hsx) as (f & Hf & Hh).
           exists f. split; [|done]. apply elem_of_app. by left.
        -- eexists. split; [apply elem_of_app; right; by left|].
           cbn. by rewrite add_inst_Instructions.
    + unfold pass2_inv, opened_by. cbn [fst snd from_option].
      split_and!.
      * done.
      * exists all. split; [done|]. rewrite add_inst_Instructions. simpl.
        constructor; done.
      * rewrite add_inst_Instructions. simpl. by apply sublist_app.
      * intros x Hx Hsx.
        apply elem_of_app in Hx as [Hx| ->%list_elem_of_singleton].
        -- left. by apply Hv1.
        -- right. eexists. split; [done|]. by rewrite add_inst_Instructions.
  - apply bool_decide_eq_false in Hst.
    destruct cur as [c|]; simpl in Hcur, Hsub; cbv zeta.
    + destruct Hcur as (pre & Hr & Hnr).
      pose proof (run_add all pre c inst Hr Hnr Hst) as Hadd.
      destruct (is_ret inst) eqn:Hret.
      * rewrite (emit_run _ (all ++ [inst]) pre _ []) by (by apply run_set_EndAddr).
        unfold pass2_inv, opened_by. cbn [fst snd from_option].
        split_and!.
        -- apply Forall_app. split; [done|]. constructor; [|done].
           by eapply close_by_ret.
        -- done.
        -- rewrite app_nil_r, fmap_app, concat_app. simpl.
           rewrite add_inst_Instructions, app_nil_r, app_assoc.
           by apply sublist_app.
        -- intros x Hx Hsx. left.
           apply elem_of_app in Hx as [Hx| ->%list_elem_of_singleton]; [|done].
           destruct (Hcov x Hx Hsx) as [(f & Hf & Hh)|(c0 & [= <-] & Hh)].
           ++ exists f. split; [|done]. apply elem_of_app. by left.
           ++ eexists. split; [apply elem_of_app; right; by left|].
              cbn. by apply head_add_inst.
      * unfold pass2_inv, opened_by. cbn [fst snd from_option].
        split_and!.
        -- done.
        -- exists pre. split; [done|]. rewrite add_inst_Instructions.
           apply Forall_app. split; [done|]. by constructor.
        -- rewrite add_inst_Instructions, app_assoc. by apply sublist_app.
        -- intros x Hx Hsx.
           apply elem_of_app in Hx as [Hx| ->%list_elem_of_singleton]; [|done].
           destruct (Hcov x Hx Hsx) as [?|(c0 & [= <-] & Hh)]; [by left|].
           right. eexists. split; [done|]. by apply head_add_inst.
    + unfold pass2_inv, opened_by. cbn [fst snd from_option].
      split_and!; [done|done|by apply sublist_inserts_r|].
      intros x Hx Hsx.
      apply elem_of_app in Hx as [Hx| ->%list_elem_of_singleton]; [|done].
      destruct (Hcov x Hx Hsx) as [?|(c0 & [=] & _)]. by left.
Qed.

(** The last iteration is an ordinary one followed by the emission of
    the function that is still open. *)
Lemma pass2_body_last n i inst st :
  (i =? n - 1) = true ->
  (pass2_body n symbolMap starts i inst st).1 =
  let st' := pass2_body (i + 2) symbolMap starts i inst st in
  match st'.2 with
  | Some cur => emit st'.1 (set_EndAddr (Address inst) cur)
  | None => st'.1
  end.
Proof.
  intros Hi. destruct st as [fs cur]. rewrite !pass2_body_eq, Hi.
  replace (i =? i + 2 - 1) with false by lia.
  destruct (bool_decide _), cur; cbv zeta; try reflexivity;
    destruct (is_ret inst); reflexivity.
Qed.

Lemma pass2_spec n rest all i st :
  rest <> [] ->
  i = len all -> n = len all + len rest ->
  pass2_inv symbolMap starts all st ->
  result_ok symbolMap starts (all ++ rest) (pass2 n rest symbolMap starts i st).
Proof.
  revert all i st. induction rest as [|inst rest IH]; [done|].
  intros all i st _ Hi Hn Hinv. destruct rest as [|inst2 rest].
  - assert (Hlast : (i =? n - 1) = true) by (unfold len in *; simpl in *; lia).
    assert (Hnot : (i =? i + 2 - 1) = false) by lia.
    pose proof (pass2_body_inv (i + 2) all i inst st Hinv Hnot) as Hinv'.
    cbn [pass2]. rewrite (pass2_body_last n i inst st Hlast). cbv zeta.
    destruct (pass2_body (i + 2) symbolMap starts i inst st) as [fs cur].
    destruct Hinv' as (Hfs & Hcur & Hsub & Hcov).
    unfold opened_by in Hcov. cbn [fst snd] in *.
    assert (Hfs' : Forall (closed_ok symbolMap starts true (all ++ [inst])) fs).
    { eapply Forall_impl; [exact Hfs|]. intros f. apply closed_at_end. }
    destruct cur as [c|]; simpl in Hcur, Hsub.
    + destruct Hcur as (pre & Hr & Hnr).
      rewrite (emit_run _ (all ++ [inst]) pre _ []) by (by apply run_set_EndAddr).
      split_and!.
      * apply Forall_app. split; [done|]. constructor; [|done].
        eapply close_at_end; [done|].
        pose proof (run_last _ _ _ _ Hr) as Hl.
        rewrite last_lookup in Hl. apply list_elem_of_lookup_2 in Hl.
        rewrite Forall_forall in Hnr. by apply Hnr.
      * by rewrite fmap_app, concat_app; simpl; rewrite app_nil_r.
      * intros x Hx Hsx.
        destruct (Hcov x Hx Hsx) as [(f & Hf & Hh)|(c0 & [= <-] & Hh)].
        -- exists f. split; [|done]. apply elem_of_app. by left.
        -- eexists. split; [apply elem_of_app; right; by left|done].
    + rewrite app_nil_r in Hsub. split_and!; [done|done|].
      intros x Hx Hsx. destruct (Hcov x Hx Hsx) as [?|(c0 & [=] & _)]; done.
  - assert (Hnot : (i =? n - 1) = false) by (unfold len in *; simpl in *; lia).
    pose proof (pass2_body_inv n all i inst st Hinv Hnot) as Hinv'.
    change (pass2 n (inst :: inst2 :: rest) symbolMap starts i st)
      with (pass2 n (inst2 :: rest) symbolMap starts (i + 1)
              (pass2_body n symbolMap starts i inst st)).
    rewrite (cons_middle inst all), app_assoc.
    apply IH; [done| |  |done].
    + unfold len in *. rewrite length_app. simpl. lia.
    + unfold len in *. rewrite length_app. simpl in *. lia.
Qed.
End pass2.

Lemma FindFunctions_ok instructions symbols :
  result_ok (symbol_maps symbols).1 (function_starts instructions symbols)
    instructions (FindFunctions instructions symbols).
Proof.
  unfold FindFunctions, function_starts.
  destruct (symbol_maps symbols) as [symbolMap symbolAddrs]. cbn [fst snd].
  destruct instructions as [|inst rest] eqn:E.
  - split_and!; [constructor|constructor|]. intros x Hx. by apply elem_of_nil in Hx.
  - rewrite <- E.
    apply (pass2_spec _ _ (len instructions) instructions [] 0).
    + by subst.
    + reflexivity.
    + unfold len. simpl. lia.
    + split_and!; [constructor|done|constructor|].
      intros x Hx. by apply elem_of_nil in Hx.
Qed.

Lemma pass1_mono all rest sa i acc a :
  a ∈ acc -> a ∈ pass1 all rest sa i acc.
Proof.
  revert i acc. induction rest as [|inst rest IH]; intros i acc Ha; simpl; [done|].
  apply IH. repeat case_match; set_solver.
Qed.

Lemma pass1_marks all rest sa i acc k inst :
  rest !! k = Some inst ->
  isPaddingOrData all (i + Z.of_nat k) = false ->
  isStart all sa (i + Z.of_nat k) inst = true ->
  Address inst ∈ pass1 all rest sa i acc.
Proof.
  revert i acc k. induction rest as [|x rest IH]; intros i acc k Hk Hp Hs; [done|].
  destruct k as [|k]; simpl in *.
  - injection Hk as ->. rewrite Z.add_0_r in Hp, Hs. rewrite Hp, Hs.
    apply pass1_mono. set_solver.
  - apply (IH _ _ k); [done| |]; by replace (i + 1 + Z.of_nat k)
      with (i + Z.pos (Pos.of_succ_nat k)) by lia.
Qed.

Lemma pass1_only all rest sa i acc a :
  a ∈ pass1 all rest sa i acc ->
  a ∈ acc \/ exists k inst, rest !! k = Some inst /\ Address inst = a
                            /\ isPaddingOrData all (i + Z.of_nat k) = false
                            /\ isStart all sa (i + Z.of_nat k) inst = true.
Proof.
  revert i acc. induction rest as [|x rest IH]; intros i acc Ha; simpl in *;
    [by left|].
  apply IH in Ha as [Ha|(k & inst & Hk & Hi & Hp & Hs)].
  - destruct (isPaddingOrData all i) eqn:Hp; [by left|].
    destruct (isStart all sa i x) eqn:Hs; [|by left].
    apply elem_of_union in Ha as [Ha|Ha]; [|by left].
    apply elem_of_singleton in Ha as ->. right. exists 0%nat, x.
    rewrite Z.add_0_r. done.
  - right. exists (S k), inst.
    replace (i + Z.of_nat (S k)) with (i + 1 + Z.of_nat k) by lia.
    done.
Qed.

(** X13. Every function that discovery returns is a run of consecutive
    instructions of the stream that begins at a marked start, which is its
    start address, and holds no other marked start. *)
Theorem function_is_run_from_marked_start instructions symbols f :
  f ∈ FindFunctions instructions symbols ->
  exists pre first rest post,
    instructions = pre ++ Instructions f ++ post
    /\ Instructions f = first :: rest
    /\ StartAddr f = Address first
    /\ Address first ∈ function_starts instructions symbols
    /\ Forall (fun i => Address i ∉ function_starts instructions symbols) rest.
Proof.
  intros Hf. destruct (FindFunctions_ok instructions symbols) as (Hall & _).
  rewrite Forall_forall in Hall.
  destruct (Hall f Hf) as (pre & post & [Hs (first & rest & Hi) _ _ _] & _).
  by exists pre, first, rest, post.
Qed.

Lemma function_is_run_from_marked_start_witness :
  exists f pre first rest post,
    FindFunctions (section_instructions two_functions_bytes 4096 "x86_64") []
      !! 1%nat = Some f
    /\ section_instructions two_functions_bytes 4096 "x86_64"
       = pre ++ Instructions f ++ post
    /\ Instructions f = first :: rest
    /\ StartAddr f = Address first.
Proof.
  eexists.
  destruct (function_is_run_from_marked_start
              (section_instructions two_functions_bytes 4096 "x86_64") []
              _ ltac:(eapply (list_elem_of_lookup_2 _ 1%nat); vm_compute; reflexivity))
    as (pre & first & rest & post & H1 & H2 & H3 & _).
  exists pre, first, rest, post. split; [vm_compute; reflexivity|done].
Defined.

(** X14. The call list of a function holds, in order, the address of each
    of its own [call] instructions and nothing else: one entry per call
    site, never the callee. *)
Theorem function_calls_are_its_call_sites instructions symbols f :
  f ∈ FindFunctions instructions symbols ->
  Calls f = calls_of (Instructions f).
Proof.
  intros Hf. destruct (FindFunctions_ok instructions symbols) as (Hall & _).
  rewrite Forall_forall in Hall.
  by destruct (Hall f Hf) as (pre & post & [_ _ _ Hc _] & _).
Qed.

Lemma function_calls_are_its_call_sites_witness :
  exists f,
    FindFunctions (section_instructions call_bytes 8192 "x86_64") [] = [f]
    /\ Calls f = [8193].
Proof.
  eexists. split; [vm_compute; reflexivity|].
  rewrite (function_calls_are_its_call_sites
             (section_instructions call_bytes 8192 "x86_64") []).
  - vm_compute. reflexivity.
  - vm_compute. left.
Defined.

(** X15. A [ret] can only be the last instruction of a function, and the
    end address is the address of that last instruction when it is a [ret]
    or the stream ends with it; otherwise the function was closed by the
    marked start that follows it, and its end address is that start
    address minus one. *)
Theorem function_end_address instructions symbols f :
  f ∈ FindFunctions instructions symbols ->
  exists pre body l post,
    instructions = pre ++ Instructions f ++ post
    /\ Instructions f = body ++ [l]
    /\ Forall (fun i => is_ret i = false) body
    /\ ((is_ret l = true /\ EndAddr f = Address l)
        \/ (is_ret l = false /\ post = [] /\ EndAddr f = Address l)
        \/ (is_ret l = false
            /\ exists next,
                 head post = Some next
                 /\ Address next ∈ function_starts instructions symbols
                 /\ EndAddr f = uint64 (Address next - 1))).
Proof.
  intros Hf. destruct (FindFunctions_ok instructions symbols) as (Hall & _).
  rewrite Forall_forall in Hall.
  destruct (Hall f Hf)
    as (pre & post & [Hs _ (body & l & Hb & Hnr) _ _] & l' & Hl & He).
  rewrite Hb, last_snoc in Hl. injection Hl as <-.
  exists pre, body, l, post. split_and!; try done.
  destruct He as [?|[?|(_ & ? & ? & ?)]]; auto.
Qed.

Lemma function_end_address_witness :
  exists f pre body l post,
    FindFunctions (section_instructions two_functions_bytes 4096 "x86_64") []
      !! 0%nat = Some f
    /\ section_instructions two_functions_bytes 4096 "x86_64"
       = pre ++ Instructions f ++ post
    /\ Instructions f = body ++ [l].
Proof.
  eexists.
  destruct (function_end_address
              (section_instructions two_functions_bytes 4096 "x86_64") []
              _ ltac:(eapply (list_elem_of_lookup_2 _ 0%nat); vm_compute; reflexivity))
    as (pre & body & l & post & H1 & H2 & _).
  exists pre, body, l, post. split; [vm_compute; reflexivity|done].
Defined.

(** X16. The functions partition part of the stream: their instruction
    lists, concatenated in the order of the result, form a subsequence of
    the instruction stream, so no instruction belongs to two functions and
    the functions come in stream order. *)
Theorem functions_are_disjoint_in_stream_order instructions symbols :
  sublist (concat (Instructions <$> FindFunctions instructions symbols))
    instructions.
Proof. by destruct (FindFunctions_ok instructions symbols) as (_ & Hsub & _). Qed.

(** X17. Every instruction that the first pass marks opens a function:
    the result holds a function whose first instruction it is and whose
    start address is its address. *)
Theorem marked_instruction_opens_function instructions symbols k inst :
  instructions !! k = Some inst ->
  marked instructions symbols (Z.of_nat k) inst = true ->
  exists f, f ∈ FindFunctions instructions symbols
            /\ head (Instructions f) = Some inst
            /\ StartAddr f = Address inst.
Proof.
  intros Hk Hm.
  destruct (FindFunctions_ok instructions symbols) as (Hall & _ & Hcov).
  destruct (Hcov inst) as (f & Hf & Hh).
  - by eapply list_elem_of_lookup_2.
  - unfold function_starts, marked in *. apply andb_true_iff in Hm as [Hp Hs].
    apply negb_true_iff in Hp. by apply (pass1_marks _ _ _ 0 _ k).
  - exists f. split_and!; [done|done|].
    rewrite Forall_forall in Hall.
    destruct (Hall f Hf) as (pre & post & [_ (first & rest & Hi & Ha & _) _ _ _] & _).
    rewrite Hi in Hh. injection Hh as <-. done.
Qed.

Lemma marked_instruction_opens_function_witness :
  exists inst f,
    section_instructions two_functions_bytes 4096 "x86_64" !! 2%nat = Some inst
    /\ f ∈ FindFunctions (section_instructions two_functions_bytes 4096 "x86_64") []
    /\ head (Instructions f) = Some inst
    /\ StartAddr f = 4100.
Proof.
  eexists.
  destruct (marked_instruction_opens_function
              (section_instructions two_functions_bytes 4096 "x86_64") [] 2 _
              ltac:(vm_compute; reflexivity) ltac:(vm_compute; reflexivity))
    as (f & H1 & H2 & H3).
  exists f. split; [vm_compute; reflexivity|done].
Defined.

(** The two maps of the symbol table: the name map holds, for an address,
    the name of the last symbol with a name at that address, and the
    address set is the domain of the name map. *)
Lemma symbol_maps_snoc symbols sym :
  symbol_maps (symbols ++ [sym]) =
  let '(symbolMap, symbolAddrs) := symbol_maps symbols in
  if String.eqb (SymName sym) EmptyString then (symbolMap, symbolAddrs)
  else (<[SymAddress sym := SymName sym]> symbolMap,
        {[SymAddress sym]} ∪ symbolAddrs).
Proof.
  unfold symbol_maps. rewrite foldl_app. simpl.
  by destruct (foldl _ _ symbols).
Qed.

Lemma symbol_maps_lookup symbols a :
  (symbol_maps symbols).1 !! a
  = SymName <$> last (filter (fun sym => names_address a sym = true) symbols).
Proof.
  induction symbols as [|sym symbols IH] using rev_ind; [done|].
  rewrite symbol_maps_snoc, filter_app, filter_cons, filter_nil.
  destruct (symbol_maps symbols) as [m s]. cbn [fst] in IH.
  destruct (names_address a sym) eqn:Hna.
  - rewrite decide_True by done. rewrite last_snoc.
    unfold names_address in Hna. apply andb_true_iff in Hna as [Hn Ha].
    apply negb_true_iff in Hn. apply Z.eqb_eq in Ha as <-.
    rewrite Hn. cbn [fst]. by rewrite lookup_insert_eq.
  - rewrite decide_False by congruence. rewrite app_nil_r, <- IH.
    destruct (String.eqb (SymName sym) EmptyString) eqn:En; [done|].
    cbn [fst]. rewrite lookup_insert_ne; [done|].
    unfold names_address in Hna. rewrite En in Hna. simpl in Hna.
    by apply Z.eqb_neq in Hna.
Qed.

(** X18. A function is named after the last symbol with a name at its
    start address, and [sub_<hex start address>] when no symbol names that
    address. *)
Theorem function_name_from_symbol_or_address instructions symbols f :
  f ∈ FindFunctions instructions symbols ->
  Name f =
    match last (filter (fun sym => names_address (StartAddr f) sym = true)
                  symbols) with
    | Some sym => SymName sym
    | None => "sub_" +:+ hex (StartAddr f)
    end.
Proof.
  intros Hf. destruct (FindFunctions_ok instructions symbols) as (Hall & _).
  rewrite Forall_forall in Hall.
  destruct (Hall f Hf) as (pre & post & [_ _ _ _ Hn] & _).
  rewrite Hn. unfold name_at. rewrite symbol_maps_lookup.
  destruct (last _) as [sym|] eqn:Hl; [|done]. simpl.
  rewrite last_lookup in Hl. apply list_elem_of_lookup_2 in Hl.
  apply list_elem_of_filter in Hl as [Hl _]. unfold names_address in Hl.
  apply andb_true_iff in Hl as [Hl _]. apply negb_true_iff in Hl.
  by rewrite Hl.
Qed.

Lemma function_name_from_symbol_or_address_witness :
  exists f,
    FindFunctions (section_instructions call_bytes 8192 "x86_64")
      [mkSymbol "main" 8192 7 "FUNC"] = [f]
    /\ Name f = "main".
Proof.
  eexists. split; [vm_compute; reflexivity|].
  rewrite (function_name_from_symbol_or_address
             (section_instructions call_bytes 8192 "x86_64")
             [mkSymbol "main" 8192 7 "FUNC"]).
  - vm_compute. reflexivity.
  - vm_compute. left.
Defined.

Lemma symbol_maps_addrs symbols a :
  a ∈ (symbol_maps symbols).2
  <-> exists sym, sym ∈ symbols /\ names_address a sym = true.
Proof.
  induction symbols as [|sym symbols IH] using rev_ind.
  { split; [intros H; by apply elem_of_empty in H|].
    intros (sym & H & _). by apply elem_of_nil in H. }
  rewrite symbol_maps_snoc. destruct (symbol_maps symbols) as [m s].
  cbn [snd] in IH.
  assert (Hlast : names_address a sym = true
                  <-> String.eqb (SymName sym) EmptyString = false
                      /\ SymAddress sym = a).
  { unfold names_address. rewrite andb_true_iff, negb_true_iff, Z.eqb_eq. done. }
  destruct (String.eqb (SymName sym) EmptyString) eqn:En; cbn [snd].
  - rewrite IH. split; intros (x & Hx & Hn).
    + exists x. split; [|done]. apply elem_of_app. by left.
    + apply elem_of_app in Hx as [Hx|Hx%list_elem_of_singleton]; [by exists x|].
      subst x. apply Hlast in Hn as [? _]. done.
  - rewrite elem_of_union, elem_of_singleton, IH. split.
    + intros [->|(x & Hx & Hn)].
      * exists sym. split; [|by apply Hlast]. apply elem_of_app. right. by left.
      * exists x. split; [|done]. apply elem_of_app. by left.
    + intros (x & Hx & Hn).
      apply elem_of_app in Hx as [Hx|Hx%list_elem_of_singleton]; [right; by exists x|].
      subst x. left. apply Hlast in Hn as [_ Hn]. done.
Qed.

(** X12. A symbol with a name is honoured: when an instruction of the
    stream lies at its address and is not padding, discovery returns a
    function that begins with that instruction, starts at that address and
    carries the name of the last symbol that names the address. *)
Theorem named_symbol_gets_function instructions symbols sym k inst :
  sym ∈ symbols -> names_address (Address inst) sym = true ->
  instructions !! k = Some inst ->
  isPaddingOrData instructions (Z.of_nat k) = false ->
  exists f named,
    f ∈ FindFunctions instructions symbols
    /\ head (Instructions f) = Some inst
    /\ StartAddr f = Address inst
    /\ last (filter (fun s => names_address (Address inst) s = true) symbols)
       = Some named
    /\ Name f = SymName named.
Proof.
  intros Hsym Hn Hk Hp.
  assert (Hstart : Address inst ∈ function_starts instructions symbols).
  { unfold function_starts. apply (pass1_marks _ _ _ 0 _ k); [done|done|].
    unfold isStart. rewrite Z.add_0_l.
    rewrite (bool_decide_eq_true_2 (Address inst ∈ (symbol_maps symbols).2)).
    - done.
    - apply symbol_maps_addrs. by exists sym. }
  destruct (FindFunctions_ok instructions symbols) as (Hall & _ & Hcov).
  destruct (Hcov inst) as (f & Hf & Hh); [by eapply list_elem_of_lookup_2|done|].
  rewrite Forall_forall in Hall.
  destruct (Hall f Hf)
    as (pre & post & [_ (first & rest & Hi & Ha & _) _ _ Hname] & _).
  rewrite Hi in Hh. injection Hh as ->.
  assert (Hl : is_Some (last (filter (fun s => names_address (Address inst) s = true)
                                symbols))).
  { destruct (filter _ symbols) as [|x l] eqn:Hfil using rev_ind.
    - assert (sym ∈ filter (fun s => names_address (Address inst) s = true) symbols)
        as Hin by (by apply list_elem_of_filter).
      rewrite Hfil in Hin. by apply elem_of_nil in Hin.
    - rewrite last_snoc. done. }
  destruct Hl as [named Hl]. exists f, named.
  split_and!; try done; [by rewrite Hi|].
  rewrite Hname. unfold name_at. rewrite Ha, symbol_maps_lookup, Hl. simpl.
  rewrite last_lookup in Hl. apply list_elem_of_lookup_2 in Hl.
  apply list_elem_of_filter in Hl as [Hl _]. unfold names_address in Hl.
  apply andb_true_iff in Hl as [Hl _]. apply negb_true_iff in Hl.
  by rewrite Hl.
Qed.

Lemma named_symbol_gets_function_witness :
  exists f named,
    f ∈ FindFunctions (section_instructions call_bytes 8192 "x86_64")
          [mkSymbol "main" 8192 7 "FUNC"]
    /\ StartAddr f = 8192
    /\ last (filter (fun s => names_address 8192 s = true)
               [mkSymbol "main" 8192 7 "FUNC"]) = Some named
    /\ Name f = SymName named.
Proof.
  destruct (named_symbol_gets_function
              (section_instructions call_bytes 8192 "x86_64")
              [mkSymbol "main" 8192 7 "FUNC"] (mkSymbol "main" 8192 7 "FUNC")
              0 (hd zero_Instruction (section_instructions call_bytes 8192 "x86_64")))
    as (f & named & Hf & _ & Hs & Hl & Hn).
  - left.
  - vm_compute. reflexivity.
  - vm_compute. reflexivity.
  - vm_compute. reflexivity.
  - exists f, named. split; [exact Hf|]. split; [exact Hs|]. split; [exact Hl|exact Hn].
Defined.

(** ** Basic blocks *)

Lemma leaders_loop_mono all rest i leaders a :
  a ∈ leaders -> a ∈ leaders_loop all rest i leaders.
Proof.
  revert i leaders. induction rest as [|inst rest IH]; intros i leaders Ha;
    simpl; [done|].
  apply IH. repeat case_match; set_solver.
Qed.

Lemma identifyLeaders_first fn first rest :
  Instructions fn = first :: rest -> Address first ∈ identifyLeaders fn.
Proof.
  intros H. unfold identifyLeaders. rewrite H.
  apply leaders_loop_mono. set_solver.
Qed.

Lemma block_ok_snoc leaders k blocks b :
  (forall j c, blocks !! j = Some c -> block_ok leaders j c) ->
  k = length blocks -> block_ok leaders k b ->
  forall j c, (blocks ++ [b]) !! j = Some c -> block_ok leaders j c.
Proof.
  intros Hb -> Hk j c Hj.
  apply lookup_app_Some in Hj as [Hj|[Hge Hj]]; [by apply Hb|].
  apply list_lookup_singleton_Some in Hj as [Hj ->].
  by replace j with (length blocks) by lia.
Qed.

Lemma create_body_ok all leaders done inst st :
  all !! length done = Some inst ->
  create_ok all leaders done st ->
  create_ok all leaders (done ++ [inst])
    (create_body all leaders (len done) inst st).
Proof.
  destruct st as [[blocks cur] blockID].
  intros Hinst (Hb & Hc & Hid & Hcat & Hnone).
  unfold create_body.
  set (st1 := if bool_decide (Address inst ∈ leaders) then _ else _).
  assert (H1 : exists blocks1 c1 id1,
             st1 = (blocks1, Some c1, id1)
             /\ (forall k b, blocks1 !! k = Some b -> block_ok leaders k b)
             /\ ID c1 = Z.of_nat (length blocks1)
             /\ id1 = len blocks1 + 1
             /\ concat (BInstructions <$> blocks1) ++ BInstructions c1 = done
             /\ ((BInstructions c1 = [] /\ BStartAddr c1 = Address inst
                  /\ Address inst ∈ leaders)
                 \/ (block_ok leaders (length blocks1) c1
                     /\ Address inst ∉ leaders))).
  { unfold st1. case_bool_decide as Hl; destruct cur as [c|]; simpl in *;
      try (by specialize (Hnone eq_refl inst Hinst));
      eexists _, _, _; (split; [done|]); split_and!;
      first [ done
            | by apply (block_ok_snoc leaders (length blocks))
            | by destruct Hc
            | by left
            | by right
            | by rewrite fmap_app, concat_app; simpl; rewrite !app_nil_r
            | simpl; unfold len in *; rewrite ?length_app; simpl; lia ]. }
  destruct H1 as (blocks1 & c1 & id1 & -> & Hb1 & Hc1 & -> & Hcat1 & Hnew).
  set (c2 := set_BEndAddr (Address inst)
               (set_BInstructions (BInstructions c1 ++ [inst]) c1)).
  assert (Hc2 : block_ok leaders (length blocks1) c2).
  { split; [done|]. destruct Hnew as [(Hi & Hs & Hl)|[(_ & first & rest & Hi & Hs & Hl & Hr & He) Hnl]].
    - exists inst, []. unfold c2. simpl. rewrite Hi. simpl. done.
    - exists first, (rest ++ [inst]). unfold c2. simpl. rewrite Hi. simpl.
      split_and!; try done.
      + apply Forall_app. split; [done|]. by constructor.
      + rewrite app_comm_cons, last_snoc. done. }
  assert (Hcat2 : concat (BInstructions <$> blocks1) ++ BInstructions c2
                  = done ++ [inst]).
  { unfold c2. simpl. by rewrite app_assoc, Hcat1. }
  clearbody c2. clear Hnew.
  assert (Hopen : create_ok all leaders (done ++ [inst])
                    (blocks1, Some c2, len blocks1 + 1)).
  { split_and!; done. }
  destruct (IsTerminator inst && (len done + 1 <? len all)); [|done].
  assert (Z.to_nat (len done + 1) = length (done ++ [inst])) as Hnext.
  { rewrite length_app. unfold len. simpl. lia. }
  rewrite Hnext.
  destruct (all !! length (done ++ [inst])) as [next|] eqn:Hn; [|done].
  case_bool_decide as Hnl; [|done].
  split_and!.
  - by apply (block_ok_snoc leaders (length blocks1)).
  - done.
  - unfold len. rewrite length_app. simpl. lia.
  - by rewrite fmap_app, concat_app; simpl; rewrite !app_nil_r.
  - intros _ next' Hn'. congruence.
Qed.

Lemma create_loop_ok all leaders rest done st :
  all = done ++ rest ->
  create_ok all leaders done st ->
  create_ok all leaders all (create_loop all rest leaders (len done) st).
Proof.
  revert done st. induction rest as [|inst rest IH]; intros done st Hall Hst.
  - simpl. by rewrite Hall, app_nil_r in *.
  - simpl.
    replace (len done + 1) with (len (done ++ [inst]))
      by (unfold len; rewrite length_app; simpl; lia).
    apply IH; [by rewrite <- app_assoc|].
    apply create_body_ok; [|done].
    rewrite Hall. by rewrite list_lookup_middle.
Qed.

Lemma createBasicBlocks_ok fn :
  let h := createBasicBlocks fn (identifyLeaders fn) in
  (forall k b, h !! k = Some b -> block_ok (identifyLeaders fn) k b)
  /\ concat (BInstructions <$> h) = Instructions fn.
Proof.
  unfold createBasicBlocks.
  pose proof (create_loop_ok (Instructions fn) (identifyLeaders fn)
                (Instructions fn) [] ([], None, 0) eq_refl) as H.
  change (len []) with 0 in H.
  destruct (create_loop _ _ _ _ _) as [[blocks cur] blockID].
  destruct H as (Hb & Hc & _ & Hcat & _).
  { split_and!; try done. intros _ next Hn.
    destruct (Instructions fn) as [|first rest] eqn:Hi; [done|].
    injection Hn as <-. by eapply identifyLeaders_first. }
  destruct cur as [c|]; simpl in *.
  - split; [by apply (block_ok_snoc _ (length blocks))|].
    by rewrite fmap_app, concat_app; simpl; rewrite !app_nil_r.
  - by rewrite app_nil_r in Hcat.
Qed.

(** ** Fields that the later stages of [BuildCFG] leave alone *)

Section frame.
Context {A : Type} (g : BasicBlock -> A).

Lemma same_on_refl h : same_on g h h.
Proof. by split. Qed.

Lemma same_on_trans h1 h2 h3 :
  same_on g h1 h2 -> same_on g h2 h3 -> same_on g h1 h3.
Proof. intros [L1 H1] [L2 H2]. split; [congruence|]. intros p. by rewrite H2. Qed.

Lemma update_same_on h p f :
  (forall b, g (f b) = g b) -> same_on g h (update h p f).
Proof.
  intros Hf. split; [apply length_update|]. intros q.
  destruct (decide (p < length h)%nat) as [Hp|Hp].
  - destruct (decide (q = p)) as [->|Hne].
    + by rewrite deref_update_eq.
    + by rewrite deref_update_ne.
  - by rewrite deref_update_ge by lia.
Qed.

Section edges.
Hypothesis Hsuccs : forall v b, g (set_Successors v b) = g b.
Hypothesis Hpreds : forall v b, g (set_Predecessors v b) = g b.

Lemma AddSuccessor_same_on h bb succ : same_on g h (AddSuccessor h bb succ).
Proof.
  unfold AddSuccessor. case_bool_decide; [apply same_on_refl|].
  assert (H1 : same_on g h (update h bb
                 (fun b => set_Successors (Successors b ++ [succ]) b))).
  { apply update_same_on. intros b. apply Hsuccs. }
  case_bool_decide; [done|].
  eapply same_on_trans; [exact H1|]. apply update_same_on. intros b.
  apply Hpreds.
Qed.

Lemma connect_body_same_on n m h i : same_on g h (connect_body n m h i).
Proof.
  unfold connect_body, add_next, add_target.
  repeat case_match;
    repeat first [ apply same_on_refl | apply AddSuccessor_same_on
                 | eapply same_on_trans; [|apply AddSuccessor_same_on] ].
Qed.

Lemma connect_fold_same_on n m (ixs : list nat) h :
  same_on g h (foldl (connect_body n m) h ixs).
Proof.
  revert h. induction ixs as [|i ixs IH]; intros h; simpl;
    [apply same_on_refl|].
  eapply same_on_trans; [apply connect_body_same_on|apply IH].
Qed.
End edges.

Section exits.
Hypothesis Hexit : forall v b, g (set_IsExit v b) = g b.

Lemma mark_exit_fold_same_on ixs st :
  same_on g st.1 (foldl mark_exit_body st ixs).1.
Proof.
  revert st. induction ixs as [|i ixs IH]; intros [h exits]; simpl;
    [apply same_on_refl|].
  destruct (_ || _); [|apply (IH (h, exits))].
  eapply same_on_trans; [|apply (IH (_, _))]. simpl.
  apply update_same_on. intros b. apply Hexit.
Qed.
End exits.

Section dominators.
Hypothesis Hdom : forall v b, g (set_DominatedBy v b) = g b.

Lemma dom_sweep_same_on fuel e blocks h changed h' changed' :
  dom_sweep fuel e blocks h changed = Some (h', changed') -> same_on g h h'.
Proof.
  revert h changed. induction blocks as [|block blocks IH]; intros h changed;
    simpl.
  { intros [= <- _]. apply same_on_refl. }
  case_bool_decide; [apply IH|].
  destruct (newDom_loop _ _ _ _) as [newDom|]; [|done].
  destruct (_ && _); [|apply IH].
  intros Hrec%IH. eapply same_on_trans; [|exact Hrec].
  apply update_same_on. intros b. apply Hdom.
Qed.

Lemma dom_iterate_same_on fuel e blocks k h changed h' :
  dom_iterate fuel e blocks k h changed = Some h' -> same_on g h h'.
Proof.
  revert h changed. induction k as [|k IH]; intros h changed; simpl.
  { destruct changed; intros [= <-]; apply same_on_refl. }
  destruct changed; [|intros [= <-]; apply same_on_refl].
  destruct (dom_sweep _ _ _ _ _) as [[h1 c1]|] eqn:Hs; [|done].
  intros Hrec%IH. eapply same_on_trans; [|exact Hrec].
  by eapply dom_sweep_same_on.
Qed.

Lemma computeDominators_same_on fuel entry blocks h h' :
  computeDominators fuel entry blocks h = Some h' -> same_on g h h'.
Proof.
  unfold computeDominators. destruct entry as [e|];
    [|intros [= <-]; apply same_on_refl].
  destruct (_ =? _)%nat; [intros [= <-]; apply same_on_refl|].
  intros Hrec%dom_iterate_same_on. eapply same_on_trans; [|exact Hrec].
  apply update_same_on. intros b. apply Hdom.
Qed.
End dominators.
End frame.

(** ** The successor lists *)

Lemma AddSuccessor_succs h bb succ :
  (bb < length h)%nat -> (succ < length h)%nat -> edges_ok h ->
  forall a,
    succs (AddSuccessor h bb succ) a
    = if decide (a = bb)
      then (if decide (succ ∈ succs h bb) then succs h bb
            else succs h bb ++ [succ])
      else succs h a.
Proof.
  intros Hbb Hsucc Hok a.
  destruct (decide (succ ∈ succs h bb)) as [Hin|Hnew].
  - unfold AddSuccessor. fold (succs h bb). rewrite bool_decide_eq_true_2 by done.
    by case_decide; subst.
  - by destruct (AddSuccessor_edges h bb succ Hbb Hsucc Hok Hnew a) as [-> _].
Qed.

Lemma connect_body_succs n m h i :
  (n <= length h)%nat -> map_in_range m (length h) -> (i < length h)%nat ->
  edges_ok h -> succs h i = [] ->
  forall j,
    succs (connect_body n m h i) j
    = if decide (j = i) then block_successors n m (deref h i) i else succs h j.
Proof.
  intros Hn Hm Hi Hok Hnil j.
  unfold connect_body, block_successors.
  destruct (GetLastInstruction (deref h i)) as [lastInst|];
    [|by case_decide; subst].
  assert (Hnext : forall h0, (i < length h0)%nat -> (n <= length h0)%nat ->
            edges_ok h0 ->
            succs (add_next n h0 i) j
            = if decide (j = i)
              then succs h0 i
                   ++ list_difference
                        (if (i + 1 <? n)%nat then [(i + 1)%nat] else [])
                        (succs h0 i)
              else succs h0 j).
  { intros h0 Hi0 Hn0 Hok0. unfold add_next.
    destruct (i + 1 <? n)%nat eqn:Hlt.
    - apply Nat.ltb_lt in Hlt.
      rewrite AddSuccessor_succs by (done || lia).
      case_decide; [subst|done]. simpl.
      destruct (decide_rel elem_of (i + 1)%nat (succs h0 i));
        case_decide; try done; by rewrite ?app_nil_r.
    - case_decide; subst; by rewrite ?app_nil_r. }
  assert (Htarget :
            succs (add_target m h i lastInst) j
            = if decide (j = i)
              then option_list (m !! BranchTarget lastInst)
              else succs h j).
  { unfold add_target. destruct (m !! BranchTarget lastInst) as [t|] eqn:Ht.
    - rewrite AddSuccessor_succs by (done || eauto).
      case_decide; [subst|done]. rewrite Hnil.
      rewrite decide_False; [done|]. apply not_elem_of_nil.
    - case_decide; subst; simpl; done. }
  assert (Hplain : succs (add_next n h i) j
                   = if decide (j = i)
                     then (if (i + 1 <? n)%nat then [(i + 1)%nat] else [])
                     else succs h j).
  { rewrite Hnext by done. case_decide; [|done]. rewrite Hnil. simpl.
    by destruct (i + 1 <? n)%nat. }
  destruct (Category lastInst); try exact Hplain.
  - by case_decide; subst.
  - destruct (IsConditional lastInst); [|exact Htarget].
    destruct (add_target_ok m h i lastInst Hm Hi Hok) as [Hok1 Hl1].
    rewrite Hnext by (done || lia).
    case_decide as Hj; [|rewrite Htarget; by destruct (decide (j = i))].
    subst j. assert (Hti : succs (add_target m h i lastInst) i
                           = option_list (m !! BranchTarget lastInst)).
    { clear Hnext Hplain. unfold add_target.
      destruct (m !! BranchTarget lastInst) as [t|] eqn:Ht; [|done].
      rewrite AddSuccessor_succs by (done || eauto).
      rewrite decide_True by done. rewrite Hnil.
      rewrite decide_False; [done|]. apply not_elem_of_nil. }
    by rewrite Hti.
Qed.

Lemma block_successors_code n m b b' i :
  code_of b = code_of b' -> block_successors n m b i = block_successors n m b' i.
Proof.
  unfold code_of, block_successors, GetLastInstruction. by intros [= _ _ _ ->].
Qed.

Lemma connect_fold_succs n m (ixs : list nat) h :
  (n <= length h)%nat -> map_in_range m (length h) ->
  NoDup ixs -> Forall (fun i => i < length h)%nat ixs ->
  edges_ok h -> (forall i, i ∈ ixs -> succs h i = []) ->
  forall j,
    succs (foldl (connect_body n m) h ixs) j
    = if decide (j ∈ ixs) then block_successors n m (deref h j) j
      else succs h j.
Proof.
  revert h. induction ixs as [|i ixs IH]; intros h Hn Hm Hnd His Hok Hnil j.
  { cbn [foldl]. rewrite decide_False; [done|]. apply not_elem_of_nil. }
  apply NoDup_cons in Hnd as [Hni Hnd]. apply Forall_cons in His as [Hi His].
  destruct (connect_body_ok n m h i Hn Hm Hi Hok) as [Hok1 Hl1].
  pose proof (connect_body_succs n m h i Hn Hm Hi Hok
                (Hnil i ltac:(by left))) as Hs1.
  destruct (connect_body_same_on code_of ltac:(done) ltac:(done) n m h i) as [_ Hc1].
  cbn [foldl]. rewrite IH; rewrite ?Hl1; try done.
  - destruct (decide (j ∈ ixs)) as [Hj|Hj].
    + rewrite decide_True by (by right).
      by apply block_successors_code.
    + rewrite Hs1. destruct (decide (j = i)) as [->|Hne].
      * by rewrite decide_True by (by left).
      * rewrite decide_False; [done|]. by intros [?|?]%elem_of_cons.
  - intros k Hk. rewrite Hs1. rewrite decide_False by (by intros ->).
    apply Hnil. by right.
Qed.

Lemma connectBlocks_succs m h :
  map_in_range m (length h) -> Forall no_edges h ->
  forall j, (j < length h)%nat ->
    succs (connectBlocks m h) j = block_successors (length h) m (deref h j) j.
Proof.
  intros Hm Hfresh j Hj. unfold connectBlocks.
  assert (Hnil : forall i, succs h i = []).
  { intros i. unfold succs, deref. destruct (h !! i) as [b|] eqn:Hb; [|done].
    eapply Forall_lookup_1 in Hfresh; [|done]. by destruct Hfresh. }
  rewrite connect_fold_succs; try done.
  - rewrite decide_True; [done|]. apply elem_of_seq. lia.
  - apply NoDup_seq.
  - apply Forall_forall. intros i Hi%elem_of_seq. lia.
  - by apply no_edges_ok.
Qed.

Lemma dom_iterate_idom fuel e blocks k h changed h' :
  idom_inv e h -> dom_iterate fuel e blocks k h changed = Some h' ->
  idom_inv e h'.
Proof.
  revert h changed. induction k as [|k IH]; intros h changed Hinv; simpl.
  { by destruct changed; intros [= <-]. }
  destruct changed; [|by intros [= <-]].
  destruct (dom_sweep_total fuel e blocks h false Hinv)
    as (h1 & c1 & -> & Hi & _).
  by apply IH.
Qed.

Lemma computeDominators_idom fuel e blocks h h' :
  dom_none h -> computeDominators fuel (Some e) blocks h = Some h' ->
  idom_inv e h'.
Proof.
  intros Hnone. unfold computeDominators.
  destruct (_ =? _)%nat.
  - intros [= <-] p. left. apply Hnone.
  - apply dom_iterate_idom. apply update_idom_inv; [|by right].
    intros p. left. apply Hnone.
Qed.

(** What [BuildCFG] returns for a function with instructions, stage by
    stage: [h0] are the blocks of [createBasicBlocks] and [h1] the heap
    after [connectBlocks]. *)
Lemma BuildCFG_stages fuel fn :
  Instructions fn <> [] ->
  let h0 := createBasicBlocks fn (identifyLeaders fn) in
  let h1 := connectBlocks (build_BlockMap h0) h0 in
  exists h exits,
    BuildCFG fuel fn
    = Some (mkCFG h (seq 0 (length h0)) (head (seq 0 (length h0))) exits fn
              (build_BlockMap h0))
    /\ same_on code_of h0 h /\ same_edges h1 h
    /\ (0 < length h0)%nat
    /\ IsEntry (deref h 0) = true
    /\ DominatedBy (deref h 0) = Some 0%nat
    /\ idom_inv 0 h.
Proof.
  intros Hne h0 h1. unfold BuildCFG.
  destruct (Instructions fn) as [|i0 rest] eqn:Hi; [done|].
  fold h0. fold h1.
  destruct (createBasicBlocks_ok fn) as [Hblocks Hcat]. fold h0 in Hblocks, Hcat.
  assert (Hlen : (0 < length h0)%nat).
  { destruct h0; [|simpl; lia]. by rewrite Hi in Hcat. }
  pose proof (createBasicBlocks_no_edges fn (identifyLeaders fn)) as Hfresh.
  fold h0 in Hfresh.
  destruct (connectBlocks_ok (build_BlockMap h0) h0) as [Hok1 Hl1];
    [apply build_BlockMap_in_range|done|]. fold h1 in Hok1, Hl1.
  pose proof (connect_fold_same_on code_of ltac:(done) ltac:(done) (length h0)
                (build_BlockMap h0) (seq 0 (length h0)) h0) as Hc1.
  fold (connectBlocks (build_BlockMap h0) h0) in Hc1. fold h1 in Hc1.
  pose proof (connectBlocks_dom_none (build_BlockMap h0) h0
                (fresh_dom_none h0 Hfresh)) as Hd1. fold h1 in Hd1.
  destruct (length h0) as [|n] eqn:Hn; [lia|].
  change (head (seq 0 (S n))) with (Some 0%nat).
  set (h2 := update h1 0 (set_IsEntry true)).
  assert (He2 : same_edges h1 h2) by (by apply update_same_edges).
  assert (Hd2 : dom_none h2) by (by apply update_dom_none).
  assert (Hc2 : same_on code_of h1 h2) by (by apply update_same_on).
  assert (Hen2 : IsEntry (deref h2 0) = true).
  { unfold h2. rewrite deref_update_eq by lia. done. }
  pose proof (mark_exits_same_edges h2) as He3.
  pose proof (mark_exits_dom_none h2 Hd2) as Hd3.
  pose proof (mark_exit_fold_same_on code_of ltac:(done)
                (seq 0 (length h2)) (h2, [])) as Hc3.
  pose proof (mark_exit_fold_same_on IsEntry ltac:(done)
                (seq 0 (length h2)) (h2, [])) as Hen3.
  fold (mark_exits h2) in Hc3, Hen3.
  destruct (mark_exits h2) as [h3 exits]. cbn [fst] in He3, Hd3, Hc3, Hen3.
  destruct (computeDominators_total fuel (Some 0%nat) (seq 0 (S n)) h3 Hd3)
    as (h4 & Hcd & He4).
  rewrite Hcd. exists h4, exits. split; [done|].
  pose proof (computeDominators_same_on code_of ltac:(done) _ _ _ _ _ Hcd) as Hc4.
  pose proof (computeDominators_same_on IsEntry ltac:(done) _ _ _ _ _ Hcd) as Hen4.
  assert (Hl3 : length h3 = S n).
  { destruct Hc3 as [-> _]. destruct Hc2 as [-> _]. lia. }
  split_and!.
  - eapply same_on_trans; [exact Hc1|]. eapply same_on_trans; [exact Hc2|].
    by eapply same_on_trans.
  - eapply same_edges_trans; [exact He2|]. by eapply same_edges_trans.
  - lia.
  - destruct Hen4 as [_ ->]. destruct Hen3 as [_ ->]. done.
  - eapply computeDominators_entry; [exact Hcd|done|lia].
  - by eapply computeDominators_idom.
Qed.

Lemma same_code_lookup h h' k b' :
  same_on code_of h h' -> h' !! k = Some b' ->
  exists b, h !! k = Some b /\ code_of b' = code_of b.
Proof.
  intros [Hl Hc] Hk. pose proof (lookup_lt_Some _ _ _ Hk) as Hlt.
  rewrite Hl in Hlt. apply lookup_lt_is_Some in Hlt as [b Hb].
  exists b. split; [done|]. specialize (Hc k). unfold deref in Hc.
  by rewrite Hk, Hb in Hc.
Qed.

Lemma same_code_instructions h h' :
  same_on code_of h h' -> BInstructions <$> h' = BInstructions <$> h.
Proof.
  intros Hs. apply list_eq. intros k. rewrite !list_lookup_fmap.
  destruct (h' !! k) as [b'|] eqn:Hk.
  - destruct (same_code_lookup h h' k b' Hs Hk) as (b & -> & Hc).
    simpl. by injection Hc as _ _ _ ->.
  - destruct Hs as [Hl _]. apply lookup_ge_None in Hk. rewrite Hl in Hk.
    apply lookup_ge_None in Hk. by rewrite Hk.
Qed.

Lemma block_ok_code leaders k b b' :
  code_of b' = code_of b -> block_ok leaders k b -> block_ok leaders k b'.
Proof.
  unfold code_of, block_ok. intros [= -> -> -> ->]. done.
Qed.

(** X22. [BuildCFG] returns for every function, and the blocks of the
    graph partition the instructions of the function: concatenated in block
    order their instruction lists are the instruction list of the
    function. Every block is non-empty, has its position as id, starts at
    a leader (which is its start address), holds no other leader and ends
    at the address of its last instruction. *)
Theorem BuildCFG_blocks_partition_instructions fuel fn :
  exists cfg,
    BuildCFG fuel fn = Some cfg
    /\ Blocks cfg = seq 0 (length (heap cfg))
    /\ concat (BInstructions <$> heap cfg) = Instructions fn
    /\ forall k b, heap cfg !! k = Some b -> block_ok (identifyLeaders fn) k b.
Proof.
  destruct (Instructions fn) as [|i0 rest] eqn:Hi.
  { unfold BuildCFG. rewrite Hi. eexists. split; [done|]. simpl.
    split_and!; [done|done|]. intros k b Hk. by rewrite lookup_nil in Hk. }
  destruct (BuildCFG_stages fuel fn) as (h & exits & -> & Hc & _);
    [by rewrite Hi|].
  destruct (createBasicBlocks_ok fn) as [Hblocks Hcat].
  eexists. split; [done|]. simpl. split_and!.
  - by destruct Hc as [-> _].
  - by rewrite (same_code_instructions _ _ Hc), Hi in *.
  - intros k b' Hk.
    destruct (same_code_lookup _ _ _ _ Hc Hk) as (b & Hb & Hcode).
    eapply block_ok_code; [done|]. by apply Hblocks.
Qed.

Lemma block_successors_le n m b j :
  (length (block_successors n m b j) <= 2)%nat.
Proof.
  unfold block_successors.
  destruct (GetLastInstruction b) as [lastInst|]; [|simpl; lia].
  assert (Hn : (length (if (j + 1 <? n)%nat then [(j + 1)%nat] else []) <= 1)%nat)
    by (destruct (_ <? _)%nat; simpl; lia).
  assert (Ht : (length (option_list (m !! BranchTarget lastInst)) <= 1)%nat)
    by (destruct (m !! _); simpl; lia).
  destruct (Category lastInst); cbv zeta; try lia; [simpl; lia|].
  destruct (IsConditional lastInst); [|lia].
  rewrite length_app.
  destruct (j + 1 <? n)%nat; simpl; [|lia].
  destruct (decide_rel _ _ _); simpl; lia.
Qed.

Lemma BuildCFG_succs fuel fn cfg j :
  BuildCFG fuel fn = Some cfg ->
  succs (heap cfg) j
  = block_successors (length (heap cfg)) (BlockMap cfg) (deref (heap cfg) j) j.
Proof.
  intros H. destruct (Instructions fn) as [|i0 rest] eqn:Hi.
  { unfold BuildCFG in H. rewrite Hi in H. injection H as <-. simpl.
    unfold succs, deref. by rewrite lookup_nil. }
  destruct (BuildCFG_stages fuel fn) as (h & exits & H' & Hc & He & _);
    [by rewrite Hi|].
  rewrite H in H'. injection H' as ->. simpl.
  destruct (He j) as [-> _]. destruct Hc as [Hl Hc]. rewrite Hl.
  pose proof (createBasicBlocks_no_edges fn (identifyLeaders fn)) as Hfresh.
  destruct (decide (j < length (createBasicBlocks fn (identifyLeaders fn)))%nat)
    as [Hj|Hj].
  - rewrite connectBlocks_succs; [|apply build_BlockMap_in_range|done|done].
    apply block_successors_code. by rewrite Hc.
  - destruct (connectBlocks_ok _ _ (build_BlockMap_in_range _) Hfresh) as [_ Hl1].
    unfold succs at 1. unfold deref at 1. rewrite lookup_ge_None_2 by lia.
    unfold block_successors, GetLastInstruction, deref.
    rewrite lookup_ge_None_2 by lia. done.
Qed.

Lemma BuildCFG_returns fuel fn : exists cfg, BuildCFG fuel fn = Some cfg.
Proof. destruct (BuildCFG_edges fuel fn) as (cfg & H & _). eauto. Qed.

(** X23. The successor list of a block is computed from its last
    instruction alone: none for a return, the branch target for an
    unconditional jump, the target and then the next block for a
    conditional jump, and the next block otherwise; so a block never has
    more than two successors. *)
Theorem BuildCFG_successors fuel fn :
  exists cfg,
    BuildCFG fuel fn = Some cfg
    /\ forall j,
         succs (heap cfg) j
         = block_successors (length (heap cfg)) (BlockMap cfg)
             (deref (heap cfg) j) j
         /\ (length (succs (heap cfg) j) <= 2)%nat.
Proof.
  destruct (BuildCFG_returns fuel fn) as (cfg & H). exists cfg.
  split; [done|]. intros j. rewrite (BuildCFG_succs fuel fn cfg j H).
  split; [done|]. apply block_successors_le.
Qed.

Lemma BuildCFG_blocks fuel fn cfg k b :
  BuildCFG fuel fn = Some cfg -> heap cfg !! k = Some b ->
  block_ok (identifyLeaders fn) k b.
Proof.
  intros H Hk. destruct (Instructions fn) as [|i0 rest] eqn:Hi.
  { unfold BuildCFG in H. rewrite Hi in H. injection H as <-. simpl in Hk.
    by rewrite lookup_nil in Hk. }
  destruct (BuildCFG_stages fuel fn) as (h & exits & H' & Hc & _);
    [by rewrite Hi|].
  rewrite H in H'. injection H' as ->. simpl in Hk.
  destruct (createBasicBlocks_ok fn) as [Hblocks _].
  destruct (same_code_lookup _ _ _ _ Hc Hk) as (b0 & Hb & Hcode).
  eapply block_ok_code; [done|]. by apply Hblocks.
Qed.

(** X24. In the graph of a function with instructions the entry block is
    block 0, it is marked as entry and is its own immediate dominator, and
    the immediate dominator that the fixed point records for any other
    block is the entry block too: no block is ever recorded as dominated
    by a block other than the entry. *)
Theorem BuildCFG_entry_is_the_only_dominator fuel fn :
  Instructions fn <> [] ->
  exists cfg,
    BuildCFG fuel fn = Some cfg
    /\ EntryBlock cfg = Some 0%nat
    /\ IsEntry (deref (heap cfg) 0) = true
    /\ DominatedBy (deref (heap cfg) 0) = Some 0%nat
    /\ forall p, DominatedBy (deref (heap cfg) p) = None
                 \/ DominatedBy (deref (heap cfg) p) = Some 0%nat.
Proof.
  intros Hne.
  destruct (BuildCFG_stages fuel fn Hne)
    as (h & exits & -> & _ & _ & Hl & Hen & Hd & Hinv).
  eexists. split; [done|]. simpl. split_and!; try done.
  revert Hl. destruct (length _); [lia|done].
Qed.

Lemma BuildCFG_idom_inv fuel fn cfg :
  BuildCFG fuel fn = Some cfg ->
  (forall p, DominatedBy (deref (heap cfg) p) = None)
  \/ (DominatedBy (deref (heap cfg) 0) = Some 0%nat /\ idom_inv 0 (heap cfg)).
Proof.
  intros H. destruct (Instructions fn) as [|i0 rest] eqn:Hi.
  - unfold BuildCFG in H. rewrite Hi in H. injection H as <-. left.
    intros p. cbn [heap]. unfold deref. by rewrite lookup_nil.
  - destruct (BuildCFG_stages fuel fn) as (h & exits & H' & _ & _ & _ & _ & Hd & Hinv);
      [by rewrite Hi|].
    rewrite H in H'. injection H' as ->. right. done.
Qed.

(** X25. On a graph that [BuildCFG] returns, [bb.Dominates(target)] is
    true when [target] is [bb], false when [target] has no immediate
    dominator, true when [bb] is the entry block, and in every other case
    the walk up the dominator chain never ends: it reaches the entry block
    and stays there. *)
Theorem Dominates_on_built_graph fuel fn cfg bb target steps :
  BuildCFG fuel fn = Some cfg ->
  Dominates (S steps) (heap cfg) bb target =
    if decide (target = bb) then Some true
    else match DominatedBy (deref (heap cfg) target) with
         | None => Some false
         | Some _ => if decide (bb = 0%nat) then Some true else None
         end.
Proof.
  intros H. unfold Dominates. cbn [Dominates_loop].
  destruct (decide (target = bb)) as [->|Hne].
  { by rewrite bool_decide_eq_true_2. }
  rewrite bool_decide_eq_false_2 by done.
  destruct (BuildCFG_idom_inv fuel fn cfg H) as [Hnone|[Hself Hinv]].
  { rewrite Hnone. by destruct steps. }
  destruct (Hinv target) as [->| ->]; [by destruct steps|].
  destruct (decide (bb = 0%nat)) as [->|Hb].
  - destruct steps; cbn [Dominates_loop]; by rewrite bool_decide_eq_true_2.
  - apply Dominates_loop_self; [done|congruence].
Qed.

Lemma Dominates_on_built_graph_witness :
  exists fn cfg,
    section_functions back_edge_bytes 4096 "x86_64" = [fn]
    /\ BuildCFG 0 fn = Some cfg
    /\ Dominates 3 (heap cfg) 1 2 = None.
Proof.
  do 2 eexists. split; [vm_compute; reflexivity|].
  match goal with |- BuildCFG 0 ?f = Some _ /\ _ => set (fn := f) end.
  split; [vm_compute; reflexivity|].
  match goal with |- Dominates _ (heap ?c) _ _ = _ => set (cfg := c) end.
  rewrite (Dominates_on_built_graph 0 fn cfg 1 2 2).
  - vm_compute. reflexivity.
  - vm_compute. reflexivity.
Defined.

(** X26. Loop detection does not return on any graph that [BuildCFG]
    built in which the entry block has a successor other than itself: the
    first dominance test on such an edge walks from the entry block to
    itself for ever. *)
Theorem DetectLoops_hangs_when_entry_branches fuel fn cfg s :
  BuildCFG fuel fn = Some cfg ->
  s ∈ succs (heap cfg) 0 -> s <> 0%nat ->
  forall fuel', DetectLoops fuel' cfg = None.
Proof. apply DetectLoops_diverges. Qed.

Lemma DetectLoops_hangs_when_entry_branches_witness :
  exists fn cfg,
    section_functions back_edge_bytes 4096 "x86_64" = [fn]
    /\ BuildCFG 0 fn = Some cfg
    /\ succs (heap cfg) 0 = [1%nat]
    /\ DetectLoops 100 cfg = None.
Proof.
  do 2 eexists. split; [vm_compute; reflexivity|].
  match goal with |- BuildCFG 0 ?f = Some _ /\ _ => set (fn := f) end.
  split; [vm_compute; reflexivity|].
  match goal with |- succs (heap ?c) _ = _ /\ _ => set (cfg := c) end.
  split; [vm_compute; reflexivity|].
  apply (DetectLoops_hangs_when_entry_branches 0 fn cfg 1%nat).
  - vm_compute. reflexivity.
  - vm_compute. left.
  - lia.
Defined.

Lemma BuildCFG_entry_is_the_only_dominator_witness :
  exists cfg,
    BuildCFG 0 (mkFunction "f" 0 0 [zero_Instruction] []) = Some cfg
    /\ EntryBlock cfg = Some 0%nat
    /\ DominatedBy (deref (heap cfg) 0) = Some 0%nat.
Proof.
  destruct (BuildCFG_entry_is_the_only_dominator 0
              (mkFunction "f" 0 0 [zero_Instruction] []))
    as (cfg & Hb & He & _ & Hd & _).
  - simpl. discriminate.
  - by exists cfg.
Defined.

(** ** The block map *)

Lemma BlockMap_fold_lookup h (ixs : list nat) (m : gmap Z ptr) a p :
  foldl (fun m i => <[BStartAddr (deref h i) := i]> m) m ixs !! a = Some p ->
  m !! a = Some p \/ (p ∈ ixs /\ BStartAddr (deref h p) = a).
Proof.
  revert m. induction ixs as [|i ixs IH]; intros m H; simpl in *; [by left|].
  apply IH in H as [H|[Hin Ha]].
  - apply lookup_insert_Some in H as [[<- <-]|[_ H]]; [|by left].
    right. split; [by left|done].
  - right. split; [by right|done].
Qed.

Lemma BlockMap_fold_total h (ixs : list nat) (m : gmap Z ptr) a :
  is_Some (m !! a) \/ (exists p, p ∈ ixs /\ BStartAddr (deref h p) = a) ->
  is_Some (foldl (fun m i => <[BStartAddr (deref h i) := i]> m) m ixs !! a).
Proof.
  revert m. induction ixs as [|i ixs IH]; intros m H; simpl.
  { destruct H as [H|(p & Hp & _)]; [done|by apply elem_of_nil in Hp]. }
  apply IH. destruct H as [H|(p & Hp & Ha)].
  - left. rewrite lookup_insert_is_Some. destruct (decide (BStartAddr (deref h i) = a)); auto.
  - apply elem_of_cons in Hp as [->|Hp]; [|right; eauto].
    left. rewrite lookup_insert_is_Some. by left.
Qed.

(** X27. The block map of a graph sends an address to a block that starts
    at that address, and every block of the graph is found under its start
    address unless a later block starts at the same address. *)
Theorem BlockMap_finds_blocks_by_start_address fuel fn :
  exists cfg,
    BuildCFG fuel fn = Some cfg
    /\ (forall a p, BlockMap cfg !! a = Some p ->
          (p < length (heap cfg))%nat /\ BStartAddr (deref (heap cfg) p) = a)
    /\ (forall p, (p < length (heap cfg))%nat ->
          is_Some (BlockMap cfg !! BStartAddr (deref (heap cfg) p))).
Proof.
  destruct (Instructions fn) as [|i0 rest] eqn:Hi.
  { unfold BuildCFG. rewrite Hi. eexists. split; [done|]. simpl.
    split; [intros a p H; by rewrite lookup_empty in H|intros p Hp; lia]. }
  destruct (BuildCFG_stages fuel fn) as (h & exits & -> & [Hl Hc] & _);
    [by rewrite Hi|].
  eexists. split; [done|]. simpl.
  assert (Hstart : forall p, BStartAddr (deref h p)
            = BStartAddr (deref (createBasicBlocks fn (identifyLeaders fn)) p)).
  { intros p. specialize (Hc p). unfold code_of in Hc. by injection Hc as _ -> _ _. }
  split.
  - intros a p H. unfold build_BlockMap in H.
    apply BlockMap_fold_lookup in H as [H|[Hin Ha]];
      [by rewrite lookup_empty in H|].
    apply elem_of_seq in Hin. rewrite Hl, Hstart. split; [lia|done].
  - intros p Hp. unfold build_BlockMap. apply BlockMap_fold_total. right.
    exists p. rewrite Hstart. split; [|done]. apply elem_of_seq. lia.
Qed.

(** ** Exit blocks *)

Lemma create_body_not_exit all leaders i inst st :
  Forall (fun b => IsExit b = false) st.1.1 ->
  from_option (fun b => IsExit b = false) True st.1.2 ->
  let st' := create_body all leaders i inst st in
  Forall (fun b => IsExit b = false) st'.1.1
  /\ from_option (fun b => IsExit b = false) True st'.1.2.
Proof.
  destruct st as [[blocks cur] blockID]. unfold create_body. simpl.
  intros Hb Hc.
  repeat case_match; simplify_eq/=; split;
    rewrite ?Forall_app, ?Forall_singleton; simpl; intuition auto.
Qed.

Lemma createBasicBlocks_not_exit fn leaders :
  Forall (fun b => IsExit b = false) (createBasicBlocks fn leaders).
Proof.
  unfold createBasicBlocks.
  assert (Hgen : forall rest i st,
            Forall (fun b => IsExit b = false) st.1.1 ->
            from_option (fun b => IsExit b = false) True st.1.2 ->
            let st' := create_loop (Instructions fn) rest leaders i st in
            Forall (fun b => IsExit b = false) st'.1.1
            /\ from_option (fun b => IsExit b = false) True st'.1.2).
  { induction rest as [|inst rest IH]; intros i st Hb Hc; simpl; [done|].
    destruct (create_body_not_exit (Instructions fn) leaders i inst st Hb Hc).
    by apply IH. }
  specialize (Hgen (Instructions fn) 0 ([], None, 0)).
  destruct (create_loop _ _ _ _ _) as [[blocks cur] blockID].
  destruct Hgen as [Hb Hc]; [by constructor|done|]. simpl in *.
  destruct cur; [|done]. rewrite Forall_app, Forall_singleton. done.
Qed.

Lemma mark_exit_fold_spec (ixs : list ptr) h exits :
  NoDup ixs -> Forall (fun i => i < length h)%nat ixs ->
  (foldl mark_exit_body (h, exits) ixs).2
  = exits ++ filter (fun p => is_exit_block (deref h p) = true) ixs
  /\ forall p,
       IsExit (deref (foldl mark_exit_body (h, exits) ixs).1 p)
       = IsExit (deref h p)
         || (bool_decide (p ∈ ixs) && is_exit_block (deref h p)).
Proof.
  revert h exits. induction ixs as [|i ixs IH]; intros h exits Hnd Hlt.
  { cbn [foldl fst snd]. rewrite filter_nil, app_nil_r. split; [done|].
    intros p. rewrite bool_decide_eq_false_2 by apply not_elem_of_nil.
    by rewrite orb_false_r. }
  apply NoDup_cons in Hnd as [Hni Hnd]. apply Forall_cons in Hlt as [Hi Hlt].
  cbn [foldl mark_exit_body]. fold (is_exit_block (deref h i)).
  rewrite filter_cons.
  destruct (is_exit_block (deref h i)) eqn:Hx.
  - rewrite decide_True by done.
    set (h1 := update h i (set_IsExit true)).
    assert (Hsame : forall p, is_exit_block (deref h1 p) = is_exit_block (deref h p)).
    { intros p.
      destruct (update_same_on (fun b => (BInstructions b, Successors b)) h i
                  (set_IsExit true) ltac:(done)) as [_ Hg].
      specialize (Hg p). fold h1 in Hg. injection Hg as Hg1 Hg2.
      unfold is_exit_block, EndsWithReturn, GetLastInstruction.
      by rewrite Hg1, Hg2. }
    destruct (IH h1 (exits ++ [i])) as [He Hp]; [done| |].
    { unfold h1. by rewrite length_update. }
    split.
    + rewrite He, <- app_assoc. simpl. f_equal. f_equal.
      apply list_filter_iff. intros p. by rewrite Hsame.
    + intros p. rewrite Hp, Hsame. unfold h1.
      destruct (decide (p = i)) as [->|Hne].
      * rewrite deref_update_eq by done. simpl.
        rewrite (bool_decide_eq_true_2 (i ∈ i :: ixs)) by (by left).
        rewrite Hx. by rewrite orb_true_r.
      * rewrite deref_update_ne by done. f_equal. f_equal.
        apply bool_decide_ext. rewrite elem_of_cons. intuition congruence.
  - rewrite decide_False by congruence.
    destruct (IH h exits) as [He Hp]; [done|done|]. split; [done|].
    intros p. rewrite Hp. f_equal.
    destruct (decide (p = i)) as [->|Hne].
    + rewrite Hx, !andb_false_r. done.
    + f_equal. apply bool_decide_ext. rewrite elem_of_cons. intuition congruence.
Qed.

(** X29. The exit blocks of a graph are, in block order, the blocks that
    end with a return or have no successor, and they are exactly the
    blocks whose exit mark is set. *)
Theorem BuildCFG_exit_blocks fuel fn :
  exists cfg,
    BuildCFG fuel fn = Some cfg
    /\ ExitBlocks cfg
       = filter (fun p => is_exit_block (deref (heap cfg) p) = true)
           (seq 0 (length (heap cfg)))
    /\ forall p, (p < length (heap cfg))%nat ->
         IsExit (deref (heap cfg) p) = is_exit_block (deref (heap cfg) p).
Proof.
  unfold BuildCFG. destruct (Instructions fn) as [|i0 rest] eqn:Hi.
  { eexists. split; [done|]. simpl. split; [done|]. intros p Hp. lia. }
  set (h0 := createBasicBlocks fn (identifyLeaders fn)).
  set (h1 := connectBlocks (build_BlockMap h0) h0).
  set (h2 := match head (seq 0 (length h0)) with
             | Some e => update h1 e (set_IsEntry true)
             | None => h1
             end).
  assert (Hx2 : same_on IsExit h0 h2).
  { eapply same_on_trans; [apply (connect_fold_same_on IsExit); done|].
    unfold h2. fold (connectBlocks (build_BlockMap h0) h0). fold h1.
    destruct (head _); [by apply update_same_on|apply same_on_refl]. }
  assert (Hno : forall p, IsExit (deref h2 p) = false).
  { intros p. destruct Hx2 as [_ ->]. unfold deref.
    destruct (h0 !! p) as [b|] eqn:Hb; [|done]. simpl.
    pose proof (createBasicBlocks_not_exit fn (identifyLeaders fn)) as Hf.
    by eapply Forall_lookup_1 in Hf. }
  pose proof (mark_exit_fold_spec (seq 0 (length h2)) h2 []
                (NoDup_seq _ _)) as [He3 Hp3].
  { apply Forall_forall. intros i Hi'%elem_of_seq. lia. }
  pose proof (mark_exit_fold_same_on
                (fun b => (BInstructions b, Successors b)) ltac:(done)
                (seq 0 (length h2)) (h2, [])) as Hg3.
  pose proof (mark_exits_dom_none h2) as Hd3.
  fold (mark_exits h2) in He3, Hp3, Hg3.
  destruct (mark_exits h2) as [h3 exits]. cbn [fst snd] in He3, Hp3, Hg3, Hd3.
  destruct (computeDominators fuel _ _ h3) as [h4|] eqn:Hcd.
  2:{ destruct (computeDominators_total fuel (head (seq 0 (length h0)))
                  (seq 0 (length h0)) h3) as (h4 & Hcd' & _); [|congruence].
      apply Hd3. unfold h2.
      pose proof (createBasicBlocks_no_edges fn (identifyLeaders fn)) as Hfresh.
      pose proof (connectBlocks_dom_none (build_BlockMap h0) h0
                    (fresh_dom_none h0 Hfresh)) as Hd1.
      destruct (head _); [by apply update_dom_none|done]. }
  pose proof (computeDominators_same_on
                (fun b => (BInstructions b, Successors b)) ltac:(done)
                _ _ _ _ _ Hcd) as Hg4.
  pose proof (computeDominators_same_on IsExit ltac:(done) _ _ _ _ _ Hcd) as Hx4.
  assert (Hsame : forall p, is_exit_block (deref h4 p) = is_exit_block (deref h2 p)).
  { intros p. destruct Hg4 as [_ Hg4]. destruct Hg3 as [_ Hg3].
    specialize (Hg4 p). rewrite Hg3 in Hg4. injection Hg4 as Hg1 Hg2.
    unfold is_exit_block, EndsWithReturn, GetLastInstruction.
    by rewrite Hg1, Hg2. }
  assert (Hlen : length h4 = length h2).
  { destruct Hg4 as [-> _]. by destruct Hg3 as [-> _]. }
  eexists. split; [done|]. cbn [heap ExitBlocks]. split.
  - rewrite He3, Hlen. simpl. apply list_filter_iff. intros p. by rewrite Hsame.
  - intros p Hp. destruct Hx4 as [_ ->]. rewrite Hp3, Hno, Hsame. simpl.
    rewrite bool_decide_eq_true_2; [done|]. apply elem_of_seq. lia.
Qed.

(** ** Natural loops *)

Lemma block_weight_mono edges visited b x :
  (block_weight edges ({[x]} ∪ visited) b <= block_weight edges visited b)%nat.
Proof.
  unfold block_weight. destruct (decide (b ∈ visited)) as [Hv|Hv].
  - rewrite !bool_decide_eq_true_2; [lia|done|]. apply elem_of_union. by right.
  - rewrite (bool_decide_eq_false_2 (b ∈ visited)) by done.
    case_bool_decide; lia.
Qed.

Lemma weight_visit edges visited x (l : list ptr) :
  x ∉ visited -> NoDup l ->
  (sum_list (block_weight edges ({[x]} ∪ visited) <$> l)
   + (if bool_decide (x ∈ l) then S (length (edges x)) else 0)
   = sum_list (block_weight edges visited <$> l))%nat.
Proof.
  intros Hx. induction l as [|b l IH]; intros Hnd; [done|].
  apply NoDup_cons in Hnd as [Hb Hnd]. specialize (IH Hnd). simpl.
  change (list_fmap ptr nat) with (@fmap list _ ptr nat).
  destruct (decide (b = x)) as [->|Hne].
  - rewrite bool_decide_eq_true_2 by (by left).
    rewrite bool_decide_eq_false_2 in IH by done.
    assert (block_weight edges ({[x]} ∪ visited) x = 0%nat) as ->
      by (unfold block_weight; rewrite bool_decide_eq_true_2; [done|];
          apply elem_of_union; left; by apply elem_of_singleton).
    assert (block_weight edges visited x = S (length (edges x))) as ->
      by (unfold block_weight; by rewrite bool_decide_eq_false_2).
    lia.
  - assert (block_weight edges ({[x]} ∪ visited) b = block_weight edges visited b) as ->.
    { unfold block_weight. destruct (decide (b ∈ visited)) as [Hv|Hv].
      - rewrite !bool_decide_eq_true_2; [done|done|].
        apply elem_of_union. by right.
      - rewrite !bool_decide_eq_false_2; [done|done|].
        intros [Hs%elem_of_singleton|?]%elem_of_union; done. }
    destruct (bool_decide (x ∈ l)) eqn:E.
    + rewrite bool_decide_eq_true_2; [lia|]. right. by apply bool_decide_eq_true in E.
    + rewrite bool_decide_eq_false_2; [lia|]. apply bool_decide_eq_false in E.
      by intros [?|?]%elem_of_cons.
Qed.

Lemma preds_out_of_range h b : (length h <= b)%nat -> preds h b = [].
Proof. intros Hb. unfold preds, deref. by rewrite lookup_ge_None_2. Qed.

(** The worklist loop terminates within its weight, and keeps: the blocks
    are the visited set, without repetition; every block reached is the
    header or reachable from the tail; the predecessors of a block of the
    loop other than the header are in the loop or on the worklist. *)
Lemma worklist_loop_spec h header tail fuel worklist visited blocks :
  (worklist_weight (length h) (preds h) worklist visited <= fuel)%nat ->
  NoDup blocks -> (forall x, x ∈ blocks <-> x ∈ visited) ->
  header ∈ visited ->
  (forall x, x ∈ worklist -> rtc (loop_step h header) tail x) ->
  (forall x, x ∈ blocks -> x = header \/ rtc (loop_step h header) tail x) ->
  (forall x y, x ∈ blocks -> loop_step h header x y ->
               y ∈ visited \/ y ∈ worklist) ->
  exists r,
    worklist_loop fuel h worklist visited blocks = Some (blocks ++ r)
    /\ NoDup (blocks ++ r)
    /\ (forall x, x ∈ worklist -> x ∈ blocks ++ r)
    /\ (forall x, x ∈ blocks ++ r -> x = header \/ rtc (loop_step h header) tail x)
    /\ (forall x y, x ∈ blocks ++ r -> loop_step h header x y -> y ∈ blocks ++ r).
Proof.
  revert worklist visited blocks.
  induction fuel as [|fuel IH]; intros worklist visited blocks Hw Hnd Hvis Hh Hreach Hin Hcl.
  - assert (worklist = []) as ->.
    { unfold worklist_weight in Hw. destruct worklist; [done|simpl in Hw; lia]. }
    exists []. rewrite app_nil_r. simpl. split_and!; try done.
    + intros x Hx. by apply elem_of_nil in Hx.
    + intros x y Hx Hs. destruct (Hcl x y Hx Hs) as [Hy|Hy];
        [by apply Hvis|by apply elem_of_nil in Hy].
  - destruct worklist as [|w0 wl] using rev_ind.
    { exists []. rewrite app_nil_r. simpl. split_and!; try done.
      + intros x Hx. by apply elem_of_nil in Hx.
      + intros x y Hx Hs. destruct (Hcl x y Hx Hs) as [Hy|Hy];
          [by apply Hvis|by apply elem_of_nil in Hy]. }
    clear IHwl. rename w0 into block, wl into rest.
    cbn [worklist_loop]. rewrite last_snoc.
    replace (take (length (rest ++ [block]) - 1) (rest ++ [block])) with rest
      by (rewrite length_app; simpl;
          replace (length rest + 1 - 1)%nat with (length rest) by lia;
          by rewrite take_app_length).
    unfold worklist_weight in Hw. rewrite length_app in Hw. simpl in Hw.
    case_bool_decide as Hb.
    + destruct (IH rest visited blocks) as (r & Hr & Hnd' & Hwl & Hre & Hcl');
        try done.
      * unfold worklist_weight. lia.
      * intros x Hx. apply Hreach. apply elem_of_app. by left.
      * intros x y Hx Hs. destruct (Hcl x y Hx Hs) as [Hy|Hy]; [by left|].
        apply elem_of_app in Hy as [Hy|Hy%list_elem_of_singleton]; [by right|].
        left. by subst.
      * exists r. split_and!; try done.
        intros x Hx. apply elem_of_app in Hx as [Hx|Hx%list_elem_of_singleton];
          [by apply Hwl|].
        subst. apply elem_of_app. left. by apply Hvis.
    + assert (Hbr : rtc (loop_step h header) tail block).
      { apply Hreach. apply elem_of_app. right. by left. }
      assert (Hbh : block <> header) by (by intros ->).
      destruct (IH (rest ++ filter (fun pred => pred ∉ ({[block]} ∪ visited))
                              (Predecessors (deref h block)))
                  ({[block]} ∪ visited) (blocks ++ [block]))
        as (r & Hr & Hnd' & Hwl & Hre & Hcl').
      * unfold worklist_weight. rewrite length_app.
        pose proof (weight_visit (preds h) visited block (seq 0 (length h)) Hb
                      (NoDup_seq _ _)) as Hwv.
        pose proof (length_filter (fun pred => pred ∉ ({[block]} ∪ visited))
                      (Predecessors (deref h block))) as Hf.
        fold (preds h block) in Hf |- *.
        case_bool_decide as Hr; [lia|].
        assert (preds h block = []) as Hp
          by (apply preds_out_of_range; rewrite elem_of_seq in Hr; lia).
        rewrite Hp in Hf |- *. simpl in *. lia.
      * apply NoDup_app. split_and!; [done| |apply NoDup_singleton].
        intros x Hx ->%list_elem_of_singleton. by apply Hb, Hvis.
      * intros x.
        rewrite elem_of_app, list_elem_of_singleton, Hvis, elem_of_union,
          elem_of_singleton. tauto.
      * apply elem_of_union. by right.
      * intros x Hx. apply elem_of_app in Hx as [Hx|Hx].
        -- apply Hreach. apply elem_of_app. by left.
        -- apply list_elem_of_filter in Hx as [_ Hx].
           eapply rtc_r; [exact Hbr|]. by split.
      * intros x Hx. apply elem_of_app in Hx as [Hx|Hx%list_elem_of_singleton];
          [by apply Hin|]. right. by subst.
      * intros x y Hx Hs.
        destruct (decide (y ∈ ({[block]} ∪ visited))) as [Hy|Hy]; [by left|].
        right. apply elem_of_app in Hx as [Hx|Hx%list_elem_of_singleton].
        -- destruct (Hcl x y Hx Hs) as [Hv|Hv].
           { exfalso. apply Hy, elem_of_union. by right. }
           apply elem_of_app in Hv as [Hv|Hv%list_elem_of_singleton];
             [apply elem_of_app; by left|].
           exfalso. apply Hy, elem_of_union. left. by apply elem_of_singleton.
        -- subst x. apply elem_of_app. right. apply list_elem_of_filter.
           split; [done|]. by destruct Hs.
      * exists ([block] ++ r). rewrite app_assoc. split_and!; try done.
        intros x Hx. apply elem_of_app in Hx as [Hx|Hx%list_elem_of_singleton].
        -- apply Hwl. apply elem_of_app. by left.
        -- subst. apply elem_of_app. left. apply elem_of_app. right. by left.
Qed.

Lemma sum_over_heap (f : BasicBlock -> nat) (h : Heap) :
  sum_list ((fun b => f (deref h b)) <$> seq 0 (length h)) = sum_list (f <$> h).
Proof.
  f_equal. apply list_eq. intros k. rewrite !list_lookup_fmap.
  destruct (decide (k < length h)%nat) as [Hk|Hk].
  - rewrite lookup_seq_lt by done. simpl. unfold deref.
    destruct (lookup_lt_is_Some_2 h k Hk) as [b ->]. done.
  - rewrite lookup_seq_ge by lia. by rewrite lookup_ge_None_2 by lia.
Qed.

Lemma sum_list_le (f g : ptr -> nat) (l : list ptr) :
  (forall x, f x <= g x)%nat -> (sum_list (f <$> l) <= sum_list (g <$> l))%nat.
Proof.
  intros Hfg. induction l as [|x l IH]; simpl; [lia|]. specialize (Hfg x).
  change (list_fmap ptr nat) with (@fmap list _ ptr nat). lia.
Qed.

(** X28. [constructLoop] terminates, within a number of iterations bounded
    by the blocks and predecessor edges of the graph, and returns the
    natural loop of the back edge: its blocks, without repetition and with
    the header first, are the header and the blocks from which the tail is
    reached without passing through the header; its exits are its blocks
    with a successor outside it. *)
Theorem constructLoop_natural_loop h tail header fuel :
  (loop_fuel h <= fuel)%nat ->
  exists loop,
    constructLoop fuel h tail header = Some loop
    /\ Header loop = header /\ Parent loop = None /\ Nested loop = []
    /\ head (LBlocks loop) = Some header
    /\ NoDup (LBlocks loop)
    /\ (forall x, x ∈ LBlocks loop
                  <-> x = header \/ rtc (loop_step h header) tail x)
    /\ (forall x, x ∈ Exits loop
                  <-> x ∈ LBlocks loop
                      /\ exists s, s ∈ succs h x /\ s ∉ LBlocks loop).
Proof.
  intros Hfuel. unfold constructLoop.
  destruct (worklist_loop_spec h header tail fuel [tail] {[header]} [header])
    as (r & -> & Hnd & Hwl & Hre & Hcl).
  - unfold worklist_weight. simpl. unfold loop_fuel in Hfuel.
    rewrite <- (sum_over_heap (fun b => S (length (Predecessors b)))) in Hfuel.
    pose proof (sum_list_le (block_weight (preds h) {[header]})
                  (fun b => S (length (Predecessors (deref h b))))
                  (seq 0 (length h))) as Hle.
    change (list_fmap ptr nat) with (@fmap list _ ptr nat).
    assert (forall x, (block_weight (preds h) {[header]} x
                       <= S (length (Predecessors (deref h x))))%nat) as Hx.
    { intros x. unfold block_weight, preds. case_bool_decide; lia. }
    specialize (Hle Hx). lia.
  - apply NoDup_singleton.
  - intros x. by rewrite list_elem_of_singleton, elem_of_singleton.
  - by apply elem_of_singleton.
  - intros x ->%list_elem_of_singleton. apply rtc_refl.
  - intros x ->%list_elem_of_singleton. by left.
  - intros x y ->%list_elem_of_singleton [Hne _]. done.
  - eexists. split; [done|]. cbn [LBlocks Exits Header Parent Nested].
    split_and!; try done.
    + intros x. split; [apply Hre|].
      intros [->|Hr]; [by left|]. revert x Hr. apply rtc_ind_r.
      * apply Hwl. by left.
      * intros y z _ Hs IH. by eapply Hcl.
    + intros x. rewrite list_elem_of_filter. split.
      * intros [He Hx]. split; [done|].
        apply existsb_exists in He as (s & Hs & Hout).
        exists s. apply bool_decide_eq_true in Hout.
        split; [by apply list_elem_of_In|].
        by rewrite elem_of_list_to_set in Hout.
      * intros [Hx (s & Hs & Hout)]. split; [|done].
        apply existsb_exists. exists s. split; [by apply list_elem_of_In|].
        apply bool_decide_eq_true. by rewrite elem_of_list_to_set.
Qed.

Lemma constructLoop_natural_loop_witness :
  exists loop,
    constructLoop 10 [set_Predecessors [1%nat] zero_BasicBlock;
                      set_Predecessors [0%nat] zero_BasicBlock] 1 0 = Some loop
    /\ LBlocks loop = [0%nat; 1%nat].
Proof.
  destruct (constructLoop_natural_loop
              [set_Predecessors [1%nat] zero_BasicBlock;
               set_Predecessors [0%nat] zero_BasicBlock] 1 0 10
              ltac:(vm_compute; lia)) as (loop & Hl & _).
  exists loop. split; [exact Hl|].
  vm_compute in Hl. by injection Hl as <-.
Defined.

(** ** Conditional structures *)

Lemma succs_out_of_range h b : (length h <= b)%nat -> succs h b = [].
Proof. intros Hb. unfold succs, deref. by rewrite lookup_ge_None_2. Qed.

Lemma queue_weight_step h queue visited block :
  block ∉ visited ->
  (worklist_weight (length h) (succs h) (queue ++ succs h block)
     ({[block]} ∪ visited)
   < worklist_weight (length h) (succs h) (block :: queue) visited)%nat.
Proof.
  intros Hb. unfold worklist_weight. rewrite length_app. simpl.
  pose proof (weight_visit (succs h) visited block (seq 0 (length h)) Hb
                (NoDup_seq _ _)) as Hwv.
  case_bool_decide as Hr; [lia|].
  rewrite succs_out_of_range; [simpl; lia|].
  rewrite elem_of_seq in Hr. lia.
Qed.

Lemma queue_weight_skip h queue visited block :
  (worklist_weight (length h) (succs h) queue visited
   < worklist_weight (length h) (succs h) (block :: queue) visited)%nat.
Proof. unfold worklist_weight. simpl. lia. Qed.

Lemma search_fuel_start h b :
  worklist_weight (length h) (succs h) [b] ∅ = search_fuel h.
Proof.
  unfold worklist_weight, search_fuel. simpl. f_equal.
  by rewrite <- (sum_over_heap (fun b => S (length (Successors b)))).
Qed.

Lemma bfs_visit_spec h src fuel queue visited :
  (worklist_weight (length h) (succs h) queue visited <= fuel)%nat ->
  (forall x, x ∈ queue -> rtc (succ_step h) src x) ->
  (forall x, x ∈ visited -> rtc (succ_step h) src x) ->
  exists v, bfs_visit fuel h queue visited = Some v
            /\ forall x, x ∈ v -> rtc (succ_step h) src x.
Proof.
  revert queue visited.
  induction fuel as [|fuel IH]; intros queue visited Hw Hq Hv.
  - destruct queue as [|block queue]; [by exists visited|].
    unfold worklist_weight in Hw. simpl in Hw. lia.
  - destruct queue as [|block queue]; [by exists visited|].
    cbn [bfs_visit]. case_bool_decide as Hb.
    + apply IH; [|intros x Hx; apply Hq; by right|done].
      pose proof (queue_weight_skip h queue visited block). lia.
    + fold (succs h block). apply IH.
      * pose proof (queue_weight_step h queue visited block Hb). lia.
      * intros x Hx. apply elem_of_app in Hx as [Hx|Hx]; [apply Hq; by right|].
        eapply rtc_r; [apply Hq; by left|done].
      * intros x [Hx%elem_of_singleton|Hx]%elem_of_union; [|by apply Hv].
        subst. apply Hq. by left.
Qed.

Lemma bfs_find_spec h branch1 branch2 visited1 fuel queue visited2 :
  (worklist_weight (length h) (succs h) queue visited2 <= fuel)%nat ->
  (forall x, x ∈ queue -> rtc (succ_step h) branch2 x) ->
  exists r,
    bfs_find fuel h branch1 branch2 visited1 queue visited2 = Some r
    /\ forall m, r = Some m ->
         m ∈ visited1 /\ m <> branch1 /\ m <> branch2
         /\ rtc (succ_step h) branch2 m.
Proof.
  revert queue visited2.
  induction fuel as [|fuel IH]; intros queue visited2 Hw Hq.
  - destruct queue as [|block queue]; [by exists None|].
    unfold worklist_weight in Hw. simpl in Hw. lia.
  - destruct queue as [|block queue]; [by exists None|].
    cbn [bfs_find]. case_bool_decide as Hb.
    + apply IH; [|intros x Hx; apply Hq; by right].
      pose proof (queue_weight_skip h queue visited2 block). lia.
    + cbv zeta. destruct (_ && _) eqn:Htest.
      * exists (Some block). split; [done|]. intros m [= <-].
        apply andb_true_iff in Htest as [Htest H2].
        apply andb_true_iff in Htest as [H0 H1].
        apply bool_decide_eq_true in H0.
        apply negb_true_iff, bool_decide_eq_false in H1, H2.
        split_and!; try done. apply Hq. by left.
      * fold (succs h block). apply IH.
        -- pose proof (queue_weight_step h queue visited2 block Hb). lia.
        -- intros x Hx. apply elem_of_app in Hx as [Hx|Hx]; [apply Hq; by right|].
           eapply rtc_r; [apply Hq; by left|done].
Qed.

Lemma findMergePoint_spec h branch1 branch2 fuel :
  (search_fuel h <= fuel)%nat ->
  exists r,
    findMergePoint fuel h branch1 branch2 = Some r
    /\ forall m, r = Some m ->
         m <> branch1 /\ m <> branch2
         /\ rtc (succ_step h) branch1 m /\ rtc (succ_step h) branch2 m.
Proof.
  intros Hfuel. unfold findMergePoint.
  destruct (bfs_visit_spec h branch1 fuel [branch1] ∅) as (v1 & -> & Hv1).
  - by rewrite search_fuel_start.
  - intros x ->%list_elem_of_singleton. apply rtc_refl.
  - intros x Hx. by apply elem_of_empty in Hx.
  - destruct (bfs_find_spec h branch1 branch2 v1 fuel [branch2] ∅)
      as (r & -> & Hr).
    + by rewrite search_fuel_start.
    + intros x ->%list_elem_of_singleton. apply rtc_refl.
    + exists r. split; [done|]. intros m Hm.
      destruct (Hr m Hm) as (H1 & H2 & H3 & H4). split_and!; try done.
      by apply Hv1.
Qed.

Lemma block_successors_two n m b p :
  length (block_successors n m b p) = 2%nat ->
  exists t, block_successors n m b p = [t; S p].
Proof.
  unfold block_successors.
  destruct (GetLastInstruction b) as [lastInst|]; [|done].
  assert (Hn : forall l : list ptr,
             l = (if (p + 1 <? n)%nat then [(p + 1)%nat] else []) ->
             length l = 2%nat -> False)
    by (intros l ->; destruct (_ <? _)%nat; simpl; lia).
  destruct (Category lastInst); cbv zeta; intros Hl;
    try (by destruct (Hn _ eq_refl Hl)); [done|].
  destruct (IsConditional lastInst).
  - destruct (m !! BranchTarget lastInst) as [t|]; simpl in *.
    + destruct (p + 1 <? n)%nat; simpl in *; [|lia].
      destruct (decide_rel _ _ _); simpl in *; [lia|].
      exists t. by rewrite Nat.add_1_r.
    + destruct (p + 1 <? n)%nat; simpl in *; lia.
  - destruct (m !! BranchTarget lastInst); simpl in *; lia.
Qed.

Lemma built_block_is_no_empty_link fuel fn cfg q :
  BuildCFG fuel fn = Some cfg ->
  (len (BInstructions (deref (heap cfg) q)) =? 0)
  && (len (Successors (deref (heap cfg) q)) =? 1) = false.
Proof.
  intros H. unfold deref. destruct (heap cfg !! q) as [b|] eqn:Hq; [|done].
  simpl. destruct (BuildCFG_blocks fuel fn cfg q b H Hq)
    as (_ & first & rest & -> & _).
  done.
Qed.

Lemma analyzeIfElse_built fuel fn cfg p steps :
  BuildCFG fuel fn = Some cfg ->
  (search_fuel (heap cfg) <= steps)%nat ->
  two_way_branch (heap cfg) p = true ->
  exists c, analyzeIfElse steps (heap cfg) p = Some (Some c)
            /\ if_else_at (heap cfg) c p /\ CType c <> CondSwitch.
Proof.
  intros H Hfuel Htwo. apply andb_true_iff in Htwo as [Hcond Hlen].
  apply Z.eqb_eq in Hlen. fold (succs (heap cfg) p) in Hlen.
  assert (Hl2 : length (succs (heap cfg) p) = 2%nat) by (unfold len in Hlen; lia).
  pose proof (BuildCFG_succs fuel fn cfg p H) as Hs. rewrite Hs in Hl2.
  destruct (block_successors_two _ _ _ _ Hl2) as (t & Ht). rewrite Ht in Hs.
  unfold analyzeIfElse. fold (succs (heap cfg) p). rewrite Hs.
  destruct (findMergePoint_spec (heap cfg) t (S p) steps Hfuel) as (r & -> & Hr).
  destruct r as [m|].
  - eexists. split; [done|]. split; [|done]. exists t. cbn.
    destruct (Hr m eq_refl) as (H1 & H2 & H3 & H4). split_and!; done.
  - rewrite !(built_block_is_no_empty_link fuel fn cfg) by done.
    eexists. split; [done|]. split; [|done]. exists t. cbn. split_and!; done.
Qed.

Lemma conditionals_loop_built fuel fn cfg steps blocks acc :
  BuildCFG fuel fn = Some cfg ->
  (search_fuel (heap cfg) <= steps)%nat ->
  exists conds,
    conditionals_loop steps (heap cfg) blocks acc = Some (acc ++ conds)
    /\ Forall2 (if_else_at (heap cfg)) conds
         (filter (fun p => two_way_branch (heap cfg) p = true) blocks)
    /\ Forall (fun c => CType c <> CondSwitch) conds.
Proof.
  intros H Hfuel. revert acc.
  induction blocks as [|p blocks IH]; intros acc.
  { exists []. rewrite app_nil_r. split_and!; [done|constructor|constructor]. }
  cbn [conditionals_loop]. rewrite filter_cons.
  destruct (two_way_branch (heap cfg) p) eqn:Htwo.
  - rewrite decide_True by done.
    destruct (analyzeIfElse_built fuel fn cfg p steps H Hfuel Htwo)
      as (c & Hc & Hat & Hty).
    apply andb_true_iff in Htwo as [Hcond Hlen].
    rewrite Hcond, Hlen, Hc. simpl.
    destruct (IH (acc ++ [c])) as (conds & -> & Hf & Hs).
    exists (c :: conds). rewrite <- app_assoc. split_and!; [done| |].
    + by constructor.
    + by constructor.
  - rewrite decide_False by congruence.
    assert (conditionals_loop steps (heap cfg) (p :: blocks) acc
            = conditionals_loop steps (heap cfg) blocks acc) as Hskip.
    { cbn [conditionals_loop].
      destruct (IsConditionalBranch (deref (heap cfg) p)) eqn:Hcond; [|done].
      simpl. unfold two_way_branch in Htwo. rewrite Hcond in Htwo.
      simpl in Htwo. rewrite Htwo.
      pose proof (BuildCFG_succs fuel fn cfg p H) as Hs.
      pose proof (block_successors_le (length (heap cfg)) (BlockMap cfg)
                    (deref (heap cfg) p) p) as Hle.
      rewrite <- Hs in Hle. unfold succs in Hle.
      destruct (2 <? len (Successors (deref (heap cfg) p))) eqn:Hgt; [|done].
      apply Z.ltb_lt in Hgt. unfold len in Hgt. lia. }
    cbn [conditionals_loop] in Hskip. rewrite Hskip. apply IH.
Qed.

(** X30. On a graph that [BuildCFG] returns, [DetectConditionals]
    terminates and reports one structure for each block that ends with a
    conditional branch and has two successors, in block order, and never a
    switch. The then-branch of a structure is the block of the branch
    target and its else-branch is the next block; its merge point, when
    there is one, differs from both branches and is reachable from each,
    and its type is if-then-else exactly when it has a merge point. *)
Theorem DetectConditionals_on_built_graph fuel fn cfg steps :
  BuildCFG fuel fn = Some cfg ->
  (search_fuel (heap cfg) <= steps)%nat ->
  exists conds,
    DetectConditionals steps cfg = Some conds
    /\ Forall2 (if_else_at (heap cfg)) conds
         (filter (fun p => two_way_branch (heap cfg) p = true) (Blocks cfg))
    /\ Forall (fun c => CType c <> CondSwitch) conds.
Proof.
  intros H Hfuel. unfold DetectConditionals.
  destruct (conditionals_loop_built fuel fn cfg steps (Blocks cfg) [] H Hfuel)
    as (conds & Hc & Hf & Hs).
  by exists conds.
Qed.

Lemma DetectConditionals_on_built_graph_witness :
  exists cfg conds,
    BuildCFG 0 (mkFunction "f" 4096 0
                  (section_instructions [x74; x01; x90; xc3] 4096 "x86_64") [])
    = Some cfg
    /\ DetectConditionals 20 cfg = Some conds
    /\ Forall (fun c => CType c <> CondSwitch) conds.
Proof.
  set (fn := mkFunction "f" 4096 0
               (section_instructions [x74; x01; x90; xc3] 4096 "x86_64") []).
  assert (Hb : exists cfg,
             BuildCFG 0 fn = Some cfg /\ (search_fuel (heap cfg) <= 20)%nat).
  { eexists. split; [vm_compute; reflexivity|vm_compute; lia]. }
  destruct Hb as (cfg & Hb & Hfuel).
  destruct (DetectConditionals_on_built_graph 0 fn cfg 20 Hb Hfuel)
    as (conds & Hd & _ & Hs).
  exists cfg, conds. split; [exact Hb|]. split; [exact Hd|exact Hs].
Defined.

(** ** The lifter *)

Lemma lift_inst_cases i inst st (P : LiftState -> Prop) :
  (Mnemonic inst <> "ret" -> Mnemonic inst <> "mov" -> P st) ->
  (forall op, Mnemonic inst <> "ret" -> Mnemonic inst <> "mov" ->
              Type_ op <> OpReturn -> OpAddress op = Address inst ->
              P (keep op st)) ->
  (Mnemonic inst = "mov" -> P (lift_mov inst st)) ->
  (Mnemonic inst <> "ret" -> Mnemonic inst <> "mov" -> P (lift_arith inst st)) ->
  (Mnemonic inst <> "ret" -> Mnemonic inst <> "mov" -> P (lift_compare inst st)) ->
  (Mnemonic inst = "ret" -> P (lift_ret inst st)) ->
  P (lift_inst i inst st).
Proof.
  intros H0 Hk Hm Ha Hc Hr. unfold lift_inst.
  repeat case_match; subst;
    first [ apply Hm; congruence
          | apply Hr; congruence
          | apply H0; congruence
          | apply Ha; congruence
          | apply Hc; congruence
          | apply Hk; [congruence|congruence|done|done] ].
Qed.


Lemma keep_fields op st :
  variables (keep op st) = variables st
  /\ hasReturn (keep op st) = hasReturn st
  /\ varCount (keep op st) = varCount st
  /\ regMap (keep op st) = regMap st
  /\ operations (keep op st) = operations st ++ (if kept op then [op] else []).
Proof.
  unfold keep, kept. destruct (_ || _); simpl; rewrite ?app_nil_r; done.
Qed.

Lemma kept_comment op :
  kept op = true -> Type_ op = OpAssign -> Comment op <> EmptyString.
Proof.
  unfold kept. intros H Ht. rewrite bool_decide_eq_true_2 in H by done.
  simpl in H. apply negb_true_iff in H. by apply String.eqb_neq in H.
Qed.

(** A state [st1] that differs from [st] in [regMap] and [hasReturn]
    only, followed by [keep]. *)
Lemma keep_step inst st st1 op :
  variables st1 = variables st -> operations st1 = operations st ->
  varCount st1 = varCount st ->
  hasReturn st1 = hasReturn st || is_ret inst ->
  is_mov inst = false ->
  OpAddress op = Address inst ->
  (Type_ op = OpReturn <-> is_ret inst = true) ->
  (is_ret inst = true -> kept op = true) ->
  lift_step inst st (keep op st1).
Proof.
  intros Hv Ho Hc Hr Hm Ha Ht Hk.
  destruct (keep_fields op st1) as (Kv & Kr & Kc & _ & Ko).
  split.
  - exists (if kept op then [op] else []). rewrite Ko, Ho, Hm.
    split_and!; [done| | |].
    + destruct (kept op); simpl; [by rewrite Ha|apply sublist_nil_l].
    + destruct (kept op) eqn:E; simpl; [|constructor].
      constructor; [|constructor]. split; [done|]. by apply kept_comment.
    + intros Hret. by rewrite Hk.
  - by rewrite Kr.
  - exists []. rewrite Kv, Kc, Hv, Hc, app_nil_r.
    split_and!; [done|lia|lia|constructor|simpl; lia].
Qed.

Lemma is_false_neq s t : s <> t -> String.eqb s t = false.
Proof. by intros; apply String.eqb_neq. Qed.

Lemma lift_mov_step inst st :
  is_mov inst = true -> is_ret inst = false ->
  lift_step inst st (lift_mov inst st).
Proof.
  intros Hm Hr. unfold lift_mov.
  assert (Hdrop : forall r d s1 st1,
             variables st1 = variables st \/
             (variables st1 = variables st
                ++ [mkVariable ("var" +:+ dec (varCount st)) EmptyString r 0 true false]
              /\ varCount st1 = varCount st + 1) ->
             operations st1 = operations st -> hasReturn st1 = hasReturn st ->
             varCount st <= varCount st1 <= varCount st + 1 ->
             lift_step inst st
               (keep (mkOperation OpAssign d s1 EmptyString EmptyString
                        (Address inst) EmptyString) st1)).
  { intros r d s1 st1 Hv Ho Hh Hc.
    destruct (keep_fields (mkOperation OpAssign d s1 EmptyString EmptyString
                             (Address inst) EmptyString) st1)
      as (Kv & Kr & Kc & _ & Ko).
    split.
    - exists []. rewrite Ko, Ho, Hm, Hr. split_and!; done.
    - by rewrite Kr, Hh, Hr, orb_false_r.
    - rewrite Kv, Kc. destruct Hv as [Hv|[Hv Hc']].
      + exists []. rewrite Hv, app_nil_r.
        split_and!; [done|lia|lia|constructor|simpl; lia].
      + eexists. split; [exact Hv|]. split_and!; [lia|lia| |simpl; lia].
        constructor; [|done]. done. }
  repeat case_match; subst;
    first [ eapply Hdrop; simpl; [by right|done|done|lia]
          | apply (Hdrop EmptyString); simpl; [by left|done|done|lia] ].
Qed.

Lemma lift_inst_step i inst st : lift_step inst st (lift_inst i inst st).
Proof.
  apply lift_inst_cases.
  - intros Hr Hm. apply String.eqb_neq in Hr, Hm. split.
    + exists []. unfold is_mov, is_ret. rewrite Hm, Hr, app_nil_r.
      split_and!; [done|apply sublist_nil_l|constructor|done].
    + unfold is_ret. by rewrite Hr, orb_false_r.
    + exists []. rewrite app_nil_r.
      split_and!; [done|lia|lia|constructor|simpl; lia].
  - intros op Hr Hm Ht Ha. apply String.eqb_neq in Hr, Hm.
    apply keep_step; unfold is_ret, is_mov; rewrite ?Hr, ?Hm, ?orb_false_r;
      try done.
  - intros Hm. apply lift_mov_step; unfold is_mov, is_ret; by rewrite Hm.
  - intros Hr Hm. apply String.eqb_neq in Hr, Hm. unfold lift_arith.
    repeat case_match; apply keep_step;
      unfold is_ret, is_mov; rewrite ?Hr, ?Hm, ?orb_false_r; done.
  - intros Hr Hm. apply String.eqb_neq in Hr, Hm. unfold lift_compare.
    repeat case_match; apply keep_step;
      unfold is_ret, is_mov; rewrite ?Hr, ?Hm, ?orb_false_r; done.
  - intros Hr. unfold lift_ret.
    apply keep_step; unfold is_ret, is_mov; rewrite ?Hr; simpl;
      rewrite ?orb_true_r; done.
Qed.

Lemma lift_loop_ops rest i st :
  exists ops,
    operations (lift_loop rest i st) = operations st ++ ops
    /\ sublist (OpAddress <$> ops)
         (Address <$> filter (fun x => is_mov x = false) rest)
    /\ Forall (fun op => Type_ op = OpAssign -> Comment op <> EmptyString) ops
    /\ ((exists op, op ∈ ops /\ Type_ op = OpReturn)
        <-> exists x, x ∈ rest /\ is_ret x = true).
Proof.
  revert i st. induction rest as [|inst rest IH]; intros i st; simpl.
  - exists []. rewrite app_nil_r. split_and!; [done|done|constructor|].
    split; intros (x & Hx & _); by apply elem_of_nil in Hx.
  - destruct (lift_inst_step i inst st) as [(ops1 & Ho1 & Hs1 & Hf1 & Hn1) _ _].
    destruct (IH (i + 1) (lift_inst i inst st)) as (ops2 & Ho2 & Hs2 & Hf2 & Hr2).
    exists (ops1 ++ ops2). split_and!.
    + by rewrite Ho2, Ho1, app_assoc.
    + rewrite fmap_app, filter_cons. destruct (is_mov inst) eqn:Hm.
      * rewrite decide_False by done. apply sublist_nil_r in Hs1.
        by rewrite Hs1.
      * rewrite decide_True by done. rewrite fmap_cons.
        by apply (sublist_app _ [Address inst]).
    + apply Forall_app. split; [|done].
      eapply Forall_impl; [exact Hf1|]. simpl. tauto.
    + split.
      * intros (op & Hop & Ht). apply elem_of_app in Hop as [Hop|Hop].
        -- exists inst. split; [by left|].
           rewrite Forall_forall in Hf1. by apply (Hf1 op Hop).
        -- destruct (proj1 Hr2 (ex_intro _ op (conj Hop Ht))) as (x & Hx & Hxr).
           exists x. split; [by right|done].
      * intros (x & Hx & Hxr). apply elem_of_cons in Hx as [->|Hx].
        -- destruct ops1 as [|op ops1]; [by destruct (Hn1 Hxr)|].
           exists op. split; [by left|].
           apply Forall_cons in Hf1 as [[Hf1 _] _]. by apply Hf1.
        -- destruct (proj2 Hr2 (ex_intro _ x (conj Hx Hxr))) as (op & Hop & Ht).
           exists op. split; [|done]. apply elem_of_app. by right.
Qed.

Lemma lift_loop_ret rest i st :
  hasReturn (lift_loop rest i st) = hasReturn st || existsb is_ret rest.
Proof.
  revert i st. induction rest as [|inst rest IH]; intros i st; simpl.
  - by rewrite orb_false_r.
  - rewrite IH. destruct (lift_inst_step i inst st) as [_ -> _].
    by rewrite orb_assoc.
Qed.

Lemma lift_loop_vars rest i st :
  exists vs ks,
    variables (lift_loop rest i st) = variables st ++ vs
    /\ VarName <$> vs = (fun k => "var" +:+ dec k) <$> ks
    /\ StronglySorted Z.lt ks
    /\ Forall (fun k => varCount st <= k < varCount (lift_loop rest i st)) ks
    /\ Forall (fun v => IsLocal v = true /\ IsParam v = false) vs
    /\ varCount st <= varCount (lift_loop rest i st).
Proof.
  revert i st. induction rest as [|inst rest IH]; intros i st; simpl.
  - exists [], []. rewrite app_nil_r.
    split_and!; [done|done|constructor|constructor|constructor|lia].
  - destruct (lift_inst_step i inst st) as [_ _ (vs1 & Hv1 & Hc1 & Hf1 & Hl1)].
    destruct (IH (i + 1) (lift_inst i inst st))
      as (vs2 & ks2 & Hv2 & Hn2 & Hs2 & Hk2 & Hp2 & Hc2).
    exists (vs1 ++ vs2), ((const (varCount st) <$> vs1) ++ ks2).
    split_and!.
    + by rewrite Hv2, Hv1, app_assoc.
    + rewrite !fmap_app, Hn2. f_equal. rewrite <- list_fmap_compose.
      apply Forall_fmap_ext_1. eapply Forall_impl; [exact Hf1|].
      simpl. intros v (Hv & _). done.
    + destruct vs1 as [|v [|v' vs1]]; [done| |simpl in Hl1; lia].
      apply Forall_cons in Hf1 as [(_ & Hc & _) _]. simpl.
      constructor; [done|]. eapply Forall_impl; [exact Hk2|]. simpl. lia.
    + apply Forall_app. split.
      * apply Forall_fmap. eapply Forall_impl; [exact Hf1|]. simpl. lia.
      * eapply Forall_impl; [exact Hk2|]. simpl. lia.
    + apply Forall_app. split; [|done].
      eapply Forall_impl; [exact Hf1|]. simpl. tauto.
    + lia.
Qed.

(** X19. The lifter sets [HasReturn] exactly when the function holds a
    [ret] instruction, and exactly when it emits a Return operation. *)
Theorem Decompile_has_return_iff_ret fn :
  (HasReturn (Decompile fn) = true
   <-> exists inst, inst ∈ Instructions fn /\ Mnemonic inst = "ret")
  /\ (HasReturn (Decompile fn) = true
      <-> exists op, op ∈ Operations (Decompile fn) /\ Type_ op = OpReturn).
Proof.
  unfold Decompile. cbn [HasReturn Operations].
  set (st0 := mkLiftState [] [] false ∅ 0).
  rewrite (lift_loop_ret (Instructions fn) 0 st0).
  destruct (lift_loop_ops (Instructions fn) 0 st0) as (ops & -> & _ & _ & Hr).
  simpl. assert (Hex : existsb is_ret (Instructions fn) = true
                       <-> exists inst, inst ∈ Instructions fn /\ Mnemonic inst = "ret").
  { rewrite existsb_exists. split; intros (x & Hx & Hxr); exists x.
    - split; [by apply list_elem_of_In|]. by apply String.eqb_eq.
    - split; [by apply list_elem_of_In|]. by apply String.eqb_eq. }
  split; [done|]. rewrite Hex, Hr. split; intros (x & Hx & Hxr); exists x.
  - split; [done|]. by apply String.eqb_eq.
  - split; [done|]. by apply String.eqb_eq in Hxr.
Qed.

(** X20. The lifter emits at most one operation per instruction, in
    instruction order and at the address of its instruction, and none for a
    [mov]; no emitted operation is an Assign with an empty comment. *)
Theorem Decompile_operations_follow_instructions fn :
  sublist (OpAddress <$> Operations (Decompile fn))
    (Address <$> filter (fun inst => is_mov inst = false) (Instructions fn))
  /\ Forall (fun op => Type_ op = OpAssign -> Comment op <> EmptyString)
       (Operations (Decompile fn)).
Proof.
  unfold Decompile. cbn [Operations].
  destruct (lift_loop_ops (Instructions fn) 0 (mkLiftState [] [] false ∅ 0))
    as (ops & -> & Hs & Hf & _).
  done.
Qed.

(** X21. The variables of a lifted function are named [var<k>] for
    strictly increasing counter values [k] below [LocalVars], and each is a
    local that is no parameter; so [LocalVars] is at least the number of
    variables. *)
Theorem Decompile_variables_numbered fn :
  exists ks,
    VarName <$> Variables (Decompile fn) = (fun k => "var" +:+ dec k) <$> ks
    /\ StronglySorted Z.lt ks
    /\ Forall (fun k => 0 <= k < LocalVars (Decompile fn)) ks
    /\ Forall (fun v => IsLocal v = true /\ IsParam v = false)
         (Variables (Decompile fn)).
Proof.
  unfold Decompile. cbn [Variables LocalVars].
  destruct (lift_loop_vars (Instructions fn) 0 (mkLiftState [] [] false ∅ 0))
    as (vs & ks & -> & Hn & Hs & Hk & Hp & _).
  by exists ks.
Qed.
